(** * sc2mp3: the SoundCloud download content script

    A shallow embedding of the extension's content script (the version
    that scrapes the client id and talks to the api-v2 endpoints) and of
    the preference writer of the options page.

    JSON documents returned by the API are kept as dynamically typed
    JavaScript values, because the script indexes them without checking
    their shape.  The browser (URL parsing, fetch, blob URLs, the list of
    script elements) is an interface the script calls; it is modelled as a
    type class.  Effects are modelled by a state-and-exception monad over
    the page state: the script's global [clientId], the cookie string, the
    synced preference store and the trace of requests and downloads the
    script has caused so far. *)

From Stdlib Require Import String Ascii List ZArith Lia Bool DecimalString.
Import ListNotations.
Local Open Scope string_scope.
#[local] Set Warnings "-register-all".

(** ** JavaScript values and exceptions *)

(** Numbers are restricted to integers, which print in plain decimal:
    the only number the script looks at is a track id.  An object keeps its properties in insertion order,
    which is the order [Object.entries] enumerates them in; property
    names are unique and lookup takes the first binding. *)
Inductive value : Type :=
| VUndefined
| VNull
| VBool (b : bool)
| VNum (n : Z)
| VStr (s : string)
| VArr (elems : list value)
| VObj (props : list (string * value)).

Definition object := list (string * value).

(** A thrown exception: the name of its constructor and its message. *)
Inductive exn : Type := Exn (name : string) (message : string).

Definition Error (message : string) : exn := Exn "Error" message.
Definition TypeError (message : string) : exn := Exn "TypeError" message.

Inductive result (A : Type) : Type :=
| Ok (a : A)
| Throw (e : exn).
Arguments Ok {A} a.
Arguments Throw {A} e.

Definition rbind {A B} (r : result A) (k : A -> result B) : result B :=
  match r with
  | Ok a => k a
  | Throw e => Throw e
  end.

(** Own-property lookup in an object literal or a parsed JSON object. *)
Fixpoint lookup (k : string) (props : object) : option value :=
  match props with
  | [] => None
  | (k', v) :: rest => if String.eqb k' k then Some v else lookup k rest
  end.

Definition has_key (k : string) (props : object) : bool :=
  match lookup k props with
  | Some _ => true
  | None => false
  end.

(** [o[k]].  Reading a property of [null] or [undefined] throws; a
    missing property reads as [undefined].  The names the script reads
    (media, transcodings, format, protocol, quality, url, title, user,
    username, downloadable, has_downloads_left, id, redirectUri,
    enableHQ) are not built-in properties of strings, arrays, numbers or
    booleans, so those read as [undefined] too. *)
Definition get_prop (o : value) (k : string) : result value :=
  match o with
  | VUndefined => Throw (TypeError ("undefined has no properties, reading " ++ k))
  | VNull => Throw (TypeError ("null has no properties, reading " ++ k))
  | VObj props =>
      match lookup k props with
      | Some v => Ok v
      | None => Ok VUndefined
      end
  | _ => Ok VUndefined
  end.

(** ToBoolean. *)
Definition truthy (v : value) : bool :=
  match v with
  | VUndefined | VNull => false
  | VBool b => b
  | VNum n => negb (Z.eqb n 0)
  | VStr s => negb (String.eqb s "")
  | VArr _ | VObj _ => true
  end.

(** [v === s] for a string [s]. *)
Definition strict_eq_str (v : value) (s : string) : bool :=
  match v with
  | VStr s' => String.eqb s' s
  | _ => false
  end.

(** [v === null]. *)
Definition is_null (v : value) : bool :=
  match v with
  | VNull => true
  | _ => false
  end.

(** ToString, as applied by template literals, by [+] with a string and
    by the DOM and URL setters.  A parsed JSON object converts to
    "[object Object]" unless it has an own property named toString, which
    cannot be callable and makes the conversion throw.  An array is
    joined with commas, [null] and [undefined] elements printing as the
    empty string. *)
Fixpoint to_string (v : value) : result string :=
  match v with
  | VUndefined => Ok "undefined"
  | VNull => Ok "null"
  | VBool true => Ok "true"
  | VBool false => Ok "false"
  | VNum n => Ok (NilZero.string_of_int (Z.to_int n))
  | VStr s => Ok s
  | VArr elems =>
      let elem (x : value) : result string :=
        match x with
        | VUndefined | VNull => Ok ""
        | _ => to_string x
        end in
      match elems with
      | [] => Ok ""
      | x :: rest =>
          (fix join (acc : result string) (l : list value) : result string :=
             match l with
             | [] => acc
             | y :: l' =>
                 join (rbind acc (fun a =>
                       rbind (elem y) (fun b => Ok (a ++ "," ++ b)))) l'
             end) (elem x) rest
      end
  | VObj props =>
      if has_key "toString" props
      then Throw (TypeError "can't convert object to primitive type")
      else Ok "[object Object]"
  end.

(** The values a [for ... of] loop runs over.  An array yields its
    elements and a string its characters; anything else is not iterable. *)
Definition iterate (v : value) : result (list value) :=
  match v with
  | VArr elems => Ok elems
  | VStr s => Ok (map (fun c => VStr (String c "")) (list_ascii_of_string s))
  | _ => Throw (TypeError "value is not iterable")
  end.

(** ** Strings *)

(** [s.includes(sub)]. *)
Fixpoint includes (sub s : string) : bool :=
  if String.prefix sub s then true
  else match s with
       | "" => false
       | String _ rest => includes sub rest
       end.

(** [s.lastIndexOf(sub)]: the greatest index at which [sub] occurs, or -1. *)
Fixpoint lastIndexOf_from (sub s : string) (i : nat) : option nat :=
  match s with
  | "" => if String.prefix sub "" then Some i else None
  | String _ rest =>
      match lastIndexOf_from sub rest (S i) with
      | Some j => Some j
      | None => if String.prefix sub s then Some i else None
      end
  end.

Definition lastIndexOf (sub s : string) : Z :=
  match lastIndexOf_from sub s 0 with
  | Some j => Z.of_nat j
  | None => (-1)%Z
  end.

(** [s.substring(start)]: a negative start counts as 0. *)
Definition substring_from (start : Z) (s : string) : string :=
  String.substring (Z.to_nat start) (String.length s) s.

(** ** Regular expressions of the script *)

Definition is_space (c : ascii) : bool := Ascii.eqb c " ".
Definition is_semicolon (c : ascii) : bool := Ascii.eqb c ";".

(** The longest prefix of characters satisfying [p]. *)
Fixpoint take_while (p : ascii -> bool) (s : string) : string :=
  match s with
  | "" => ""
  | String c rest => if p c then String c (take_while p rest) else ""
  end.

(** Removes [pre] from the front of [s]. *)
Fixpoint strip_prefix (pre s : string) : option string :=
  match pre, s with
  | "", _ => Some s
  | String a pre', String b s' =>
      if Ascii.eqb a b then strip_prefix pre' s' else None
  | String _ _, "" => None
  end.

(** The part [ *key=([^;]+)] of the cookie pattern, matched at the front
    of [s]; the result is the second group.  The number of blanks to skip
    is tried from the smallest, which finds the same match as the greedy
    order because at most one count lets [key=] follow. *)
Fixpoint cookie_after_sep (key s : string) : option string :=
  match
    match strip_prefix (key ++ "=") s with
    | Some rest =>
        match take_while (fun c => negb (is_semicolon c)) rest with
        | "" => None
        | g => Some g
        end
    | None => None
    end
  with
  | Some g => Some g
  | None =>
      match s with
      | String c rest => if is_space c then cookie_after_sep key rest else None
      | "" => None
      end
  end.

(** The alternative [;] of the first group, tried at every position from
    the left. *)
Fixpoint cookie_scan (key s : string) : option string :=
  match s with
  | "" => None
  | String c rest =>
      match (if is_semicolon c then cookie_after_sep key rest else None) with
      | Some g => Some g
      | None => cookie_scan key rest
      end
  end.

(** [s.match(new RegExp("(^|;) *" + key + "=([^;]+)"))], giving the second
    group of the leftmost match.  [key] is taken literally, which is
    right for a key without regular-expression operators such as
    oauth_token. *)
Definition cookie_match (key s : string) : option string :=
  match cookie_after_sep key s with
  | Some g => Some g
  | None => cookie_scan key s
  end.

Definition is_alnum (c : ascii) : bool :=
  let n := nat_of_ascii c in
  ((65 <=? n) && (n <=? 90) || (97 <=? n) && (n <=? 122)
   || (48 <=? n) && (n <=? 57))%nat.

(** The double-quote character. *)
Definition dquote : ascii := ascii_of_nat 34.

Definition is_quote (c : ascii) : bool :=
  Ascii.eqb c dquote || Ascii.eqb c "'".

(** Splits off [n] characters that all satisfy [p]. *)
Fixpoint take_exactly (p : ascii -> bool) (n : nat) (s : string)
  : option (string * string) :=
  match n with
  | O => Some ("", s)
  | S n' =>
      match s with
      | String c rest =>
          if p c then
            match take_exactly p n' rest with
            | Some (g, rest') => Some (String c g, rest')
            | None => None
            end
          else None
      | "" => None
      end
  end.

(** The client-id pattern matched at the front of [s]. *)
Definition client_id_at (s : string) : option string :=
  match strip_prefix "client_id:" s with
  | Some (String q1 rest) =>
      if is_quote q1 then
        match take_exactly is_alnum 32 rest with
        | Some (g, String q2 _) => if is_quote q2 then Some g else None
        | _ => None
        end
      else None
  | _ => None
  end.

(** [s.match(/client_id:["']([A-Za-z0-9]{32})['"]/)], giving the first
    group of the leftmost match. *)
Fixpoint client_id_match (s : string) : option string :=
  match client_id_at s with
  | Some g => Some g
  | None =>
      match s with
      | "" => None
      | String _ rest => client_id_match rest
      end
  end.

(** ** The browser *)

Definition headers := list (string * string).

(** A response: its status and what reading its body as JSON, as text or
    as a blob settles to. *)
Record response : Type := {
  status : Z;
  json : result value;
  text : result string;
  blob : result string;
}.

(** [resp.ok]: the status is in the range 200 to 299. *)
Definition ok (resp : response) : bool :=
  ((200 <=? status resp) && (status resp <=? 299))%Z.

(** What the script does to the outside: a call of [fetch] with the URL
    and, when an init object was passed, its headers; and a click on a
    temporary link with the given [href] and [download] attributes. *)
Inductive event : Type :=
| EFetch (url : string) (init : option headers)
| EDownload (href : string) (download : string).

(** The browser interface.  [fetch_response] is what a call of [fetch]
    settles to, which may depend on everything the script did before. *)
Class Browser : Type := {
  URL : Type;
  URL_parse : string -> option URL;
  searchParams_append : URL -> string -> string -> URL;
  URL_toString : URL -> string;
  URL_pathname : URL -> string;
  fetch_response : list event -> string -> option headers -> result response;
  createObjectURL : list event -> string -> string;
  script_srcs : list string;
}.

(** The state a run of the script reads and writes. *)
Record page : Type := {
  clientId : value;
  document_cookie : string;
  storage_sync : object;
  trace : list event;
}.

Definition log (e : event) (w : page) : page :=
  {| clientId := clientId w;
     document_cookie := document_cookie w;
     storage_sync := storage_sync w;
     trace := trace w ++ [e] |}.

(** ** The monad of the script *)

(** A computation runs on a page and either returns or throws; the page
    it leaves behind is kept in both cases. *)
Definition M (A : Type) : Type := page -> result A * page.

Definition ret {A} (a : A) : M A := fun w => (Ok a, w).

Definition throw {A} (e : exn) : M A := fun w => (Throw e, w).

Definition bind {A B} (m : M A) (k : A -> M B) : M B :=
  fun w =>
    match m w with
    | (Ok a, w') => k a w'
    | (Throw e, w') => (Throw e, w')
    end.

Definition lift {A} (r : result A) : M A := fun w => (r, w).

(** [try { m } catch (ex) { h ex }]. *)
Definition try_catch {A} (m : M A) (h : exn -> M A) : M A :=
  fun w =>
    match m w with
    | (Ok a, w') => (Ok a, w')
    | (Throw e, w') => h e w'
    end.

Declare Scope js_scope.
Delimit Scope js_scope with js.
Notation "x <- m ;; k" := (bind m (fun x => k))
  (at level 61, m at next level, right associativity) : js_scope.
Notation "m ;;; k" := (bind m (fun _ => k))
  (at level 61, right associativity) : js_scope.
Local Open Scope js_scope.

Section Script.
Context {B : Browser}.

(** [new URL(v)]. *)
Definition new_URL (v : value) : result URL :=
  rbind (to_string v) (fun s =>
    match URL_parse s with
    | Some u => Ok u
    | None => Throw (TypeError (s ++ " is not a valid URL"))
    end).

(** [await fetch(url, init)]. *)
Definition fetch (url : value) (init : option headers) : M response :=
  s <- lift (to_string url) ;;
  fun w => (fetch_response (trace w) s init, log (EFetch s init) w).

(** [await browser.storage.sync.get(key)]: an object holding the key
    when it is stored. *)
Definition storage_sync_get (key : string) : M value :=
  fun w =>
    (Ok (VObj match lookup key (storage_sync w) with
              | Some v => [(key, v)]
              | None => []
              end), w).

(** [await browser.storage.sync.set({key: v})]. *)
Definition storage_sync_set (key : string) (v : value) : M unit :=
  fun w =>
    (Ok tt,
     {| clientId := clientId w;
        document_cookie := document_cookie w;
        storage_sync :=
          (key, v) :: filter (fun kv => negb (String.eqb (fst kv) key))
                             (storage_sync w);
        trace := trace w |}).

(** [document.cookie]. *)
Definition get_document_cookie : M string :=
  fun w => (Ok (document_cookie w), w).

(** The global [clientId], read and assigned. *)
Definition get_clientId : M value :=
  fun w => (Ok (clientId w), w).

Definition set_clientId (v : value) : M unit :=
  fun w =>
    (Ok tt,
     {| clientId := v;
        document_cookie := document_cookie w;
        storage_sync := storage_sync w;
        trace := trace w |}).

(** [o[k] = v] on an object literal: an existing property keeps its
    place. *)
Fixpoint obj_set (k : string) (v : value) (o : object) : object :=
  match o with
  | [] => [(k, v)]
  | (k', v') :: rest =>
      if String.eqb k' k then (k', v) :: rest else (k', v') :: obj_set k v rest
  end.

(** [{...o, ...args}], where [None] stands for an [args] that was not
    passed. *)
Definition spread (o : object) (args : option object) : object :=
  match args with
  | Some a => fold_left (fun acc kv => obj_set (fst kv) (snd kv) acc) a o
  | None => o
  end.

(** ** The content script *)

Fixpoint append_params (url : URL) (params : object) : result URL :=
  match params with
  | [] => Ok url
  | (k, v) :: rest =>
      rbind (to_string v) (fun s =>
        append_params (searchParams_append url k s) rest)
  end.

Definition withQuery (baseUrl : value) (params : object) : result string :=
  rbind (new_URL baseUrl) (fun url =>
  rbind (append_params url params) (fun url' =>
  Ok (URL_toString url'))).

(** The init object [fetchJson] is called with. *)
Record init_object : Type := {
  init_headers : headers;
  init_query : option object;
}.

Definition status_string (resp : response) : string :=
  NilZero.string_of_int (Z.to_int (status resp)).

Definition fetchJson (url : value) (init : option init_object) : M value :=
  ui <- match init with
        | Some i =>
            match init_query i with
            | Some q =>
                u <- lift (withQuery url q) ;;
                ret (VStr u, Some (init_headers i))
            | None => ret (url, Some (init_headers i))
            end
        | None => ret (url, None)
        end ;;
  resp <- fetch (fst ui) (snd ui) ;;
  if negb (ok resp) then
    u <- lift (to_string (fst ui)) ;;
    throw (Error ("Request to " ++ u ++ " failed with result "
                  ++ status_string resp))
  else
    lift (json resp).

Definition fetchAuthorizedJson (url authToken : value) (args : option object)
  : M value :=
  hdrs <- (if negb (is_null authToken) then
             tok <- lift (to_string authToken) ;;
             ret [("Authorization", "OAuth " ++ tok)]
           else ret []) ;;
  cid <- get_clientId ;;
  let query := spread [("client_id", cid)] args in
  fetchJson url (Some {| init_headers := hdrs; init_query := Some query |}).

(** The key is matched as it is written; see [cookie_match]. *)
Definition getCookie (key : string) : M value :=
  c <- get_document_cookie ;;
  match cookie_match key c with
  | Some g => ret (VStr g)
  | None => ret VNull
  end.

(** The temporary link is given its [download] attribute, then its
    [href], and is clicked. *)
Definition downloadUrl (url filename : value) : M unit :=
  d <- lift (to_string filename) ;;
  h <- lift (to_string url) ;;
  fun w => (Ok tt, log (EDownload h d) w).

Fixpoint pickTranscoding_loop (transcodings : list value) (quality : string)
  : result value :=
  match transcodings with
  | [] => Ok VNull
  | transcoding :: rest =>
      rbind (get_prop transcoding "format") (fun format =>
      rbind (get_prop format "protocol") (fun protocol =>
      if negb (strict_eq_str protocol "progressive") then
        pickTranscoding_loop rest quality
      else
        rbind (get_prop transcoding "quality") (fun q =>
        if strict_eq_str q quality then Ok transcoding
        else pickTranscoding_loop rest quality)))
  end.

Definition pickTranscoding (trackObj : value) (quality : string)
  : result value :=
  rbind (get_prop trackObj "media") (fun media =>
  rbind (get_prop media "transcodings") (fun transcodings =>
  rbind (iterate transcodings) (fun l =>
  pickTranscoding_loop l quality))).

(** [name.includes(" - ")]: the string method on a string, the array
    method on an array, and no method at all on anything else. *)
Definition includes_separator (name : value) : result bool :=
  match name with
  | VStr s => Ok (includes " - " s)
  | VArr elems => Ok (existsb (fun x => strict_eq_str x " - ") elems)
  | _ => Throw (TypeError "name.includes is not a function")
  end.

Definition getTrackName (trackObj : value) : result value :=
  rbind (get_prop trackObj "title") (fun name =>
  rbind (includes_separator name) (fun has_dash =>
  if negb has_dash then
    rbind (get_prop trackObj "user") (fun user =>
    rbind (get_prop user "username") (fun artist =>
    rbind (to_string artist) (fun a =>
    rbind (to_string name) (fun n =>
    Ok (VStr (a ++ " - " ++ n))))))
  else Ok name)).

(** The value bound to [transcoding] on entry to
    [downloadTrackTranscoding]:
    [pickTranscoding(trackObj, "hq") || pickTranscoding(trackObj, "sq")]. *)
Definition selectTranscoding (trackObj : value) : result value :=
  rbind (pickTranscoding trackObj "hq") (fun hq =>
  if truthy hq then Ok hq else pickTranscoding trackObj "sq").

Definition downloadTrackTranscoding (trackObj authToken : value) : M unit :=
  transcoding <- lift (selectTranscoding trackObj) ;;
  if is_null transcoding then
    throw (Error "Failed to find a valid transcoding")
  else
    turl <- lift (get_prop transcoding "url") ;;
    urlResp <- fetchAuthorizedJson turl authToken (Some []) ;;
    url <- lift (get_prop urlResp "url") ;;
    name <- lift (getTrackName trackObj) ;;
    u <- lift (new_URL url) ;;
    let path := URL_pathname u in
    let extension := substring_from (lastIndexOf "." path + 1) path in
    n <- lift (to_string name) ;;
    let filename := n ++ "." ++ extension in
    resp <- fetch url None ;;
    b <- lift (blob resp) ;;
    burl <- (fun w => (Ok (createObjectURL (trace w) b), w)) ;;
    downloadUrl (VStr burl) (VStr filename).

Definition downloadNative (trackId : value) : M unit :=
  id <- lift (to_string trackId) ;;
  json <- fetchAuthorizedJson
            (VStr ("https://api-v2.soundcloud.com/tracks/" ++ id ++ "/download"))
            VNull None ;;
  url <- lift (get_prop json "redirectUri") ;;
  downloadUrl url VUndefined.

Definition downloadTrack (trackUrl : string) : M unit :=
  settings <- storage_sync_get "enableHQ" ;;
  enableHQ <- lift (get_prop settings "enableHQ") ;;
  authToken <- (if truthy enableHQ then getCookie "oauth_token"
                else ret VNull) ;;
  trackObj <- fetchAuthorizedJson
                (VStr "https://api-v2.soundcloud.com/resolve")
                authToken
                (Some [("url", VStr trackUrl)]) ;;
  downloadable <- lift (get_prop trackObj "downloadable") ;;
  native <- (if truthy downloadable then
               left <- lift (get_prop trackObj "has_downloads_left") ;;
               ret (truthy left)
             else ret false) ;;
  if native then
    id <- lift (get_prop trackObj "id") ;;
    downloadNative id
  else
    downloadTrackTranscoding trackObj authToken.

Fixpoint scrapeClientId_loop (scripts : list string) : M value :=
  match scripts with
  | [] => throw (Error "Could not get client_id value from current page")
  | src :: rest =>
      if String.eqb src "" then scrapeClientId_loop rest
      else
        fetched <- try_catch (resp <- fetch (VStr src) None ;; ret (Some resp))
                             (fun _ => ret None) ;;
        match fetched with
        | None => scrapeClientId_loop rest
        | Some resp =>
            src_text <- lift (text resp) ;;
            match client_id_match src_text with
            | Some id => ret (VStr id)
            | None => scrapeClientId_loop rest
            end
        end
  end.

Definition scrapeClientId : M value :=
  scrapeClientId_loop script_srcs.

(** The first statement of [init]: [clientId = await scrapeClientId()].
    The observer and the buttons that [init] sets up afterwards are not
    part of this model. *)
Definition init_clientId : M unit :=
  id <- scrapeClientId ;;
  set_clientId id.

(** ** The options page *)

(** The change handler of the enableHQ radio buttons, given the value of
    the button that changed. *)
Definition onEnableHQChange (target_value : string) : M unit :=
  let val := negb (String.eqb target_value "0") in
  storage_sync_set "enableHQ" (VBool val).

End Script.

(** ** The options page, continued *)

(** [init] of the options page: the value it gives the enableHQ radio
    group, "1" or "0".  The change listeners it then registers are
    [onEnableHQChange]. *)
Definition options_init : M string :=
  options <- storage_sync_get "enableHQ" ;;
  enableHQ <- lift (get_prop options "enableHQ") ;;
  ret (if truthy enableHQ then "1" else "0").

(** ** The download button *)

(** What the click handler changes of a button: its text and its class
    list, an ordered set of tokens. *)
Record button : Type := {
  innerText : string;
  classList : list string;
}.

Definition classList_add (token : string) (l : list string) : list string :=
  if existsb (String.eqb token) l then l else (l ++ [token])%list.

Definition classList_remove (token : string) (l : list string) : list string :=
  filter (fun t => negb (String.eqb t token)) l.

(** [ex.toString()] for an error object. *)
Definition exn_toString (ex : exn) : string :=
  match ex with
  | Exn name message =>
      if String.eqb name "" then message
      else if String.eqb message "" then name
      else name ++ ": " ++ message
  end.

(** The [onclick] handler that [injectDownloadButton] gives the button of
    the track [trackUrl].  The result is what the handler settles to and
    the page it leaves, the button at the end, and the messages shown by
    [alert]. *)
Definition button_onclick {B : Browser} (trackUrl : string) (b : button)
           (w : page) : result unit * page * button * list string :=
  let b1 := {| innerText := "Downloading...";
               classList := classList_add "sc-button-selected" (classList b) |} in
  match downloadTrack trackUrl w with
  | (Ok _, w') =>
      let b2 := {| innerText := "Download"; classList := classList b1 |} in
      (Ok tt, w',
       {| innerText := innerText b2;
          classList := classList_remove "sc-button-selected" (classList b2) |},
       [])
  | (Throw ex, w') =>
      let b2 := {| innerText := "Failed :-("; classList := classList b1 |} in
      (Throw ex, w',
       {| innerText := innerText b2;
          classList := classList_remove "sc-button-selected" (classList b2) |},
       [exn_toString ex])
  end.

(** ** The elements of the page

    A node of the document is a text node or an element with the
    properties the script reads and writes and with its children.  An
    element of the document is referred to by the path of child indices
    that leads to it from the root; [appendChild] adds a last child, so
    the paths of the nodes that are there stay as they are.  [onclick]
    is the track URL of the download handler, for a button the script
    made. *)
Record element_props : Type := {
  tagName : string;
  className : string;
  href : string;
  title : string;
  onclick : option string;
}.

Inductive node : Type :=
| TextNode (data : string)
| Element (props : element_props) (children : list node).

(** The class attribute is a list of tokens separated by ASCII
    whitespace. *)
Definition is_ascii_whitespace (c : ascii) : bool :=
  match nat_of_ascii c with
  | 9 | 10 | 12 | 13 | 32 => true
  | _ => false
  end.

Fixpoint class_tokens (s : string) : list string :=
  match s with
  | "" => []
  | String c rest =>
      if is_ascii_whitespace c then class_tokens rest
      else
        match rest with
        | "" => [String c ""]
        | String c' _ =>
            if is_ascii_whitespace c' then String c "" :: class_tokens rest
            else
              match class_tokens rest with
              | t :: ts => String c t :: ts
              | [] => [String c ""]
              end
        end
  end.

(** The element matches the selector [.cls]. *)
Definition has_class (cls : string) (n : node) : bool :=
  match n with
  | Element p _ => existsb (String.eqb cls) (class_tokens (className p))
  | TextNode _ => false
  end.

(** The node a path leads to. *)
Fixpoint node_at (n : node) (p : list nat) : option node :=
  match p with
  | [] => Some n
  | i :: p' =>
      match n with
      | Element _ cs =>
          match nth_error cs i with
          | Some c => node_at c p'
          | None => None
          end
      | TextNode _ => None
      end
  end.

(** The element at the end of a path and its ancestors, innermost
    first. *)
Fixpoint ancestry (n : node) (p : list nat) : list node :=
  match p with
  | [] => [n]
  | i :: p' =>
      match n with
      | Element _ cs =>
          match nth_error cs i with
          | Some c => (ancestry c p' ++ [n])%list
          | None => []
          end
      | TextNode _ => []
      end
  end.

(** The paths of the nodes of a tree that match [.cls], in tree order. *)
Fixpoint matching_paths (cls : string) (n : node) {struct n} : list (list nat) :=
  let self := if has_class cls n then [[]] else [] in
  match n with
  | TextNode _ => self
  | Element _ cs =>
      (self ++
       (fix go (cs : list node) (i : nat) {struct cs} : list (list nat) :=
          match cs with
          | [] => []
          | c :: rest =>
              (map (cons i) (matching_paths cls c) ++ go rest (S i))%list
          end) cs 0)%list
  end.

Fixpoint children_paths (cls : string) (cs : list node) (i : nat)
  : list (list nat) :=
  match cs with
  | [] => []
  | c :: rest =>
      (map (cons i) (matching_paths cls c) ++ children_paths cls rest (S i))%list
  end.

(** [n.querySelectorAll(".cls")]: the matching descendants of [n]. *)
Definition querySelectorAll (cls : string) (n : node) : list (list nat) :=
  match n with
  | TextNode _ => []
  | Element _ cs => children_paths cls cs 0
  end.

(** [n.querySelector(".cls")]: the first of them, or [null]. *)
Definition querySelector (cls : string) (n : node) : option (list nat) :=
  hd_error (querySelectorAll cls n).

Definition querySelector_node (cls : string) (n : node) : option node :=
  match querySelector cls n with
  | Some p => node_at n p
  | None => None
  end.

(** [elem.closest(".cls")], for an element given with its ancestors. *)
Definition closest (cls : string) (elem : list node) : option node :=
  find (has_class cls) elem.

(** [a || b] for two elements or [null]s. *)
Definition or_else {A} (a b : option A) : option A :=
  match a with
  | Some x => Some x
  | None => b
  end.

Definition getTrackUrlForElement (location_href : string) (elem : list node)
  : string :=
  let container :=
    or_else (closest "soundList__item" elem)
   (or_else (closest "trackList__item" elem)
   (or_else (closest "soundBadgeList__item" elem)
            (closest "historicalPlays__item" elem))) in
  match container with
  | Some c =>
      let title :=
        or_else (querySelector_node "soundTitle__title" c)
                (querySelector_node "trackItem__trackTitle" c) in
      match title with
      | Some (Element p _) =>
          if String.eqb (tagName p) "A" then href p else location_href
      | _ => location_href
      end
  | None => location_href
  end.

(** [s.replace(pat, rep)] for strings: the first occurrence is replaced.
    The replacement the script uses has no dollar sign. *)
Fixpoint replace_first (pat rep s : string) : string :=
  match strip_prefix pat s with
  | Some rest => rep ++ rest
  | None =>
      match s with
      | "" => ""
      | String c rest => String c (replace_first pat rep rest)
      end
  end.

(** The token set of a class attribute, and its serialization. *)
Definition token_set (s : string) : list string :=
  fold_left (fun acc t => classList_add t acc) (class_tokens s) [].

Definition serialize_tokens (l : list string) : string := String.concat " " l.

(** The button made for a like button and a track URL: a button element
    whose class name is the like button's with sc-button-like replaced,
    and sc-button-selected removed from its class list; its text and its
    title are "Download". *)
Definition make_button (like : element_props) (trackUrl : string) : node :=
  Element
    {| tagName := "BUTTON";
       className :=
         serialize_tokens
           (classList_remove "sc-button-selected"
              (token_set (replace_first "sc-button-like" "sc-button-download"
                                        (className like))));
       href := "";
       title := "Download";
       onclick := Some trackUrl |}
    [TextNode "Download"].

Fixpoint update_nth {A} (i : nat) (f : A -> A) (l : list A) : list A :=
  match l, i with
  | [], _ => []
  | x :: rest, O => f x :: rest
  | x :: rest, S i' => x :: update_nth i' f rest
  end.

(** The document after [parent.appendChild(child)], for the element at
    the path [parent]. *)
Fixpoint appendChild (parent : list nat) (child : node) (n : node) : node :=
  match n with
  | TextNode _ => n
  | Element a cs =>
      match parent with
      | [] => Element a (cs ++ [child])
      | i :: parent' => Element a (update_nth i (appendChild parent' child) cs)
      end
  end.

Section Inject.
Context {B : Browser}.

(** The loop of [injectDownloadButton] over the action bars found, given
    by their paths in the document.  The result is what the function
    settles to and the document it leaves. *)
Fixpoint injectDownloadButton_loop (location_href : string)
         (actionDivs : list (list nat)) (root : node) : result unit * node :=
  match actionDivs with
  | [] => (Ok tt, root)
  | q :: rest =>
      match node_at root q with
      | Some actionDiv =>
          match querySelector "sc-button-download" actionDiv with
          | Some _ => injectDownloadButton_loop location_href rest root
          | None =>
              match querySelector "sc-button-like" actionDiv with
              | None => injectDownloadButton_loop location_href rest root
              | Some likePath =>
                  match node_at actionDiv likePath with
                  | Some (Element likeButton _) =>
                      let trackUrl :=
                        getTrackUrlForElement location_href (ancestry root q) in
                      match new_URL (VStr trackUrl) with
                      | Throw e => (Throw e, root)
                      | Ok u =>
                          if includes "/sets/" (URL_pathname u) then
                            injectDownloadButton_loop location_href rest root
                          else
                            let button := make_button likeButton trackUrl in
                            injectDownloadButton_loop location_href rest
                              (appendChild (q ++ removelast likePath) button root)
                      end
                  | _ => injectDownloadButton_loop location_href rest root
                  end
              end
          end
      | None => injectDownloadButton_loop location_href rest root
      end
  end.

(** [injectDownloadButton(elem)] for the node at the path [elem] of the
    document [root].  A node that is not an element is left alone. *)
Definition injectDownloadButton (location_href : string) (root : node)
           (elem : list nat) : result unit * node :=
  match node_at root elem with
  | Some (Element a cs) =>
      injectDownloadButton_loop location_href
        (map (app elem) (querySelectorAll "soundActions" (Element a cs))) root
  | _ => (Ok tt, root)
  end.

(** [init] of the content script, for the document [root] with its body
    at the path [body]: the client id is scraped and assigned, then the
    buttons are injected under the body.  The observer that [init]
    registers in between calls [injectDownloadButton] on the nodes added
    later; registering it is not part of this model. *)
Definition content_init (location_href : string) (body : list nat)
           (w : page) (root : node) : result unit * page * node :=
  match init_clientId w with
  | (Throw e, w') => (Throw e, w', root)
  | (Ok _, w') =>
      let (r, root') := injectDownloadButton location_href root body in
      (r, w', root')
  end.

End Inject.

(** ** A small browser to run the script on

    URLs are accepted when they start with https://; the query is
    appended without escaping.  Requests are answered from a table keyed
    by URL, and a URL that is not in the table is a network error. *)
Module Demo.

Definition url_record : Type := (string * list (string * string))%type.

Definition parse (s : string) : option url_record :=
  if String.prefix "https://" s then Some (s, []) else None.

Fixpoint query_string (sep : string) (q : list (string * string)) : string :=
  match q with
  | [] => ""
  | (k, v) :: rest => sep ++ k ++ "=" ++ v ++ query_string "&" rest
  end.

Definition toString (u : url_record) : string := fst u ++ query_string "?" (snd u).

(** The path starts at the first slash after the scheme. *)
Definition pathname (u : url_record) : string :=
  let rest := substring_from 8 (fst u) in
  match String.index 0 "/" rest with
  | Some i => substring_from (Z.of_nat i) rest
  | None => "/"
  end.

Fixpoint route (table : list (string * response)) (url : string)
  : result response :=
  match table with
  | [] => Throw (TypeError "NetworkError when attempting to fetch resource.")
  | (u, r) :: rest => if String.eqb u url then Ok r else route rest url
  end.

Definition browser (table : list (string * response)) (scripts : list string)
  : Browser :=
  {| URL := url_record;
     URL_parse := parse;
     searchParams_append := fun u k v => (fst u, (snd u ++ [(k, v)])%list);
     URL_toString := toString;
     URL_pathname := pathname;
     fetch_response := fun _ url _ => route table url;
     createObjectURL := fun _ b => "blob:" ++ b;
     script_srcs := scripts |}.

Definition json_response (st : Z) (v : value) : response :=
  {| status := st; json := Ok v; text := Ok ""; blob := Ok "" |}.

Definition text_response (st : Z) (t : string) : response :=
  {| status := st;
     json := Throw (Exn "SyntaxError" "JSON.parse: unexpected character");
     text := Ok t;
     blob := Ok t |}.

Definition page0 (enableHQ : bool) (cookie : string) : page :=
  {| clientId := VStr "L6pWQKWWm6oT4Nv0mTWEkxKypNpleA5m";
     document_cookie := cookie;
     storage_sync := [("enableHQ", VBool enableHQ)];
     trace := [] |}.

(** The track of the first example of the specification. *)
Definition departure_renditions : list value :=
  [VObj [("url", VStr "https://api-v2.soundcloud.com/media/42/hls");
         ("quality", VStr "hq");
         ("format", VObj [("protocol", VStr "hls")])];
   VObj [("url", VStr "https://api-v2.soundcloud.com/media/42/progressive");
         ("quality", VStr "sq");
         ("format", VObj [("protocol", VStr "progressive")])]].

Definition departure : value :=
  VObj [("id", VNum 42);
        ("title", VStr "Departure Remix");
        ("user", VObj [("username", VStr "choicescarf")]);
        ("downloadable", VBool false);
        ("media", VObj [("transcodings", VArr departure_renditions)])].

(** A track offered in both qualities as a direct file, and one that is
    only streamed. *)
Definition both_renditions : list value :=
  [VObj [("url", VStr "https://api-v2.soundcloud.com/media/7/hls");
         ("quality", VStr "sq");
         ("format", VObj [("protocol", VStr "hls")])];
   VObj [("url", VStr "https://api-v2.soundcloud.com/media/7/sq");
         ("quality", VStr "sq");
         ("format", VObj [("protocol", VStr "progressive")])];
   VObj [("url", VStr "https://api-v2.soundcloud.com/media/7/hq");
         ("quality", VStr "hq");
         ("format", VObj [("protocol", VStr "progressive")])]].

Definition both : value :=
  VObj [("id", VNum 7);
        ("title", VStr "DJ Snake - Night Drive");
        ("user", VObj [("username", VStr "djsnake")]);
        ("downloadable", VBool false);
        ("media", VObj [("transcodings", VArr both_renditions)])].

Definition streamed_renditions : list value :=
  [VObj [("url", VStr "https://api-v2.soundcloud.com/media/9/hls-hq");
         ("quality", VStr "hq");
         ("format", VObj [("protocol", VStr "hls")])];
   VObj [("url", VStr "https://api-v2.soundcloud.com/media/9/hls-sq");
         ("quality", VStr "sq");
         ("format", VObj [("protocol", VStr "hls")])]].

Definition streamed : value :=
  VObj [("id", VNum 9);
        ("title", VStr "Live Set");
        ("user", VObj [("username", VStr "someone")]);
        ("downloadable", VBool false);
        ("media", VObj [("transcodings", VArr streamed_renditions)])].

Definition departure_table : list (string * response) :=
  [("https://api-v2.soundcloud.com/resolve?client_id=L6pWQKWWm6oT4Nv0mTWEkxKypNpleA5m&url=https://soundcloud.com/choicescarf/departure-remix",
    json_response 200 departure);
   ("https://api-v2.soundcloud.com/media/42/progressive?client_id=L6pWQKWWm6oT4Nv0mTWEkxKypNpleA5m",
    json_response 200 (VObj [("url", VStr "https://cf-media.sndcdn.com/abc.128.mp3")]));
   ("https://cf-media.sndcdn.com/abc.128.mp3", text_response 200 "ID3")].

Definition departure_url : string :=
  "https://soundcloud.com/choicescarf/departure-remix".

Definition departure_resolve : string :=
  "https://api-v2.soundcloud.com/resolve?client_id=L6pWQKWWm6oT4Nv0mTWEkxKypNpleA5m&url=https://soundcloud.com/choicescarf/departure-remix".

Definition departure_metadata : string :=
  "https://api-v2.soundcloud.com/media/42/progressive?client_id=L6pWQKWWm6oT4Nv0mTWEkxKypNpleA5m".

Definition departure_file : string :=
  "https://cf-media.sndcdn.com/abc.128.mp3".

(** A track with a native download and no renditions at all, as in the
    second example of the specification. *)
Definition night_drive : value :=
  VObj [("id", VNum 5);
        ("title", VStr "DJ Snake - Night Drive");
        ("downloadable", VBool true);
        ("has_downloads_left", VBool true)].

Definition night_drive_url : string :=
  "https://soundcloud.com/djsnake/night-drive".

Definition night_drive_resolve : string :=
  "https://api-v2.soundcloud.com/resolve?client_id=L6pWQKWWm6oT4Nv0mTWEkxKypNpleA5m&url=https://soundcloud.com/djsnake/night-drive".

Definition night_drive_download : string :=
  "https://api-v2.soundcloud.com/tracks/5/download?client_id=L6pWQKWWm6oT4Nv0mTWEkxKypNpleA5m".

Definition night_drive_table : list (string * response) :=
  [(night_drive_resolve, json_response 200 night_drive);
   (night_drive_download,
    json_response 200
      (VObj [("redirectUri", VStr "https://cf-media.sndcdn.com/orig.wav")]))].

(** The resolve call answered with 404. *)
Definition missing_response : response := json_response 404 (VObj []).

Definition missing_table : list (string * response) :=
  [(departure_resolve, missing_response)].

(** Script elements: an inline script, a bundle without a client id, a
    bundle that cannot be fetched, and two bundles with a client id. *)
Definition script_plain : string := "https://a-v2.sndcdn.com/assets/0-aaa.js".
Definition script_dead : string := "https://a-v2.sndcdn.com/assets/dead.js".
Definition script_app : string := "https://a-v2.sndcdn.com/assets/49-bbb.js".
Definition script_late : string := "https://a-v2.sndcdn.com/assets/50-ccc.js".

Definition script_table : list (string * response) :=
  [(script_plain, text_response 200 "var x=1;client_id:'tooshort'");
   (script_app,
    text_response 200
      "e.exports={client_id:'L6pWQKWWm6oT4Nv0mTWEkxKypNpleA5m',client_id:'0000000000000000000000000000000a'}");
   (script_late,
    text_response 200 "client_id:'ZZZZZZZZZZZZZZZZZZZZZZZZZZZZZZZZ'")].

Definition scripts_found : list string :=
  [""; script_plain; script_dead; script_app; script_late].

Definition scripts_none : list string := [""; script_plain; script_dead].

(** A page with one track in the stream: a title link and an action bar
    with a like button. *)
Definition el (tag cls : string) (children : list node) : node :=
  Element {| tagName := tag; className := cls; href := "";
             title := ""; onclick := None |} children.

Definition like_props : element_props :=
  {| tagName := "BUTTON";
     className := "sc-button-like sc-button  sc-button-small sc-button-selected";
     href := ""; title := "Like"; onclick := None |}.

Definition title_link : node :=
  Element {| tagName := "A"; className := "soundTitle__title sc-link-dark";
             href := departure_url; title := ""; onclick := None |}
          [TextNode "Departure Remix"].

Definition stream_item (buttons : list node) : node :=
  el "LI" "soundList__item"
     [title_link;
      el "DIV" "soundActions sc-button-toolbar"
         [el "DIV" "sc-button-group" buttons]].

Definition stream_page (buttons : list node) : node :=
  el "HTML" "" [el "HEAD" "" []; el "BODY" "" [stream_item buttons]].

Definition stream_href : string := "https://soundcloud.com/stream".

(** A track whose only direct file has a quality that is neither high
    nor standard, and a track list with an entry that has no format. *)
Definition odd_renditions : list value :=
  [VObj [("url", VStr "https://api-v2.soundcloud.com/media/11/preview");
         ("quality", VStr "lq");
         ("format", VObj [("protocol", VStr "progressive")])];
   VObj [("url", VStr "https://api-v2.soundcloud.com/media/11/hls");
         ("quality", VStr "sq");
         ("format", VObj [("protocol", VStr "hls")])]].

Definition odd : value :=
  VObj [("id", VNum 11);
        ("title", VStr "Preview");
        ("media", VObj [("transcodings", VArr odd_renditions)])].

Definition hls_rendition : value :=
  VObj [("url", VStr "https://api-v2.soundcloud.com/media/12/hls");
        ("quality", VStr "sq");
        ("format", VObj [("protocol", VStr "hls")])].

Definition sq_rendition : value :=
  VObj [("url", VStr "https://api-v2.soundcloud.com/media/12/sq");
        ("quality", VStr "sq");
        ("format", VObj [("protocol", VStr "progressive")])].

Definition broken (x : value) : value :=
  VObj [("media", VObj [("transcodings",
                         VArr [hls_rendition; x; sq_rendition])])].

(** The final URL answered with 403. *)
Definition forbidden_table : list (string * response) :=
  [(departure_resolve, json_response 200 departure);
   (departure_metadata,
    json_response 200 (VObj [("url", VStr departure_file)]));
   (departure_file, text_response 403 "Forbidden")].

(** The download endpoint answering with an empty object. *)
Definition empty_download_table : list (string * response) :=
  [(night_drive_download, json_response 200 (VObj []))].

(** A script whose body cannot be read. *)
Definition unreadable : response :=
  {| status := 200;
     json := Throw (Exn "TypeError" "body stream error");
     text := Throw (Exn "TypeError" "body stream error");
     blob := Throw (Exn "TypeError" "body stream error") |}.

Definition script_broken : string := "https://a-v2.sndcdn.com/assets/1-bad.js".

Definition broken_script_table : list (string * response) :=
  [(script_plain, text_response 200 "var x=1;");
   (script_broken, unreadable);
   (script_app,
    text_response 200 "client_id:'L6pWQKWWm6oT4Nv0mTWEkxKypNpleA5m'")].

Definition scripts_broken : list string :=
  [""; script_plain; script_broken; script_app].

Definition download_button : node :=
  Element {| tagName := "BUTTON";
             className := "sc-button-download sc-button sc-button-small";
             href := ""; title := "Download";
             onclick := Some departure_url |}
          [TextNode "Download"].

Definition like_button : node := Element like_props [TextNode "Like"].

End Demo.

(** ** Vocabulary of the specification *)

(** The errors of the specification's taxonomy are plain [Error]s in the
    script, told apart by their messages. *)
Definition CredentialNotFound : exn :=
  Error "Could not get client_id value from current page".

Definition NoEligibleRendition : exn :=
  Error "Failed to find a valid transcoding".

Definition ResolutionFailed (url : string) (resp : response) : exn :=
  Error ("Request to " ++ url ++ " failed with result " ++ status_string resp).

(** [s] contains [sub]. *)
Definition contains (sub s : string) : Prop :=
  exists a b, s = a ++ sub ++ b.

(** The transport protocol and the quality tier of a rendition. *)
Definition protocol_of (t : value) : result value :=
  rbind (get_prop t "format") (fun format => get_prop format "protocol").

Definition quality_of (t : value) : result value := get_prop t "quality".

(** A rendition is a value whose format can be asked for its protocol. *)
Definition is_rendition (t : value) : Prop :=
  exists p, protocol_of t = Ok p.

Definition direct_file (t : value) : Prop :=
  protocol_of t = Ok (VStr "progressive").

Definition has_quality (quality : string) (t : value) : Prop :=
  quality_of t = Ok (VStr quality).

(** [trackObj] is a track whose renditions are the list [ts]. *)
Definition track_renditions (trackObj : value) (ts : list value) : Prop :=
  exists media,
    get_prop trackObj "media" = Ok media /\
    get_prop media "transcodings" = Ok (VArr ts) /\
    Forall is_rendition ts.

(** The extension the file name gets from the path of the final URL. *)
Definition extension (path : string) : string :=
  substring_from (lastIndexOf "." path + 1) path.

(** The headers [fetchAuthorizedJson] builds for a token. *)
Definition auth_headers (authToken : value) : result headers :=
  if negb (is_null authToken) then
    rbind (to_string authToken) (fun tok =>
    Ok [("Authorization", "OAuth " ++ tok)])
  else Ok [].

(** The request [fetchAuthorizedJson] sends from page [w]: its URL with
    the query appended, and its headers. *)
Definition api_request {B : Browser} (url authToken : value)
           (args : option object) (w : page) : result (string * headers) :=
  rbind (auth_headers authToken) (fun h =>
  rbind (withQuery url (spread [("client_id", clientId w)] args)) (fun u =>
  Ok (u, h))).

(** What [fetchJson] makes of the outcome of its request to [url]. *)
Definition settle (url : string) (outcome : result response) : result value :=
  match outcome with
  | Throw e => Throw e
  | Ok resp => if ok resp then json resp else Throw (ResolutionFailed url resp)
  end.

(** The token [downloadTrack] works with on page [w]: the oauth_token
    cookie when the enableHQ preference is set, [null] otherwise. *)
Definition enableHQ_setting (w : page) : value :=
  match lookup "enableHQ" (storage_sync w) with
  | Some v => v
  | None => VUndefined
  end.

Definition cookie_token (w : page) : value :=
  match cookie_match "oauth_token" (document_cookie w) with
  | Some g => VStr g
  | None => VNull
  end.

Definition session_token (w : page) : value :=
  if truthy (enableHQ_setting w) then cookie_token w else VNull.

(** The arguments of the resolve call. *)
Definition resolve_endpoint : value :=
  VStr "https://api-v2.soundcloud.com/resolve".

Definition resolve_args (trackUrl : string) : option object :=
  Some [("url", VStr trackUrl)].

(** [w] with the cookie string replaced. *)
Definition with_cookie (c : string) (w : page) : page :=
  {| clientId := clientId w;
     document_cookie := c;
     storage_sync := storage_sync w;
     trace := trace w |}.

(** [w] after the events [evs]. *)
Definition after (evs : list event) (w : page) : page :=
  {| clientId := clientId w;
     document_cookie := document_cookie w;
     storage_sync := storage_sync w;
     trace := trace w ++ evs |}.

Definition is_fetch (e : event) : bool :=
  match e with
  | EFetch _ _ => true
  | EDownload _ _ => false
  end.

(** The number of calls of [fetch] among [evs], and the number of those
    that fetch [url] without an init object. *)
Definition fetch_count (evs : list event) : nat :=
  List.length (filter is_fetch evs).

Definition is_plain_fetch_of (url : string) (e : event) : bool :=
  match e with
  | EFetch u None => String.eqb u url
  | _ => false
  end.

Definition plain_fetch_count (url : string) (evs : list event) : nat :=
  List.length (filter (is_plain_fetch_of url) evs).

(** The test one turn of the loop of [pickTranscoding] makes. *)
Definition picks (quality : string) (t : value) : bool :=
  match protocol_of t with
  | Ok p =>
      strict_eq_str p "progressive" &&
      match quality_of t with
      | Ok q => strict_eq_str q quality
      | Throw _ => false
      end
  | Throw _ => false
  end.

(** [emits Q m]: from every page, [m] only adds events to the trace and
    leaves the rest of the page alone, and every call of [fetch] it adds
    has an init object satisfying [Q]. *)
Definition emits_at {A} (Q : option headers -> Prop) (m : M A) (w : page) : Prop :=
  exists evs,
    snd (m w) = after evs w /\
    forall url init, In (EFetch url init) evs -> Q init.

Definition emits {A} (Q : option headers -> Prop) (m : M A) : Prop :=
  forall w, emits_at Q m w.

(** [cookie_blind m]: what [m] does is the same whatever the cookie
    string is. *)
Definition cookie_blind {A} (m : M A) : Prop :=
  forall c w, m (with_cookie c w) = (fst (m w), with_cookie c (snd (m w))).

(** A property of the track object is set when it reads as a truthy
    value. *)
Definition flag_set (trackObj : value) (flag : string) : Prop :=
  exists v, get_prop trackObj flag = Ok v /\ truthy v = true.

(** The run of [downloadTrackTranscoding] from page [w] has got as far as
    its call [fetch(url)]: a rendition was selected, the request for its
    metadata was answered, leaving page [w1], with a document whose url
    converts to [finalUrl] and parses, and the file name [filename] was
    built. *)
Definition reaches_fetch {B : Browser} (trackObj authToken : value)
           (w w1 : page) (finalUrl filename : string) : Prop :=
  exists t turl urlResp url name n u,
    selectTranscoding trackObj = Ok t /\
    is_null t = false /\
    get_prop t "url" = Ok turl /\
    fetchAuthorizedJson turl authToken (Some []) w = (Ok urlResp, w1) /\
    get_prop urlResp "url" = Ok url /\
    to_string url = Ok finalUrl /\
    getTrackName trackObj = Ok name /\
    URL_parse finalUrl = Some u /\
    to_string name = Ok n /\
    filename = n ++ "." ++ extension (URL_pathname u).

(** Every character of [s] satisfies [p]. *)
Fixpoint string_forall (p : ascii -> bool) (s : string) : bool :=
  match s with
  | "" => true
  | String c rest => p c && string_forall p rest
  end.

(** [s] starts with an assignment of the 32-character alphanumeric token
    [id] to client_id, between quotes. *)
Definition client_id_pattern (s id : string) : Prop :=
  exists q1 q2 rest,
    s = "client_id:" ++ String q1 (id ++ String q2 rest) /\
    is_quote q1 = true /\ is_quote q2 = true /\
    String.length id = 32 /\ string_forall is_alnum id = true.

(** [id] is the token of the leftmost such assignment in [text]; and
    [text] holds no such assignment. *)
Definition first_client_id (text id : string) : Prop :=
  exists pre rest,
    text = pre ++ rest /\
    client_id_pattern rest id /\
    forall pre' rest' id',
      text = pre' ++ rest' -> String.length pre' < String.length pre ->
      ~ client_id_pattern rest' id'.

Definition no_client_id (text : string) : Prop :=
  forall pre rest id, text = pre ++ rest -> ~ client_id_pattern rest id.

(** A script element is external when it has a [src]; the requests made
    for the external scripts among [srcs], in order. *)
Definition external (src : string) : bool := negb (String.eqb src "").

Definition script_requests (srcs : list string) : list event :=
  map (fun src => EFetch src None) (filter external srcs).

(** What a script element yields when its turn comes after the events
    [tr]: nothing, when it is not external, cannot be fetched or has a
    text without a client id; or the first client id of its text. *)
Definition yields_nothing {B : Browser} (tr : list event) (src : string) : Prop :=
  src = "" \/
  (exists e, fetch_response tr src None = Throw e) \/
  (exists resp t,
     fetch_response tr src None = Ok resp /\ text resp = Ok t /\
     no_client_id t).

Definition yields {B : Browser} (tr : list event) (src id : string) : Prop :=
  src <> "" /\
  exists resp t,
    fetch_response tr src None = Ok resp /\ text resp = Ok t /\
    first_client_id t id.

Fixpoint all_yield_nothing {B : Browser} (tr : list event) (srcs : list string)
  : Prop :=
  match srcs with
  | [] => True
  | src :: rest =>
      yields_nothing tr src /\
      all_yield_nothing (tr ++ script_requests [src]) rest
  end.

(** [g] is the value of the cookie [key] in the cookie string [s]: the
    key comes first or after a semicolon, blanks aside, and the value is
    the non-empty run of characters up to the next semicolon. *)
Definition cookie_value (key s g : string) : Prop :=
  exists pre sp rest,
    s = pre ++ sp ++ (key ++ "=") ++ g ++ rest /\
    (pre = "" \/ exists p, pre = p ++ ";") /\
    string_forall is_space sp = true /\
    g <> "" /\
    string_forall (fun c => negb (is_semicolon c)) g = true /\
    (rest = "" \/ exists r, rest = String ";" r).

Definition not_dot (c : ascii) : bool := negb (Ascii.eqb c ".").

Definition not_semicolon (c : ascii) : bool := negb (is_semicolon c).

(** The cookie string cut at its semicolons. *)
Fixpoint split_semicolon (s : string) : list string :=
  match s with
  | "" => [""]
  | String c rest =>
      if is_semicolon c then "" :: split_semicolon rest
      else match split_semicolon rest with
           | e :: es => String c e :: es
           | [] => [String c ""]
           end
  end.

Fixpoint drop_blanks (s : string) : string :=
  match s with
  | String c rest => if is_space c then drop_blanks rest else s
  | "" => ""
  end.

(** The value of an entry of the cookie string when, blanks in front
    aside, it reads [key=value] with a value that is not empty. *)
Definition entry_value (key e : string) : option string :=
  match strip_prefix (key ++ "=") (drop_blanks e) with
  | Some v => if String.eqb v "" then None else Some v
  | None => None
  end.

Fixpoint first_some {A C} (f : A -> option C) (l : list A) : option C :=
  match l with
  | [] => None
  | x :: rest =>
      match f x with
      | Some y => Some y
      | None => first_some f rest
      end
  end.

(** The value of the first cookie named [key] that has a value. *)
Definition cookie_named (key s : string) : option string :=
  first_some (entry_value key) (split_semicolon s).

(** The classes [getTrackUrlForElement] looks for. *)
Definition container_classes : list string :=
  ["soundList__item"; "trackList__item"; "soundBadgeList__item";
   "historicalPlays__item"].

Definition title_classes : list string :=
  ["soundTitle__title"; "trackItem__trackTitle"].

(** An action bar that [injectDownloadButton] passes over: it has a
    download button already, or it has no like button, or its track URL
    has a path with "/sets/". *)
Definition passed_over {B : Browser} (location_href : string) (root : node)
           (q : list nat) : Prop :=
  exists actionDiv,
    node_at root q = Some actionDiv /\
    (querySelector "sc-button-download" actionDiv <> None \/
     querySelector "sc-button-like" actionDiv = None \/
     exists u,
       URL_parse (getTrackUrlForElement location_href (ancestry root q)) = Some u /\
       includes "/sets/" (URL_pathname u) = true).

(** Two nodes are the same node, children aside. *)
Definition same_node (n n' : node) : Prop :=
  match n, n' with
  | TextNode d, TextNode d' => d = d'
  | Element a _, Element a' _ => a = a'
  | _, _ => False
  end.

(** Every node of [root] is at its place in [root']. *)
Definition keeps_nodes (root root' : node) : Prop :=
  forall p n,
    node_at root p = Some n ->
    exists n', node_at root' p = Some n' /\ same_node n n'.

(** A class token: not empty and without whitespace. *)
Definition not_whitespace (c : ascii) : bool := negb (is_ascii_whitespace c).

Definition token_ok (t : string) : Prop :=
  t <> "" /\ string_forall not_whitespace t = true.

(** The string is empty or starts with whitespace. *)
Definition token_end (s : string) : Prop :=
  s = "" \/ exists w r, s = String w r /\ is_ascii_whitespace w = true.

(** Induction on a node with the children as induction hypotheses. *)
Fixpoint node_ind' (P : node -> Prop)
         (Htext : forall d, P (TextNode d))
         (Helem : forall a cs, Forall P cs -> P (Element a cs))
         (n : node) {struct n} : P n :=
  match n with
  | TextNode d => Htext d
  | Element a cs =>
      Helem a cs
        ((fix go (cs : list node) : Forall P cs :=
            match cs with
            | [] => Forall_nil P
            | c :: rest => Forall_cons c (node_ind' P Htext Helem c) (go rest)
            end) cs)
  end.

(** [w] with the cookie string and the preferences replaced: the places
    the session token and the choice to send it are read from. *)
Definition with_secrets (c : string) (st : object) (w : page) : page :=
  {| clientId := clientId w;
     document_cookie := c;
     storage_sync := st;
     trace := trace w |}.

(** [secret_blind m]: what [m] returns and adds to the trace is the same
    whatever the cookie string and the preferences are. *)
Definition secret_blind {A} (m : M A) : Prop :=
  forall c st w,
    m (with_secrets c st w) = (fst (m w), with_secrets c st (snd (m w))).

(** The syntax characters of a regular expression; a key without any of
    them stands for itself in the pattern [getCookie] builds. *)
Definition is_syntax_character (c : ascii) : bool :=
  existsb (Ascii.eqb c)
          (list_ascii_of_string "\^$.*+?()[]{}|").

Definition literal_key (key : string) : Prop :=
  string_forall (fun c => negb (is_syntax_character c)) key = true.

(** * Properties *)

(** ** Runs on concrete inputs *)

Example includes_ex1 : includes " - " "DJ Snake - Night Drive" = true.
Proof. reflexivity. Qed.

Example includes_ex2 : includes " - " "Departure Remix" = false.
Proof. reflexivity. Qed.

Example extension_ex :
  let path := "/media/a.b/file.128.mp3" in
  substring_from (lastIndexOf "." path + 1) path = "mp3".
Proof. reflexivity. Qed.

Example extension_nodot :
  let path := "/media/file" in
  substring_from (lastIndexOf "." path + 1) path = "/media/file".
Proof. reflexivity. Qed.

Example to_string_arr :
  to_string (VArr [VNum 1; VNull; VStr "a"; VArr [VBool true; VNum (-2)]])
  = Ok "1,,a,true,-2".
Proof. reflexivity. Qed.

Example cookie_match_ex1 :
  cookie_match "oauth_token" "sc_anon=1; oauth_token=2-29-abc;  x=y"
  = Some "2-29-abc".
Proof. reflexivity. Qed.

Example cookie_match_ex2 :
  cookie_match "oauth_token" "oauth_token=tok" = Some "tok".
Proof. reflexivity. Qed.

Example cookie_match_ex3 :
  cookie_match "oauth_token" "my_oauth_token=no; a=b" = None.
Proof. reflexivity. Qed.

Example cookie_match_ex4 :
  cookie_match "oauth_token" "a=b;oauth_token=;c=d" = None.
Proof. reflexivity. Qed.

Example client_id_match_ex1 :
  client_id_match
    ("x={client_id:" ++ String dquote "L6pWQKWWm6oT4Nv0mTWEkxKypNpleA5m"
     ++ String dquote ",env:1}")
  = Some "L6pWQKWWm6oT4Nv0mTWEkxKypNpleA5m".
Proof. reflexivity. Qed.

Example client_id_match_ex3 :
  client_id_match "a;client_id:'0123456789abcdefghijABCDEFGHIJxy'"
  = Some "0123456789abcdefghijABCDEFGHIJxy".
Proof. reflexivity. Qed.

Example client_id_match_ex2 :
  client_id_match "client_id:'short',client_id:'L6pWQKWWm6oT4Nv0mTWEkxKypNpleA5mX'"
  = None.
Proof. reflexivity. Qed.

Example departure_run :
  downloadTrack (B := Demo.browser Demo.departure_table [])
    "https://soundcloud.com/choicescarf/departure-remix" (Demo.page0 false "oauth_token=t")
  = (Ok tt,
     {| clientId := VStr "L6pWQKWWm6oT4Nv0mTWEkxKypNpleA5m";
        document_cookie := "oauth_token=t";
        storage_sync := [("enableHQ", VBool false)];
        trace :=
          [EFetch "https://api-v2.soundcloud.com/resolve?client_id=L6pWQKWWm6oT4Nv0mTWEkxKypNpleA5m&url=https://soundcloud.com/choicescarf/departure-remix" (Some []);
           EFetch "https://api-v2.soundcloud.com/media/42/progressive?client_id=L6pWQKWWm6oT4Nv0mTWEkxKypNpleA5m" (Some []);
           EFetch "https://cf-media.sndcdn.com/abc.128.mp3" None;
           EDownload "blob:ID3" "choicescarf - Departure Remix.mp3"] |}).
Proof. vm_compute. reflexivity. Qed.

(** ** Strings *)

Lemma prefix_app (p s : string) :
  String.prefix p s = true <-> exists r, s = p ++ r.
Proof.
  revert s; induction p as [|a p IH]; intros s.
  - split; [intros _; now exists s | now destruct s].
  - destruct s as [|b s]; simpl.
    + split; [discriminate | intros [r Hr]; discriminate].
    + destruct (ascii_dec a b) as [->|Hab].
      * split.
        -- intros H. apply IH in H as [r Hr]. exists r. congruence.
        -- intros [r Hr]. apply IH. exists r. congruence.
      * split; [discriminate | intros [r Hr]; congruence].
Qed.

Lemma includes_unfold (sub s : string) :
  includes sub s =
  if String.prefix sub s then true
  else match s with
       | "" => false
       | String _ rest => includes sub rest
       end.
Proof. destruct s; reflexivity. Qed.

Lemma includes_contains (sub s : string) :
  includes sub s = true <-> contains sub s.
Proof.
  unfold contains; split.
  - induction s as [|c s IH]; rewrite includes_unfold;
      destruct (String.prefix sub _) eqn:Hp.
    + intros _. apply prefix_app in Hp as [r Hr]. now exists "", r.
    + discriminate.
    + intros _. apply prefix_app in Hp as [r Hr]. now exists "", r.
    + intros H. destruct (IH H) as (a & b & ->). now exists (String c a), b.
  - intros (a & b & ->). induction a as [|c a IH]; rewrite includes_unfold.
    + simpl. replace (String.prefix sub (sub ++ b)) with true; [reflexivity|].
      symmetry. apply prefix_app. now exists b.
    + destruct (String.prefix sub _); [reflexivity | exact IH].
Qed.

Lemma includes_false (sub s : string) :
  includes sub s = false <-> ~ contains sub s.
Proof.
  rewrite <- includes_contains. destruct (includes sub s); split; congruence.
Qed.

(** ** Renditions *)

Lemma strict_eq_str_true (v : value) (s : string) :
  strict_eq_str v s = true <-> v = VStr s.
Proof.
  destruct v; simpl; try (split; [discriminate | intros H; discriminate H]).
  rewrite String.eqb_eq. split; congruence.
Qed.

Lemma get_prop_defined (o : value) (k k' : string) (v : value) :
  get_prop o k = Ok v -> exists v', get_prop o k' = Ok v'.
Proof.
  destruct o; simpl; try discriminate; intros _; eauto.
  destruct (lookup k' props); eauto.
Qed.

Lemma get_prop_string_is_object (o : value) (k s : string) :
  get_prop o k = Ok (VStr s) -> exists props, o = VObj props.
Proof. destruct o; simpl; try discriminate; eauto. Qed.

Lemma get_prop_object_is_object (o : value) (k : string) (props : object) :
  get_prop o k = Ok (VObj props) -> exists props', o = VObj props'.
Proof. destruct o; simpl; try discriminate; eauto. Qed.

(** A direct-file rendition is an object, so it is truthy and not null. *)
Lemma direct_file_object (t : value) :
  direct_file t -> exists props, t = VObj props.
Proof.
  unfold direct_file, protocol_of. intros H.
  destruct (get_prop t "format") as [f|] eqn:Hf; simpl in H; [|discriminate].
  apply get_prop_string_is_object in H as [fp ->].
  now apply get_prop_object_is_object in Hf.
Qed.

Lemma picks_true (quality : string) (t : value) :
  picks quality t = true <-> direct_file t /\ has_quality quality t.
Proof.
  unfold picks, direct_file, has_quality.
  destruct (protocol_of t) as [p|]; [|split; [discriminate|intros [H _]; discriminate]].
  rewrite andb_true_iff, strict_eq_str_true.
  destruct (quality_of t) as [q|].
  - rewrite strict_eq_str_true. split; intros [H1 H2]; split; congruence.
  - split; intros [H1 H2]; discriminate.
Qed.

Lemma pickTranscoding_loop_cons (t : value) (rest : list value) (quality : string) :
  is_rendition t ->
  pickTranscoding_loop (t :: rest) quality =
  if picks quality t then Ok t else pickTranscoding_loop rest quality.
Proof.
  intros [p Hp]. unfold picks, quality_of. rewrite Hp.
  unfold protocol_of in Hp. simpl.
  destruct (get_prop t "format") as [f|] eqn:Hf; simpl in *; [|discriminate].
  rewrite Hp. simpl.
  destruct (get_prop_defined _ _ "quality" _ Hf) as [q ->]. simpl.
  destruct (strict_eq_str p "progressive"); reflexivity.
Qed.

Lemma pickTranscoding_loop_none (ts : list value) (quality : string) :
  Forall is_rendition ts ->
  Forall (fun t => picks quality t = false) ts ->
  pickTranscoding_loop ts quality = Ok VNull.
Proof.
  induction 1 as [|t ts Ht _ IH]; intros Hn; [reflexivity|].
  inversion Hn; subst.
  rewrite pickTranscoding_loop_cons by assumption.
  replace (picks quality t) with false by congruence. auto.
Qed.

Lemma pickTranscoding_loop_first (pre post : list value) (t : value)
      (quality : string) :
  Forall is_rendition pre ->
  Forall (fun x => picks quality x = false) pre ->
  picks quality t = true ->
  pickTranscoding_loop (pre ++ t :: post) quality = Ok t.
Proof.
  intros Hr Hn Ht. induction Hr as [|x pre Hx _ IH]; simpl app.
  - assert (is_rendition t) as Hrt.
    { apply picks_true in Ht as [Hd _]. now exists (VStr "progressive"). }
    rewrite pickTranscoding_loop_cons by assumption. now rewrite Ht.
  - inversion Hn; subst.
    rewrite pickTranscoding_loop_cons by assumption.
    replace (picks quality x) with false by congruence. auto.
Qed.

(** A list either has a first element that the loop picks or has none. *)
Lemma first_pick (quality : string) (ts : list value) :
  Forall (fun t => picks quality t = false) ts \/
  exists pre t post,
    ts = (pre ++ t :: post)%list /\
    Forall (fun x => picks quality x = false) pre /\
    picks quality t = true.
Proof.
  induction ts as [|x ts IH]; [left; constructor|].
  destruct (picks quality x) eqn:Hx.
  - right. exists [], x, ts. repeat split; auto.
  - destruct IH as [IH|(pre & t & post & -> & Hpre & Ht)].
    + left. now constructor.
    + right. exists (x :: pre), t, post. repeat split; auto.
Qed.

Lemma Forall_app_l {A} (P : A -> Prop) (l1 l2 : list A) :
  Forall P (l1 ++ l2) -> Forall P l1.
Proof. intros H. apply Forall_app in H. tauto. Qed.

Lemma pickTranscoding_renditions (trackObj : value) (ts : list value)
      (quality : string) :
  track_renditions trackObj ts ->
  pickTranscoding trackObj quality = pickTranscoding_loop ts quality.
Proof.
  intros (media & Hm & Ht & _). unfold pickTranscoding.
  rewrite Hm. simpl. rewrite Ht. reflexivity.
Qed.

(** What [pickTranscoding] returns on a track with renditions [ts]: the
    first rendition the loop picks, or [null] when it picks none. *)
Lemma pickTranscoding_cases (trackObj : value) (ts : list value)
      (quality : string) :
  track_renditions trackObj ts ->
  (Forall (fun t => picks quality t = false) ts /\
   pickTranscoding trackObj quality = Ok VNull) \/
  (exists pre t post,
     ts = (pre ++ t :: post)%list /\
     Forall (fun x => picks quality x = false) pre /\
     picks quality t = true /\
     pickTranscoding trackObj quality = Ok t).
Proof.
  intros H. rewrite (pickTranscoding_renditions _ _ _ H).
  destruct H as (_ & _ & _ & Hr).
  destruct (first_pick quality ts) as [Hn|(pre & t & post & -> & Hpre & Ht)].
  - left. split; [assumption|]. now apply pickTranscoding_loop_none.
  - right. exists pre, t, post. repeat split; auto.
    apply pickTranscoding_loop_first; auto. eapply Forall_app_l; eauto.
Qed.

Lemma picks_false (quality : string) (t : value) :
  picks quality t = false <-> ~ (direct_file t /\ has_quality quality t).
Proof.
  rewrite <- picks_true. destruct (picks quality t); split; congruence.
Qed.

Lemma Forall_picks_false (quality : string) (ts : list value) :
  Forall (fun t => picks quality t = false) ts <->
  Forall (fun t => ~ (direct_file t /\ has_quality quality t)) ts.
Proof.
  split; intros H; eapply Forall_impl; try exact H; intros t; apply picks_false.
Qed.

(** On any value at all, a rendition returned by [pickTranscoding] is a
    direct file of the requested quality. *)
Lemma pickTranscoding_loop_sound (ts : list value) (quality : string) (r : value) :
  pickTranscoding_loop ts quality = Ok r ->
  r = VNull \/ (In r ts /\ direct_file r /\ has_quality quality r).
Proof.
  induction ts as [|t ts IH]; simpl.
  - intros H. left. congruence.
  - destruct (get_prop t "format") as [f|] eqn:Hf; simpl; [|discriminate].
    destruct (get_prop f "protocol") as [p|] eqn:Hp; simpl; [|discriminate].
    destruct (strict_eq_str p "progressive") eqn:Hprog; simpl.
    + destruct (get_prop t "quality") as [q|] eqn:Hq; simpl; [|discriminate].
      destruct (strict_eq_str q quality) eqn:Hqq.
      * intros H. injection H as <-. right. split; [now left|].
        apply strict_eq_str_true in Hprog, Hqq. subst.
        unfold direct_file, has_quality, protocol_of, quality_of.
        rewrite Hf. simpl. auto.
      * intros H. destruct (IH H) as [->|(Hin & Hd)]; [now left|].
        right. split; [now right | assumption].
    + intros H. destruct (IH H) as [->|(Hin & Hd)]; [now left|].
      right. split; [now right | assumption].
Qed.

Lemma pickTranscoding_sound (trackObj : value) (quality : string) (r : value) :
  pickTranscoding trackObj quality = Ok r ->
  r = VNull \/ (direct_file r /\ has_quality quality r).
Proof.
  unfold pickTranscoding.
  destruct (get_prop trackObj "media") as [m|]; simpl; [|discriminate].
  destruct (get_prop m "transcodings") as [ts|]; simpl; [|discriminate].
  destruct (iterate ts) as [l|]; simpl; [|discriminate].
  intros H. apply pickTranscoding_loop_sound in H. tauto.
Qed.

(** C5. On a track with renditions [ts], [pickTranscoding] returns, for
    every requested quality, either [null] or one of the renditions whose
    protocol is "progressive" and whose quality is the requested one; so
    does the selection made for the download, which therefore never picks
    a segmented-streaming rendition. *)
Theorem pickTranscoding_direct_file_only
        (trackObj : value) (ts : list value) (quality : string) :
  track_renditions trackObj ts ->
  (exists r,
     pickTranscoding trackObj quality = Ok r /\
     (r = VNull \/
      (In r ts /\ direct_file r /\ has_quality quality r))) /\
  (exists s,
     selectTranscoding trackObj = Ok s /\
     (s = VNull \/ (In s ts /\ direct_file s))).
Proof.
  intros H.
  assert (forall q, exists r,
             pickTranscoding trackObj q = Ok r /\
             (r = VNull \/ (In r ts /\ direct_file r /\ has_quality q r)))
    as Hpick.
  { intros q.
    destruct (pickTranscoding_cases trackObj ts q H)
      as [[_ ->]|(pre & t & post & -> & _ & Ht & ->)].
    - exists VNull. auto.
    - exists t. split; [reflexivity|]. right.
      apply picks_true in Ht. split; [|assumption].
      apply in_or_app. right. now left. }
  split; [apply Hpick|].
  unfold selectTranscoding.
  destruct (Hpick "hq") as (hq & -> & [->|(Hin & Hd & _)]); simpl.
  - destruct (Hpick "sq") as (sq & -> & [->|(Hin & Hd & _)]);
      eexists; split; eauto.
  - destruct (direct_file_object _ Hd) as [props ->]. simpl.
    eexists; split; eauto.
Qed.

(** C4. On a track whose renditions include a high-quality direct file
    (in particular when a standard-quality direct file is there as well),
    the selection returns a high-quality direct file: the first one in
    the list.  The selection is a function of the track object alone. *)
Theorem selectTranscoding_prefers_hq (trackObj : value) (ts : list value) :
  track_renditions trackObj ts ->
  (exists h, In h ts /\ direct_file h /\ has_quality "hq" h) ->
  exists pre t post,
    ts = (pre ++ t :: post)%list /\
    Forall (fun x => ~ (direct_file x /\ has_quality "hq" x)) pre /\
    direct_file t /\ has_quality "hq" t /\
    selectTranscoding trackObj = Ok t.
Proof.
  intros H (h & Hin & Hd & Hq).
  destruct (pickTranscoding_cases trackObj ts "hq" H)
    as [[Hnone _]|(pre & t & post & -> & Hpre & Ht & Hpick)].
  - exfalso. rewrite Forall_forall in Hnone. specialize (Hnone h Hin).
    apply picks_false in Hnone. tauto.
  - exists pre, t, post. apply picks_true in Ht as [Htd Htq].
    repeat split; auto.
    + now apply Forall_picks_false.
    + unfold selectTranscoding. rewrite Hpick. simpl.
      destruct (direct_file_object _ Htd) as [props ->]. reflexivity.
Qed.

(** C2. On a track whose renditions include no direct file, however many
    streamed ones there are, [downloadTrackTranscoding] throws the error
    "Failed to find a valid transcoding" and does nothing else. *)
Theorem downloadTrackTranscoding_no_direct_file
        {B : Browser} (trackObj authToken : value) (ts : list value) (w : page) :
  track_renditions trackObj ts ->
  Forall (fun t => ~ direct_file t) ts ->
  downloadTrackTranscoding trackObj authToken w = (Throw NoEligibleRendition, w).
Proof.
  intros H Hnone.
  assert (forall q, pickTranscoding trackObj q = Ok VNull) as Hpick.
  { intros q. rewrite (pickTranscoding_renditions _ _ _ H).
    destruct H as (_ & _ & _ & Hr).
    apply pickTranscoding_loop_none; [assumption|].
    apply Forall_picks_false. eapply Forall_impl; [|exact Hnone].
    intros t Ht [Hd _]. auto. }
  unfold downloadTrackTranscoding, selectTranscoding, bind, lift.
  rewrite !Hpick. reflexivity.
Qed.

(** ** Runs of the monad *)

Lemma bind_inv {A C} (m : M A) (k : A -> M C) (w w2 : page) (r : result C) :
  bind m k w = (r, w2) ->
  (exists a w1, m w = (Ok a, w1) /\ k a w1 = (r, w2)) \/
  (exists e, m w = (Throw e, w2) /\ r = Throw e).
Proof.
  unfold bind. destruct (m w) as [[a|e] w1]; intros H.
  - left. eauto.
  - right. exists e. split; congruence.
Qed.

Lemma bind_ok {A C} (m : M A) (k : A -> M C) (w w1 : page) (a : A) :
  m w = (Ok a, w1) -> bind m k w = k a w1.
Proof. unfold bind. now intros ->. Qed.

Lemma bind_throw {A C} (m : M A) (k : A -> M C) (w w1 : page) (e : exn) :
  m w = (Throw e, w1) -> bind m k w = (Throw e, w1).
Proof. unfold bind. now intros ->. Qed.

Lemma after_nil (w : page) : after [] w = w.
Proof. destruct w. unfold after. simpl. now rewrite app_nil_r. Qed.

Lemma after_after (evs1 evs2 : list event) (w : page) :
  after evs2 (after evs1 w) = after (evs1 ++ evs2) w.
Proof. unfold after. simpl. now rewrite app_assoc. Qed.

Lemma log_after (e : event) (w : page) : log e w = after [e] w.
Proof. reflexivity. Qed.

Section Runs.
Context {B : Browser}.

(** [fetchAuthorizedJson] sends one request, or none when the request
    cannot be built. *)
Lemma fetchAuthorizedJson_run (url authToken : value) (args : option object)
      (w : page) :
  fetchAuthorizedJson url authToken args w =
  match api_request url authToken args w with
  | Throw e => (Throw e, w)
  | Ok (u, h) =>
      (settle u (fetch_response (trace w) u (Some h)), log (EFetch u (Some h)) w)
  end.
Proof.
  unfold fetchAuthorizedJson, api_request, auth_headers, fetchJson, fetch,
    get_clientId, bind, lift, ret, throw.
  destruct (negb (is_null authToken)).
  - destruct (to_string authToken) as [tok|e]; simpl; [|reflexivity].
    destruct (withQuery url _) as [u|e]; simpl; [|reflexivity].
    unfold settle.
    destruct (fetch_response (trace w) u _) as [resp|e]; [|reflexivity].
    unfold ResolutionFailed. now destruct (ok resp).
  - simpl. destruct (withQuery url _) as [u|e]; simpl; [|reflexivity].
    unfold settle.
    destruct (fetch_response (trace w) u _) as [resp|e]; [|reflexivity].
    unfold ResolutionFailed. now destruct (ok resp).
Qed.

(** [downloadTrack] starts by resolving the track with the session token
    of the page it runs on. *)
Lemma downloadTrack_run (trackUrl : string) (w : page) :
  downloadTrack trackUrl w =
  bind (fetchAuthorizedJson resolve_endpoint (session_token w)
                            (resolve_args trackUrl))
       (fun trackObj =>
          downloadable <- lift (get_prop trackObj "downloadable") ;;
          native <- (if truthy downloadable then
                       left <- lift (get_prop trackObj "has_downloads_left") ;;
                       ret (truthy left)
                     else ret false) ;;
          if native then
            id <- lift (get_prop trackObj "id") ;;
            downloadNative id
          else
            downloadTrackTranscoding trackObj (session_token w)) w.
Proof.
  unfold downloadTrack, session_token, enableHQ_setting, cookie_token.
  unfold storage_sync_get, getCookie, get_document_cookie.
  unfold bind at 1 2 3. unfold lift at 1, ret at 1.
  destruct (lookup "enableHQ" (storage_sync w)) as [v|]; simpl.
  - destruct (truthy v); [|reflexivity].
    unfold bind at 1.
    destruct (cookie_match "oauth_token" (document_cookie w)); reflexivity.
  - reflexivity.
Qed.

End Runs.

(** ** What a computation emits *)

Lemma emits_silent {A} (Q : option headers -> Prop) (m : M A) :
  (forall w, snd (m w) = w) -> emits Q m.
Proof.
  intros H w. exists []. split; [|intros ? ? []].
  rewrite H. symmetry. apply after_nil.
Qed.

Lemma emits_ret {A} Q (a : A) : emits Q (ret a).
Proof. now apply emits_silent. Qed.

Lemma emits_throw {A} Q (e : exn) : emits Q (@throw A e).
Proof. now apply emits_silent. Qed.

Lemma emits_lift {A} Q (r : result A) : emits Q (lift r).
Proof. now apply emits_silent. Qed.

Lemma emits_at_bind {A C} Q (m : M A) (k : A -> M C) (w : page) :
  emits_at Q m w -> (forall a, emits Q (k a)) -> emits_at Q (bind m k) w.
Proof.
  intros (evs1 & Hw1 & H1) Hk. unfold emits_at, bind.
  destruct (m w) as [[a|e] w1]; simpl in Hw1; subst w1.
  - destruct (Hk a (after evs1 w)) as (evs2 & Hw2 & H2).
    exists (evs1 ++ evs2)%list. split.
    + rewrite Hw2. apply after_after.
    + intros url init Hin. apply in_app_or in Hin as [Hin|Hin]; eauto.
  - exists evs1. split; [reflexivity | assumption].
Qed.

Lemma emits_bind {A C} Q (m : M A) (k : A -> M C) :
  emits Q m -> (forall a, emits Q (k a)) -> emits Q (bind m k).
Proof. intros Hm Hk w. apply emits_at_bind; auto. Qed.

Section Emits.
Context {B : Browser}.

Lemma emits_fetch Q (url : value) (init : option headers) :
  Q init -> emits Q (fetch url init).
Proof.
  intros HQ. unfold fetch. apply emits_bind; [apply emits_lift|].
  intros s w. exists [EFetch s init]. split; [reflexivity|].
  intros u i [H|[]]. congruence.
Qed.

Lemma emits_downloadUrl Q (url filename : value) :
  emits Q (downloadUrl url filename).
Proof.
  unfold downloadUrl.
  apply emits_bind; [apply emits_lift|]; intros d.
  apply emits_bind; [apply emits_lift|]; intros h w.
  exists [EDownload h d]. split; [reflexivity|].
  intros u i [H|[]]. discriminate.
Qed.

Lemma emits_fetchAuthorizedJson Q (url authToken : value) (args : option object) :
  (forall h, auth_headers authToken = Ok h -> Q (Some h)) ->
  emits Q (fetchAuthorizedJson url authToken args).
Proof.
  intros HQ w. unfold emits_at. rewrite fetchAuthorizedJson_run.
  destruct (api_request url authToken args w) as [[u h]|e] eqn:Hreq; simpl.
  - exists [EFetch u (Some h)]. split; [reflexivity|].
    intros url' init [H|[]]. injection H as <- <-. apply HQ.
    unfold api_request in Hreq.
    destruct (auth_headers authToken) as [h'|]; simpl in Hreq; [|discriminate].
    destruct (withQuery url _); simpl in Hreq; congruence.
  - exists []. split; [symmetry; apply after_nil | intros ? ? []].
Qed.

Lemma emits_downloadNative Q (trackId : value) :
  Q (Some []) -> emits Q (downloadNative trackId).
Proof.
  intros HQ. unfold downloadNative.
  apply emits_bind; [apply emits_lift|]; intros id.
  apply emits_bind.
  - apply emits_fetchAuthorizedJson. simpl. intros h [= <-]. exact HQ.
  - intros json. apply emits_bind; [apply emits_lift|]; intros url.
    apply emits_downloadUrl.
Qed.

Lemma emits_downloadTrackTranscoding Q (trackObj authToken : value) :
  (forall h, auth_headers authToken = Ok h -> Q (Some h)) ->
  Q None ->
  emits Q (downloadTrackTranscoding trackObj authToken).
Proof.
  intros HQ HN. unfold downloadTrackTranscoding.
  apply emits_bind; [apply emits_lift|]; intros t.
  destruct (is_null t); [apply emits_throw|].
  apply emits_bind; [apply emits_lift|]; intros turl.
  apply emits_bind; [now apply emits_fetchAuthorizedJson|]; intros urlResp.
  apply emits_bind; [apply emits_lift|]; intros url.
  apply emits_bind; [apply emits_lift|]; intros name.
  apply emits_bind; [apply emits_lift|]; intros u.
  apply emits_bind; [apply emits_lift|]; intros n.
  apply emits_bind; [now apply emits_fetch|]; intros resp.
  apply emits_bind; [apply emits_lift|]; intros b.
  apply emits_bind; [now apply emits_silent|]; intros burl.
  apply emits_downloadUrl.
Qed.

Lemma emits_at_downloadTrack Q (trackUrl : string) (w : page) :
  (forall h, auth_headers (session_token w) = Ok h -> Q (Some h)) ->
  Q (Some []) ->
  Q None ->
  emits_at Q (downloadTrack trackUrl) w.
Proof.
  intros HQ HE HN. unfold emits_at. rewrite downloadTrack_run.
  apply emits_at_bind; [now apply emits_fetchAuthorizedJson|].
  intros trackObj.
  apply emits_bind; [apply emits_lift|]; intros d.
  apply emits_bind.
  - destruct (truthy d); [|apply emits_ret].
    apply emits_bind; [apply emits_lift|]; intros l. apply emits_ret.
  - intros [|].
    + apply emits_bind; [apply emits_lift|]; intros id.
      now apply emits_downloadNative.
    + now apply emits_downloadTrackTranscoding.
Qed.

End Emits.

(** ** Resolution and the native path *)

Section Resolve.
Context {B : Browser}.

Lemma ok_false (resp : response) :
  ok resp = false <-> (status resp < 200 \/ 299 < status resp)%Z.
Proof.
  unfold ok. rewrite andb_false_iff, !Z.leb_gt. tauto.
Qed.

(** C7. When the request that resolves the track URL is answered with a
    status outside 200..299, [downloadTrack] throws the error naming the
    request and the status, and that request is all it has done: no
    rendition was looked at and nothing else was fetched or saved. *)
Theorem downloadTrack_resolution_failed
        (trackUrl : string) (w : page) (u : string) (h : headers)
        (resp : response) :
  api_request resolve_endpoint (session_token w) (resolve_args trackUrl) w
  = Ok (u, h) ->
  fetch_response (trace w) u (Some h) = Ok resp ->
  (status resp < 200 \/ 299 < status resp)%Z ->
  downloadTrack trackUrl w
  = (Throw (ResolutionFailed u resp), after [EFetch u (Some h)] w).
Proof.
  intros Hreq Hresp Hstatus. apply ok_false in Hstatus.
  rewrite downloadTrack_run. apply bind_throw.
  rewrite fetchAuthorizedJson_run, Hreq, Hresp. simpl. now rewrite Hstatus.
Qed.

Lemma flag_set_defined (trackObj : value) (flag k : string) :
  flag_set trackObj flag -> exists v, get_prop trackObj k = Ok v.
Proof. intros (v & Hv & _). eapply get_prop_defined; eauto. Qed.

(** C1. When the resolved track object has both its downloadable flag and
    its has_downloads_left flag set, [downloadTrack] continues as
    [downloadNative] on the track's id and as nothing else: what it does
    from there on is determined by the id alone, and the track's
    transcodings are not read (the track need not even have any). *)
Theorem downloadTrack_native
        (trackUrl : string) (w w1 : page) (trackObj : value) :
  fetchAuthorizedJson resolve_endpoint (session_token w)
                      (resolve_args trackUrl) w = (Ok trackObj, w1) ->
  flag_set trackObj "downloadable" ->
  flag_set trackObj "has_downloads_left" ->
  exists id,
    get_prop trackObj "id" = Ok id /\
    downloadTrack trackUrl w = downloadNative id w1.
Proof.
  intros Hres Hd (l & Hl & Hlt).
  destruct (flag_set_defined _ _ "id" Hd) as [id Hid].
  destruct Hd as (d & Hd & Hdt).
  exists id. split; [assumption|].
  rewrite downloadTrack_run. rewrite (bind_ok _ _ _ _ _ Hres).
  unfold bind at 1. unfold lift at 1. rewrite Hd.
  unfold bind at 1. rewrite Hdt.
  unfold bind at 1. unfold lift at 1. rewrite Hl.
  unfold ret at 1. rewrite Hlt.
  unfold bind at 1. unfold lift at 1. now rewrite Hid.
Qed.

Lemma secret_blind_ret {A} (a : A) : secret_blind (ret a).
Proof. now intros c st w. Qed.

Lemma secret_blind_throw {A} (e : exn) : secret_blind (@throw A e).
Proof. now intros c st w. Qed.

Lemma secret_blind_lift {A} (r : result A) : secret_blind (lift r).
Proof. now intros c st w. Qed.

Lemma secret_blind_bind {A C} (m : M A) (k : A -> M C) :
  secret_blind m -> (forall a, secret_blind (k a)) -> secret_blind (bind m k).
Proof.
  intros Hm Hk c st w. unfold bind. rewrite Hm.
  destruct (m w) as [[a|e] w1]; simpl; [apply Hk | reflexivity].
Qed.

Lemma secret_blind_fetch (url : value) (init : option headers) :
  secret_blind (fetch url init).
Proof.
  unfold fetch. apply secret_blind_bind; [apply secret_blind_lift|].
  now intros s c st w.
Qed.

Lemma secret_blind_downloadUrl (url filename : value) :
  secret_blind (downloadUrl url filename).
Proof.
  unfold downloadUrl.
  apply secret_blind_bind; [apply secret_blind_lift|]; intros d.
  apply secret_blind_bind; [apply secret_blind_lift|]; intros h.
  now intros c st w.
Qed.

Lemma secret_blind_fetchJson (url : value) (init : option init_object) :
  secret_blind (fetchJson url init).
Proof.
  unfold fetchJson. apply secret_blind_bind.
  - destruct init as [i|]; [|apply secret_blind_ret].
    destruct (init_query i); [|apply secret_blind_ret].
    apply secret_blind_bind; [apply secret_blind_lift|]; intros u.
    apply secret_blind_ret.
  - intros ui. apply secret_blind_bind; [apply secret_blind_fetch|].
    intros resp. destruct (negb (ok resp)); [|apply secret_blind_lift].
    apply secret_blind_bind; [apply secret_blind_lift|]; intros u.
    apply secret_blind_throw.
Qed.

Lemma secret_blind_fetchAuthorizedJson (url authToken : value)
      (args : option object) :
  secret_blind (fetchAuthorizedJson url authToken args).
Proof.
  unfold fetchAuthorizedJson. apply secret_blind_bind.
  - destruct (negb (is_null authToken)); [|apply secret_blind_ret].
    apply secret_blind_bind; [apply secret_blind_lift|]; intros tok.
    apply secret_blind_ret.
  - intros hdrs. apply secret_blind_bind; [now intros c st w|].
    intros cid. apply secret_blind_fetchJson.
Qed.

Lemma secret_blind_downloadNative (trackId : value) :
  secret_blind (downloadNative trackId).
Proof.
  unfold downloadNative.
  apply secret_blind_bind; [apply secret_blind_lift|]; intros id.
  apply secret_blind_bind; [apply secret_blind_fetchAuthorizedJson|].
  intros json.
  apply secret_blind_bind; [apply secret_blind_lift|]; intros url.
  apply secret_blind_downloadUrl.
Qed.

(** C10. From every page, [downloadNative] changes nothing but the
    trace.  Every request it sends has an empty set of headers and goes
    to the download endpoint of the track with the client id as its only
    query parameter.  What it returns and what it sends are the same
    whatever the cookie string and the preferences are: the session token
    is not sent, in no place of the request, also when the preference is
    set and the cookie is there. *)
Theorem downloadNative_sends_no_token (trackId : value) (w : page) :
  (exists evs,
     snd (downloadNative trackId w) = after evs w /\
     forall url init,
       In (EFetch url init) evs ->
       init = Some [] /\
       exists id,
         to_string trackId = Ok id /\
         withQuery
           (VStr ("https://api-v2.soundcloud.com/tracks/" ++ id ++ "/download"))
           [("client_id", clientId w)] = Ok url) /\
  (forall c st,
     downloadNative trackId (with_secrets c st w)
     = (fst (downloadNative trackId w),
        with_secrets c st (snd (downloadNative trackId w)))).
Proof.
  split; [|intros c st; apply secret_blind_downloadNative].
  unfold downloadNative.
  destruct (to_string trackId) as [id|e] eqn:Hid.
  - unfold bind at 1, lift at 1. unfold bind at 1.
    rewrite fetchAuthorizedJson_run.
    destruct (api_request _ VNull None w) as [[u h]|e] eqn:Hreq.
    + unfold api_request in Hreq. simpl in Hreq.
      destruct (withQuery _ _) as [u'|] eqn:Hq; simpl in Hreq; [|discriminate].
      injection Hreq as -> <-.
      assert (forall url init,
                EFetch u (Some []) = EFetch url init ->
                init = Some [] /\
                exists id0,
                  Ok id = Ok id0 /\
                  withQuery
                    (VStr ("https://api-v2.soundcloud.com/tracks/" ++ id0
                           ++ "/download"))
                    [("client_id", clientId w)] = Ok url) as Hfirst.
      { intros url init [= <- <-]. split; [reflexivity|]. now exists id. }
      destruct (settle u _) as [json|e].
      * destruct (emits_bind (fun _ => False)
                    (lift (get_prop json "redirectUri"))
                    (fun url => downloadUrl url VUndefined)
                    (emits_lift _ _)
                    (fun url => emits_downloadUrl _ url VUndefined)
                    (log (EFetch u (Some [])) w)) as (evs & He & Hno).
        exists (EFetch u (Some []) :: evs). split.
        -- transitivity (after evs (log (EFetch u (Some [])) w)); [exact He|].
           unfold log, after. simpl. now rewrite <- app_assoc.
        -- intros url init [H|H]; [now apply Hfirst|].
           destruct (Hno _ _ H).
      * exists [EFetch u (Some [])]. split; [reflexivity|].
        intros url init [H|[]]. now apply Hfirst.
    + exists []. split; [symmetry; apply after_nil | intros ? ? []].
  - exists []. split; [symmetry; apply after_nil | intros ? ? []].
Qed.

End Resolve.

(** ** The session token *)

Section Token.
Context {B : Browser}.

Lemma cookie_blind_silent {A} (f : page -> result A) :
  (forall c w, f (with_cookie c w) = f w) ->
  cookie_blind (fun w => (f w, w)).
Proof. intros H c w. simpl. now rewrite H. Qed.

Lemma cookie_blind_ret {A} (a : A) : cookie_blind (ret a).
Proof. now intros c w. Qed.

Lemma cookie_blind_throw {A} (e : exn) : cookie_blind (@throw A e).
Proof. now intros c w. Qed.

Lemma cookie_blind_lift {A} (r : result A) : cookie_blind (lift r).
Proof. now intros c w. Qed.

Lemma cookie_blind_bind {A C} (m : M A) (k : A -> M C) :
  cookie_blind m -> (forall a, cookie_blind (k a)) -> cookie_blind (bind m k).
Proof.
  intros Hm Hk c w. unfold bind. rewrite Hm.
  destruct (m w) as [[a|e] w1]; simpl; [apply Hk | reflexivity].
Qed.

Lemma cookie_blind_fetch (url : value) (init : option headers) :
  cookie_blind (fetch url init).
Proof.
  unfold fetch. apply cookie_blind_bind; [apply cookie_blind_lift|].
  now intros s c w.
Qed.

Lemma cookie_blind_downloadUrl (url filename : value) :
  cookie_blind (downloadUrl url filename).
Proof.
  unfold downloadUrl.
  apply cookie_blind_bind; [apply cookie_blind_lift|]; intros d.
  apply cookie_blind_bind; [apply cookie_blind_lift|]; intros h.
  now intros c w.
Qed.

Lemma cookie_blind_fetchJson (url : value) (init : option init_object) :
  cookie_blind (fetchJson url init).
Proof.
  unfold fetchJson. apply cookie_blind_bind.
  - destruct init as [i|]; [|apply cookie_blind_ret].
    destruct (init_query i); [|apply cookie_blind_ret].
    apply cookie_blind_bind; [apply cookie_blind_lift|]; intros u.
    apply cookie_blind_ret.
  - intros ui. apply cookie_blind_bind; [apply cookie_blind_fetch|].
    intros resp. destruct (negb (ok resp)); [|apply cookie_blind_lift].
    apply cookie_blind_bind; [apply cookie_blind_lift|]; intros u.
    apply cookie_blind_throw.
Qed.

Lemma cookie_blind_fetchAuthorizedJson (url authToken : value)
      (args : option object) :
  cookie_blind (fetchAuthorizedJson url authToken args).
Proof.
  unfold fetchAuthorizedJson. apply cookie_blind_bind.
  - destruct (negb (is_null authToken)); [|apply cookie_blind_ret].
    apply cookie_blind_bind; [apply cookie_blind_lift|]; intros tok.
    apply cookie_blind_ret.
  - intros hdrs. apply cookie_blind_bind; [now intros c w|].
    intros cid. apply cookie_blind_fetchJson.
Qed.

Lemma cookie_blind_downloadNative (trackId : value) :
  cookie_blind (downloadNative trackId).
Proof.
  unfold downloadNative.
  apply cookie_blind_bind; [apply cookie_blind_lift|]; intros id.
  apply cookie_blind_bind; [apply cookie_blind_fetchAuthorizedJson|].
  intros json.
  apply cookie_blind_bind; [apply cookie_blind_lift|]; intros url.
  apply cookie_blind_downloadUrl.
Qed.

Lemma cookie_blind_downloadTrackTranscoding (trackObj authToken : value) :
  cookie_blind (downloadTrackTranscoding trackObj authToken).
Proof.
  unfold downloadTrackTranscoding.
  apply cookie_blind_bind; [apply cookie_blind_lift|]; intros t.
  destruct (is_null t); [apply cookie_blind_throw|].
  apply cookie_blind_bind; [apply cookie_blind_lift|]; intros turl.
  apply cookie_blind_bind; [apply cookie_blind_fetchAuthorizedJson|].
  intros urlResp.
  apply cookie_blind_bind; [apply cookie_blind_lift|]; intros url.
  apply cookie_blind_bind; [apply cookie_blind_lift|]; intros name.
  apply cookie_blind_bind; [apply cookie_blind_lift|]; intros u.
  apply cookie_blind_bind; [apply cookie_blind_lift|]; intros n.
  apply cookie_blind_bind; [apply cookie_blind_fetch|]; intros resp.
  apply cookie_blind_bind; [apply cookie_blind_lift|]; intros b.
  apply cookie_blind_bind; [now intros c w|]; intros burl.
  apply cookie_blind_downloadUrl.
Qed.

(** With a fixed token, everything [downloadTrack] does after reading the
    preference and the cookie is blind to the cookie. *)
Lemma cookie_blind_after_token (trackUrl : string) (authToken : value) :
  cookie_blind
    (bind (fetchAuthorizedJson resolve_endpoint authToken (resolve_args trackUrl))
          (fun trackObj =>
             downloadable <- lift (get_prop trackObj "downloadable") ;;
             native <- (if truthy downloadable then
                          left <- lift (get_prop trackObj "has_downloads_left") ;;
                          ret (truthy left)
                        else ret false) ;;
             if native then
               id <- lift (get_prop trackObj "id") ;;
               downloadNative id
             else
               downloadTrackTranscoding trackObj authToken)).
Proof.
  apply cookie_blind_bind; [apply cookie_blind_fetchAuthorizedJson|].
  intros trackObj.
  apply cookie_blind_bind; [apply cookie_blind_lift|]; intros d.
  apply cookie_blind_bind.
  - destruct (truthy d); [|apply cookie_blind_ret].
    apply cookie_blind_bind; [apply cookie_blind_lift|]; intros l.
    apply cookie_blind_ret.
  - intros [|].
    + apply cookie_blind_bind; [apply cookie_blind_lift|]; intros id.
      apply cookie_blind_downloadNative.
    + apply cookie_blind_downloadTrackTranscoding.
Qed.

Lemma auth_headers_session_token (w : page) (h : headers) (k v : string) :
  auth_headers (session_token w) = Ok h ->
  In (k, v) h ->
  truthy (enableHQ_setting w) = true /\
  exists tok,
    cookie_match "oauth_token" (document_cookie w) = Some tok /\
    k = "Authorization" /\ v = "OAuth " ++ tok.
Proof.
  unfold session_token, cookie_token.
  destruct (truthy (enableHQ_setting w)).
  - destruct (cookie_match "oauth_token" (document_cookie w)) as [tok|]; simpl.
    + intros [= <-] [H|[]]. injection H as <- <-. eauto.
    + intros [= <-] [].
  - simpl. intros [= <-] [].
Qed.

(** C8. A run of [downloadTrack] changes nothing of the page but the
    trace: the token is stored nowhere.  A header on a request it sends
    can only be the Authorization header made of the oauth_token cookie
    read from the page the run started on, and only when the enableHQ
    preference is set.  When the preference is not set, the run with any
    other cookie string returns the same and sends the same requests. *)
Theorem downloadTrack_session_token (trackUrl : string) (w : page) :
  (exists evs,
     snd (downloadTrack trackUrl w) = after evs w /\
     forall url h k v,
       In (EFetch url (Some h)) evs -> In (k, v) h ->
       truthy (enableHQ_setting w) = true /\
       exists tok,
         cookie_match "oauth_token" (document_cookie w) = Some tok /\
         k = "Authorization" /\ v = "OAuth " ++ tok) /\
  (truthy (enableHQ_setting w) = false ->
   forall c,
     downloadTrack trackUrl (with_cookie c w)
     = (fst (downloadTrack trackUrl w),
        with_cookie c (snd (downloadTrack trackUrl w)))).
Proof.
  split.
  - pose (Q := fun init : option headers =>
                 forall h k v, init = Some h -> In (k, v) h ->
                   truthy (enableHQ_setting w) = true /\
                   exists tok,
                     cookie_match "oauth_token" (document_cookie w) = Some tok /\
                     k = "Authorization" /\ v = "OAuth " ++ tok).
    destruct (emits_at_downloadTrack Q trackUrl w) as (evs & Hw & HQ).
    + intros h Hh h' k v [= <-] Hin. eapply auth_headers_session_token; eauto.
    + intros h k v [= <-] [].
    + intros h k v [=].
    + exists evs. split; [assumption|].
      intros url h k v Hin Hkv. exact (HQ _ _ Hin h k v eq_refl Hkv).
  - intros Hoff c. rewrite !downloadTrack_run.
    assert (session_token (with_cookie c w) = VNull) as ->.
    { unfold session_token, enableHQ_setting in *. simpl. now rewrite Hoff. }
    assert (session_token w = VNull) as ->.
    { unfold session_token. now rewrite Hoff. }
    apply cookie_blind_after_token.
Qed.

End Token.

(** ** Fetching the file *)

Lemma bind_lift_ok {A C} (r : result A) (a : A) (k : A -> M C) (w : page) :
  r = Ok a -> bind (lift r) k w = k a w.
Proof. now intros ->. Qed.

Lemma bind_inv_ok {A C} (m : M A) (k : A -> M C) (w w2 : page) (c : C) :
  bind m k w = (Ok c, w2) ->
  exists a w1, m w = (Ok a, w1) /\ k a w1 = (Ok c, w2).
Proof.
  intros H. apply bind_inv in H as [H|(e & _ & He)]; [assumption|discriminate].
Qed.

Lemma bind_lift_inv_ok {A C} (r : result A) (k : A -> M C) (w w2 : page) (c : C) :
  bind (lift r) k w = (Ok c, w2) ->
  exists a, r = Ok a /\ k a w = (Ok c, w2).
Proof.
  intros H. apply bind_inv_ok in H as (a & w1 & Hr & Hk).
  unfold lift in Hr. injection Hr as -> <-. eauto.
Qed.

Section Fetching.
Context {B : Browser}.

(** From its call [fetch(url)] on, [downloadTrackTranscoding] fetches the
    final URL, reads the blob and saves it. *)
Lemma downloadTrackTranscoding_from_fetch
      (trackObj authToken : value) (w w1 : page) (finalUrl filename : string) :
  reaches_fetch trackObj authToken w w1 finalUrl filename ->
  downloadTrackTranscoding trackObj authToken w =
  match fetch_response (trace w1) finalUrl None with
  | Throw e => (Throw e, after [EFetch finalUrl None] w1)
  | Ok resp =>
      match blob resp with
      | Throw e => (Throw e, after [EFetch finalUrl None] w1)
      | Ok b =>
          (Ok tt,
           after [EFetch finalUrl None;
                  EDownload (createObjectURL (trace w1 ++ [EFetch finalUrl None]) b)
                            filename] w1)
      end
  end.
Proof.
  intros (t & turl & urlResp & url & name & n & u &
          Hsel & Hnull & Hturl & Hmeta & Hurl & Hfinal & Hname & Hparse & Hn & ->).
  unfold downloadTrackTranscoding.
  rewrite (bind_lift_ok _ _ _ _ Hsel), Hnull.
  rewrite (bind_lift_ok _ _ _ _ Hturl).
  rewrite (bind_ok _ _ _ _ _ Hmeta).
  rewrite (bind_lift_ok _ _ _ _ Hurl).
  rewrite (bind_lift_ok _ _ _ _ Hname).
  assert (new_URL url = Ok u) as Hnew.
  { unfold new_URL. rewrite Hfinal. simpl. now rewrite Hparse. }
  rewrite (bind_lift_ok _ _ _ _ Hnew).
  rewrite (bind_lift_ok _ _ _ _ Hn).
  unfold fetch. unfold bind at 1.
  rewrite (bind_lift_ok _ _ _ _ Hfinal).
  destruct (fetch_response (trace w1) finalUrl None) as [resp|e]; [|reflexivity].
  unfold bind at 1. unfold lift at 1.
  destruct (blob resp) as [b|e]; [|reflexivity].
  unfold bind at 1. unfold downloadUrl, bind, lift. simpl.
  unfold log, after. simpl. now rewrite <- app_assoc.
Qed.

(** A run that returns has passed through the call [fetch(url)]. *)
Lemma downloadTrackTranscoding_returns
      (trackObj authToken : value) (w w2 : page) :
  downloadTrackTranscoding trackObj authToken w = (Ok tt, w2) ->
  exists w1 finalUrl filename,
    reaches_fetch trackObj authToken w w1 finalUrl filename.
Proof.
  unfold downloadTrackTranscoding. intros H.
  apply bind_lift_inv_ok in H as (t & Hsel & H).
  destruct (is_null t) eqn:Hnull; [discriminate|].
  apply bind_lift_inv_ok in H as (turl & Hturl & H).
  apply bind_inv_ok in H as (urlResp & w1 & Hmeta & H).
  apply bind_lift_inv_ok in H as (url & Hurl & H).
  apply bind_lift_inv_ok in H as (name & Hname & H).
  apply bind_lift_inv_ok in H as (u & Hnew & H).
  apply bind_lift_inv_ok in H as (n & Hn & H).
  unfold new_URL in Hnew.
  destruct (to_string url) as [finalUrl|] eqn:Hfinal; simpl in Hnew; [|discriminate].
  destruct (URL_parse finalUrl) as [u'|] eqn:Hparse; [|discriminate].
  injection Hnew as ->.
  exists w1, finalUrl, (n ++ "." ++ extension (URL_pathname u)).
  exists t, turl, urlResp, url, name, n, u. repeat split; assumption.
Qed.

Lemma filter_none {A} (f : A -> bool) (l : list A) :
  (forall x, In x l -> f x = false) -> filter f l = [].
Proof.
  induction l as [|x l IH]; intros H; [reflexivity|]. simpl.
  rewrite (H x) by now left. apply IH. intros; apply H; now right.
Qed.

(** C9. Once [downloadTrackTranscoding] has resolved the final URL of
    the rendition it selected and has got as far as fetching it, it calls
    [fetch] exactly once from there on, and that call fetches the final
    URL; and in the whole of its run the final URL is fetched that once
    and nothing else is fetched the same way. *)
Theorem downloadTrackTranscoding_fetches_once
        (trackObj authToken : value) (w w1 : page) (finalUrl filename : string) :
  reaches_fetch trackObj authToken w w1 finalUrl filename ->
  (exists evs,
     snd (downloadTrackTranscoding trackObj authToken w) = after evs w1 /\
     fetch_count evs = 1 /\
     plain_fetch_count finalUrl evs = 1) /\
  (exists evs,
     snd (downloadTrackTranscoding trackObj authToken w) = after evs w /\
     plain_fetch_count finalUrl evs = 1 /\
     forall url, In (EFetch url None) evs -> url = finalUrl).
Proof.
  intros H.
  assert (exists rest,
            snd (downloadTrackTranscoding trackObj authToken w)
            = after (EFetch finalUrl None :: rest) w1 /\
            forall e, In e rest -> is_fetch e = false) as (rest & Hrun & Hrest).
  { rewrite (downloadTrackTranscoding_from_fetch _ _ _ _ _ _ H).
    destruct (fetch_response (trace w1) finalUrl None) as [resp|e].
    - destruct (blob resp) as [b|e].
      + eexists. split; [reflexivity|]. intros ev [<-|[]]. reflexivity.
      + exists []. split; [reflexivity|]. intros ev [].
    - exists []. split; [reflexivity|]. intros ev []. }
  assert (filter is_fetch rest = []) as Hf by now apply filter_none.
  assert (filter (is_plain_fetch_of finalUrl) rest = []) as Hp.
  { apply filter_none. intros ev Hev. apply Hrest in Hev. now destruct ev. }
  split.
  - exists (EFetch finalUrl None :: rest). split; [assumption|].
    unfold fetch_count, plain_fetch_count. simpl.
    rewrite String.eqb_refl. simpl. now rewrite Hf, Hp.
  - destruct H as (t & turl & urlResp & url & name & n & u &
          Hsel & Hnull & Hturl & Hmeta & _).
    destruct (emits_fetchAuthorizedJson (fun init => init <> None)
                turl authToken (Some [])) with (w := w) as (evs0 & Hw1 & Hsome).
    { intros h _. discriminate. }
    rewrite Hmeta in Hw1. simpl in Hw1. subst w1.
    exists (evs0 ++ EFetch finalUrl None :: rest)%list. split; [|split].
    + rewrite Hrun. apply after_after.
    + unfold plain_fetch_count. rewrite filter_app, length_app. simpl.
      rewrite String.eqb_refl. simpl. rewrite Hp.
      rewrite filter_none; [reflexivity|].
      intros ev Hev. destruct ev as [url' [h|]|]; try reflexivity.
      now apply Hsome in Hev.
    + intros url' Hin. apply in_app_or in Hin as [Hin|[Hin|Hin]].
      * now apply Hsome in Hin.
      * congruence.
      * now apply Hrest in Hin.
Qed.

End Fetching.

(** ** The file name *)

Lemma getTrackName_with_separator (trackObj : value) (title : string) :
  get_prop trackObj "title" = Ok (VStr title) ->
  contains " - " title ->
  getTrackName trackObj = Ok (VStr title).
Proof.
  intros Ht Hc. apply includes_contains in Hc.
  unfold getTrackName. rewrite Ht. simpl. now rewrite Hc.
Qed.

Lemma getTrackName_without_separator (trackObj user : value)
      (title username : string) :
  get_prop trackObj "title" = Ok (VStr title) ->
  ~ contains " - " title ->
  get_prop trackObj "user" = Ok user ->
  get_prop user "username" = Ok (VStr username) ->
  getTrackName trackObj = Ok (VStr (username ++ " - " ++ title)).
Proof.
  intros Ht Hc Hu Hn. apply includes_false in Hc.
  unfold getTrackName. rewrite Ht. simpl. rewrite Hc. simpl.
  rewrite Hu. simpl. now rewrite Hn.
Qed.

Lemma getTrackName_of_string_title (trackObj name : value) (title : string) :
  get_prop trackObj "title" = Ok (VStr title) ->
  getTrackName trackObj = Ok name ->
  exists s, name = VStr s.
Proof.
  intros Ht. unfold getTrackName. rewrite Ht. simpl.
  destruct (includes " - " title); simpl.
  - intros [= <-]. eauto.
  - destruct (get_prop trackObj "user") as [user|]; simpl; [|discriminate].
    destruct (get_prop user "username") as [artist|]; simpl; [|discriminate].
    destruct (to_string artist) as [a|]; simpl; [|discriminate].
    intros [= <-]. eauto.
Qed.

(** C3. For a track whose title is the string [title]: when the title
    contains " - ", [getTrackName] returns the title as it is; when it
    does not, [getTrackName] returns the uploader's username, " - " and
    the title.  The file a run of [downloadTrackTranscoding] saves is
    named by that name, a dot and the extension of the final URL's
    path. *)
Theorem getTrackName_filename {B : Browser} (trackObj : value) (title : string) :
  get_prop trackObj "title" = Ok (VStr title) ->
  (contains " - " title -> getTrackName trackObj = Ok (VStr title)) /\
  (~ contains " - " title ->
   forall user username,
     get_prop trackObj "user" = Ok user ->
     get_prop user "username" = Ok (VStr username) ->
     getTrackName trackObj = Ok (VStr (username ++ " - " ++ title))) /\
  (forall authToken w w2,
     downloadTrackTranscoding trackObj authToken w = (Ok tt, w2) ->
     exists name finalUrl u href evs,
       getTrackName trackObj = Ok (VStr name) /\
       URL_parse finalUrl = Some u /\
       trace w2 =
       (trace w ++ evs ++
        [EFetch finalUrl None;
         EDownload href (name ++ "." ++ extension (URL_pathname u))])%list).
Proof.
  intros Ht. split; [|split].
  - now apply getTrackName_with_separator.
  - intros Hc user username. now apply getTrackName_without_separator.
  - intros authToken w w2 Hrun.
    destruct (downloadTrackTranscoding_returns _ _ _ _ Hrun)
      as (w1 & finalUrl & filename & Hreach).
    rewrite (downloadTrackTranscoding_from_fetch _ _ _ _ _ _ Hreach) in Hrun.
    destruct Hreach as (t & turl & urlResp & url & name & n & u &
          Hsel & Hnull & Hturl & Hmeta & Hurl & Hfinal & Hname & Hparse & Hn & ->).
    destruct (getTrackName_of_string_title _ _ _ Ht Hname) as [s ->].
    simpl in Hn. injection Hn as <-.
    destruct (emits_fetchAuthorizedJson (fun _ => True) turl authToken (Some [])
                (fun _ _ => I) w) as (evs & Hw1 & _).
    rewrite Hmeta in Hw1. simpl in Hw1. subst w1.
    destruct (fetch_response _ finalUrl None) as [resp|]; [|discriminate].
    destruct (blob resp) as [b|]; [|discriminate].
    injection Hrun as <-.
    exists s, finalUrl, u, (createObjectURL ((trace w ++ evs) ++ [EFetch finalUrl None]) b), evs.
    repeat split; try assumption.
    simpl. now rewrite <- app_assoc.
Qed.

(** ** The client id *)

Lemma strip_prefix_spec (p s r : string) :
  strip_prefix p s = Some r <-> s = p ++ r.
Proof.
  revert s; induction p as [|a p IH]; intros s; simpl.
  - split; congruence.
  - destruct s as [|b s]; [split; discriminate|].
    destruct (Ascii.eqb_spec a b) as [->|Hab].
    + rewrite IH. split; congruence.
    + split; [discriminate | congruence].
Qed.

Lemma take_exactly_spec (p : ascii -> bool) (n : nat) (s g r : string) :
  take_exactly p n s = Some (g, r) <->
  s = g ++ r /\ String.length g = n /\ string_forall p g = true.
Proof.
  revert s g r; induction n as [|n IH]; intros s g r; simpl.
  - split.
    + intros [= <- <-]. auto.
    + intros (-> & Hl & _). destruct g; [reflexivity | discriminate].
  - destruct s as [|c s].
    + split; [discriminate|]. intros (Hs & Hl & _).
      destruct g; discriminate.
    + destruct (p c) eqn:Hc.
      * destruct (take_exactly p n s) as [[g' r']|] eqn:Ht.
        -- apply IH in Ht as (-> & Hl & Hall). split.
           ++ intros [= <- <-]. simpl. rewrite Hc. auto.
           ++ intros (Hs & Hl' & Hall'). destruct g as [|c' g]; [discriminate|].
              simpl in *. injection Hs as <- Hs. injection Hl' as Hl'.
              apply andb_true_iff in Hall' as [_ Hall'].
              assert (take_exactly p n (g' ++ r') = Some (g, r)) as H.
              { apply IH. rewrite Hs. auto. }
              assert (take_exactly p n (g' ++ r') = Some (g', r')) as H'.
              { apply IH. auto. }
              congruence.
        -- split; [discriminate|]. intros (Hs & Hl' & Hall').
           destruct g as [|c' g]; [discriminate|].
           simpl in *. injection Hs as <- Hs. injection Hl' as Hl'.
           apply andb_true_iff in Hall' as [_ Hall'].
           assert (take_exactly p n s = Some (g, r)) as H by (apply IH; auto).
           congruence.
      * split; [discriminate|]. intros (Hs & Hl' & Hall').
        destruct g as [|c' g]; [discriminate|].
        simpl in *. injection Hs as <- Hs.
        apply andb_true_iff in Hall' as [Hc' _]. congruence.
Qed.

Lemma client_id_at_spec (s id : string) :
  client_id_at s = Some id <-> client_id_pattern s id.
Proof.
  unfold client_id_at, client_id_pattern. split.
  - destruct (strip_prefix "client_id:" s) as [r|] eqn:Hp; [|discriminate].
    apply strip_prefix_spec in Hp as ->.
    destruct r as [|q1 r]; [discriminate|].
    destruct (is_quote q1) eqn:Hq1; [|discriminate].
    destruct (take_exactly is_alnum 32 r) as [[g r']|] eqn:Ht; [|discriminate].
    destruct r' as [|q2 r']; [discriminate|].
    destruct (is_quote q2) eqn:Hq2; [|discriminate].
    intros [= <-]. apply take_exactly_spec in Ht as (-> & Hl & Hall).
    exists q1, q2, r'. auto.
  - intros (q1 & q2 & rest & -> & Hq1 & Hq2 & Hl & Hall).
    assert (strip_prefix "client_id:"
              ("client_id:" ++ String q1 (id ++ String q2 rest))
            = Some (String q1 (id ++ String q2 rest))) as ->
      by now apply strip_prefix_spec.
    rewrite Hq1.
    assert (take_exactly is_alnum 32 (id ++ String q2 rest)
            = Some (id, String q2 rest)) as ->
      by now apply take_exactly_spec.
    now rewrite Hq2.
Qed.

Lemma client_id_at_none (s : string) :
  client_id_at s = None <-> forall id, ~ client_id_pattern s id.
Proof.
  split.
  - intros H id Hid. apply client_id_at_spec in Hid. congruence.
  - intros H. destruct (client_id_at s) as [id|] eqn:Hid; [|reflexivity].
    apply client_id_at_spec in Hid. now apply H in Hid.
Qed.

Lemma client_id_match_unfold (s : string) :
  client_id_match s =
  match client_id_at s with
  | Some g => Some g
  | None =>
      match s with
      | "" => None
      | String _ rest => client_id_match rest
      end
  end.
Proof. destruct s; reflexivity. Qed.

Lemma client_id_match_none (s : string) :
  client_id_match s = None <-> no_client_id s.
Proof.
  unfold no_client_id. induction s as [|c s IH]; rewrite client_id_match_unfold.
  - destruct (client_id_at "") as [g|] eqn:Hat; [discriminate|].
    split; [|reflexivity]. intros _ pre rest id Hs.
    destruct pre; [|discriminate]. simpl in Hs. subst rest.
    now apply client_id_at_none.
  - destruct (client_id_at (String c s)) as [g|] eqn:Hat.
    + split; [discriminate|]. intros H. exfalso.
      apply (H "" (String c s) g eq_refl). now apply client_id_at_spec.
    + rewrite IH. split.
      * intros H pre rest id Hs. destruct pre as [|c' pre]; simpl in Hs.
        -- subst rest. now apply client_id_at_none.
        -- injection Hs as _ Hs. eapply H; eauto.
      * intros H pre rest id Hs. apply (H (String c pre) rest id).
        simpl. now rewrite Hs.
Qed.

Lemma client_id_match_first (s id : string) :
  client_id_match s = Some id <-> first_client_id s id.
Proof.
  unfold first_client_id. revert id.
  induction s as [|c s IH]; intros id; rewrite client_id_match_unfold.
  - destruct (client_id_at "") as [g|] eqn:Hat.
    + split.
      * intros [= ->]. exists "", "". repeat split.
        -- now apply client_id_at_spec.
        -- intros pre' rest' id' _ Hl. inversion Hl.
      * intros (pre & rest & Hs & Hp & _).
        destruct pre; [|discriminate]. simpl in Hs. subst rest.
        apply client_id_at_spec in Hp. congruence.
    + split; [discriminate|]. intros (pre & rest & Hs & Hp & _).
      destruct pre; [|discriminate]. simpl in Hs. subst rest.
      apply client_id_at_spec in Hp. congruence.
  - destruct (client_id_at (String c s)) as [g|] eqn:Hat.
    + split.
      * intros [= ->]. exists "", (String c s). repeat split.
        -- now apply client_id_at_spec.
        -- intros pre' rest' id' _ Hl. inversion Hl.
      * intros (pre & rest & Hs & Hp & Hmin).
        destruct pre as [|c' pre]; simpl in Hs.
        -- subst rest. apply client_id_at_spec in Hp. congruence.
        -- exfalso. apply (Hmin "" (String c s) g eq_refl); [simpl; lia|].
           now apply client_id_at_spec.
    + rewrite IH. split.
      * intros (pre & rest & -> & Hp & Hmin).
        exists (String c pre), rest. repeat split; [assumption|].
        intros pre' rest' id' Hs Hl. destruct pre' as [|c' pre']; simpl in Hs.
        -- subst rest'. now apply client_id_at_none.
        -- injection Hs as _ Hs. simpl in Hl. apply (Hmin pre' rest' id' Hs). lia.
      * intros (pre & rest & Hs & Hp & Hmin).
        destruct pre as [|c' pre]; simpl in Hs.
        -- subst rest. apply client_id_at_spec in Hp. congruence.
        -- injection Hs as _ ->. exists pre, rest. repeat split; [assumption|].
           intros pre' rest' id' Hs Hl.
           apply (Hmin (String c pre') rest' id'); [simpl; now rewrite Hs|simpl; lia].
Qed.

Lemma script_requests_app (l1 l2 : list string) :
  script_requests (l1 ++ l2) = (script_requests l1 ++ script_requests l2)%list.
Proof. unfold script_requests. now rewrite filter_app, map_app. Qed.

Lemma first_client_id_token (text id : string) :
  first_client_id text id ->
  String.length id = 32 /\ string_forall is_alnum id = true.
Proof.
  intros (pre & rest & _ & (q1 & q2 & r & _ & _ & _ & Hl & Hall) & _). auto.
Qed.

Section Scrape.
Context {B : Browser}.

(** A script that yields nothing is passed over, after the request for
    it when it is external. *)
Lemma scrapeClientId_loop_skip (src : string) (rest : list string) (w : page) :
  yields_nothing (trace w) src ->
  scrapeClientId_loop (src :: rest) w
  = scrapeClientId_loop rest (after (script_requests [src]) w).
Proof.
  intros H. simpl. unfold script_requests, external. simpl.
  destruct (String.eqb_spec src "") as [->|Hsrc]; simpl.
  - now rewrite after_nil.
  - destruct H as [H|[(e & He)|(resp & t & Hresp & Ht & Hnone)]];
      [contradiction| |].
    + unfold bind at 1. unfold try_catch, fetch, bind, lift. simpl.
      now rewrite He.
    + unfold bind at 1. unfold try_catch, fetch, bind, lift. simpl.
      rewrite Hresp. simpl. rewrite Ht.
      apply client_id_match_none in Hnone. now rewrite Hnone.
Qed.

(** A script that yields a client id ends the search. *)
Lemma scrapeClientId_loop_found (src id : string) (rest : list string) (w : page) :
  yields (trace w) src id ->
  scrapeClientId_loop (src :: rest) w
  = (Ok (VStr id), after [EFetch src None] w).
Proof.
  intros (Hsrc & resp & t & Hresp & Ht & Hid). simpl.
  destruct (String.eqb_spec src "") as [->|_]; [contradiction|].
  unfold bind at 1. unfold try_catch, fetch, bind, lift. simpl.
  rewrite Hresp. simpl. rewrite Ht.
  apply client_id_match_first in Hid. now rewrite Hid.
Qed.

Lemma scrapeClientId_loop_pass (pre rest : list string) (w : page) :
  all_yield_nothing (trace w) pre ->
  scrapeClientId_loop (pre ++ rest) w
  = scrapeClientId_loop rest (after (script_requests pre) w).
Proof.
  revert w; induction pre as [|src pre IH]; intros w H.
  - simpl. unfold script_requests. simpl. now rewrite after_nil.
  - destruct H as [Hsrc Hpre]. simpl app.
    rewrite (scrapeClientId_loop_skip _ _ _ Hsrc).
    rewrite IH by exact Hpre. rewrite after_after.
    now rewrite <- script_requests_app.
Qed.

(** C6. [scrapeClientId] goes through the script elements of the page in
    order and fetches the external ones.  The first script whose text
    holds a client-id assignment ends the search: the result is the token
    of the leftmost assignment in that text, 32 alphanumeric characters.
    When no script yields one, the search fails with the error "Could
    not get client_id value from current page", having fetched every
    external script. *)
Theorem scrapeClientId_first_match (w : page) :
  (forall pre src post id,
     script_srcs = (pre ++ src :: post)%list ->
     all_yield_nothing (trace w) pre ->
     yields (trace w ++ script_requests pre) src id ->
     scrapeClientId w
     = (Ok (VStr id), after (script_requests (pre ++ [src])) w) /\
     String.length id = 32 /\ string_forall is_alnum id = true) /\
  (all_yield_nothing (trace w) script_srcs ->
   scrapeClientId w
   = (Throw CredentialNotFound, after (script_requests script_srcs) w)).
Proof.
  unfold scrapeClientId. split.
  - intros pre src post id -> Hpre Hsrc. split.
    + rewrite (scrapeClientId_loop_pass _ _ _ Hpre).
      rewrite (scrapeClientId_loop_found src id post); [|exact Hsrc].
      rewrite after_after, script_requests_app.
      destruct Hsrc as (Hne & _). unfold script_requests at 3, external. simpl.
      destruct (String.eqb_spec src ""); [contradiction | reflexivity].
    + destruct Hsrc as (_ & resp & t & _ & _ & Hid).
      eapply first_client_id_token; eauto.
  - intros Hall.
    rewrite <- (app_nil_r script_srcs) at 1.
    now rewrite (scrapeClientId_loop_pass _ _ _ Hall).
Qed.

End Scrape.

(** ** The cookie *)

Lemma take_while_split (p : ascii -> bool) (s : string) :
  exists rest,
    s = take_while p s ++ rest /\
    string_forall p (take_while p s) = true /\
    (rest = "" \/ exists c r, rest = String c r /\ p c = false).
Proof.
  induction s as [|c s (rest & Hs & Hall & Hrest)]; simpl.
  - exists "". auto.
  - destruct (p c) eqn:Hc.
    + exists rest. simpl. rewrite Hc, Hall. split; [now rewrite <- Hs | auto].
    + exists (String c s). split; [reflexivity|]. split; [reflexivity|].
      right. eauto.
Qed.

Lemma cookie_after_sep_unfold (key s : string) :
  cookie_after_sep key s =
  match
    match strip_prefix (key ++ "=") s with
    | Some rest =>
        match take_while (fun c => negb (is_semicolon c)) rest with
        | "" => None
        | g => Some g
        end
    | None => None
    end
  with
  | Some g => Some g
  | None =>
      match s with
      | String c rest => if is_space c then cookie_after_sep key rest else None
      | "" => None
      end
  end.
Proof. destruct s; reflexivity. Qed.

Lemma cookie_after_sep_sound (key s g : string) :
  cookie_after_sep key s = Some g ->
  exists sp rest,
    s = sp ++ (key ++ "=") ++ g ++ rest /\
    string_forall is_space sp = true /\
    g <> "" /\
    string_forall (fun c => negb (is_semicolon c)) g = true /\
    (rest = "" \/ exists r, rest = String ";" r).
Proof.
  induction s as [|c s IH]; rewrite cookie_after_sep_unfold.
  - destruct (strip_prefix (key ++ "=") "") as [rest0|] eqn:Hp; [|discriminate].
    apply strip_prefix_spec in Hp.
    destruct (key ++ "=") eqn:Hk; [|discriminate].
    destruct key; discriminate.
  - destruct (match strip_prefix (key ++ "=") (String c s) with
              | Some rest =>
                  match take_while (fun c => negb (is_semicolon c)) rest with
                  | "" => None
                  | g => Some g
                  end
              | None => None
              end) as [g0|] eqn:Hhere.
    + intros [= ->].
      destruct (strip_prefix (key ++ "=") (String c s)) as [rest0|] eqn:Hp;
        [|discriminate].
      apply strip_prefix_spec in Hp.
      destruct (take_while_split (fun c => negb (is_semicolon c)) rest0)
        as (rest & Hs & Hall & Hrest).
      destruct (take_while (fun c => negb (is_semicolon c)) rest0) as [|a g']
        eqn:Htw; [discriminate|].
      injection Hhere as <-.
      exists "", rest. split; [simpl; rewrite Hp, Hs; reflexivity|].
      split; [reflexivity|]. split; [discriminate|]. split; [assumption|].
      destruct Hrest as [->|(c0 & r & -> & Hc0)]; [now left|].
      right. exists r. apply negb_false_iff in Hc0.
      apply Ascii.eqb_eq in Hc0. now subst.
    + destruct (is_space c) eqn:Hc; [|discriminate].
      intros H. destruct (IH H) as (sp & rest & -> & Hsp & Hg & Hall & Hrest).
      exists (String c sp), rest. simpl. rewrite Hc, Hsp. auto.
Qed.

Lemma cookie_scan_sound (key s g : string) :
  cookie_scan key s = Some g ->
  exists p sp rest,
    s = (p ++ ";") ++ sp ++ (key ++ "=") ++ g ++ rest /\
    string_forall is_space sp = true /\
    g <> "" /\
    string_forall (fun c => negb (is_semicolon c)) g = true /\
    (rest = "" \/ exists r, rest = String ";" r).
Proof.
  induction s as [|c s IH]; simpl; [discriminate|].
  destruct (if is_semicolon c then cookie_after_sep key s else None)
    as [g0|] eqn:Hhere.
  - intros [= ->]. destruct (is_semicolon c) eqn:Hc; [|discriminate].
    apply Ascii.eqb_eq in Hc. subst c.
    destruct (cookie_after_sep_sound _ _ _ Hhere) as (sp & rest & -> & H).
    exists "", sp, rest. split; [reflexivity | exact H].
  - intros H. destruct (IH H) as (p & sp & rest & -> & H').
    exists (String c p), sp, rest. split; [reflexivity | exact H'].
Qed.

(** What [getCookie] finds is the value of the cookie. *)
Lemma cookie_match_sound (key s g : string) :
  cookie_match key s = Some g -> cookie_value key s g.
Proof.
  unfold cookie_match, cookie_value.
  destruct (cookie_after_sep key s) as [g0|] eqn:Hfront.
  - intros [= ->].
    destruct (cookie_after_sep_sound _ _ _ Hfront) as (sp & rest & Hs & H).
    exists "", sp, rest. simpl. auto.
  - intros H.
    destruct (cookie_scan_sound _ _ _ H) as (p & sp & rest & Hs & H').
    exists (p ++ ";"), sp, rest. split; [exact Hs|]. split; [|exact H'].
    right. now exists p.
Qed.

Section Init.
Context {B : Browser}.

(** When no script yields a client id, [init] stops at its first
    statement and [clientId] stays unassigned. *)
Lemma init_clientId_not_found (w : page) :
  all_yield_nothing (trace w) script_srcs ->
  init_clientId w
  = (Throw CredentialNotFound, after (script_requests script_srcs) w).
Proof.
  intros H. unfold init_clientId. apply bind_throw.
  unfold scrapeClientId. rewrite <- (app_nil_r script_srcs) at 1.
  now rewrite (scrapeClientId_loop_pass _ _ _ H).
Qed.

End Init.

(** ** Further properties of the selection *)

(** X1. On a track with no high-quality direct file but with a
    standard-quality one, the selection returns the first
    standard-quality direct file. *)
Theorem selectTranscoding_falls_back_to_sq (trackObj : value) (ts : list value) :
  track_renditions trackObj ts ->
  Forall (fun t => ~ (direct_file t /\ has_quality "hq" t)) ts ->
  (exists s, In s ts /\ direct_file s /\ has_quality "sq" s) ->
  exists pre t post,
    ts = (pre ++ t :: post)%list /\
    Forall (fun x => ~ (direct_file x /\ has_quality "sq" x)) pre /\
    direct_file t /\ has_quality "sq" t /\
    selectTranscoding trackObj = Ok t.
Proof.
  intros H Hnohq (s & Hin & Hd & Hq).
  assert (pickTranscoding trackObj "hq" = Ok VNull) as Hhq.
  { rewrite (pickTranscoding_renditions _ _ _ H).
    destruct H as (_ & _ & _ & Hr).
    apply pickTranscoding_loop_none; [assumption|].
    now apply Forall_picks_false. }
  destruct (pickTranscoding_cases trackObj ts "sq" H)
    as [[Hnone _]|(pre & t & post & -> & Hpre & Ht & Hpick)].
  - exfalso. rewrite Forall_forall in Hnone. specialize (Hnone s Hin).
    apply picks_false in Hnone. tauto.
  - exists pre, t, post. apply picks_true in Ht as [Htd Htq].
    repeat split; auto.
    + now apply Forall_picks_false.
    + unfold selectTranscoding. rewrite Hhq. simpl. exact Hpick.
Qed.

(** X2. On a track with renditions, the selection is [null] exactly when
    no rendition is a direct file of high or standard quality; a direct
    file of any other quality does not count, and
    [downloadTrackTranscoding] then throws without sending anything. *)
Theorem selectTranscoding_null_iff {B : Browser}
        (trackObj : value) (ts : list value) :
  track_renditions trackObj ts ->
  (selectTranscoding trackObj = Ok VNull <->
   Forall (fun t => ~ (direct_file t /\
                       (has_quality "hq" t \/ has_quality "sq" t))) ts) /\
  (Forall (fun t => ~ (direct_file t /\
                       (has_quality "hq" t \/ has_quality "sq" t))) ts ->
   forall authToken w,
     downloadTrackTranscoding trackObj authToken w
     = (Throw NoEligibleRendition, w)).
Proof.
  intros H.
  assert (selectTranscoding trackObj = Ok VNull <->
          Forall (fun t => ~ (direct_file t /\
                              (has_quality "hq" t \/ has_quality "sq" t))) ts)
    as Hiff.
  { unfold selectTranscoding. split.
    - intros Hsel.
      destruct (pickTranscoding_cases trackObj ts "hq" H)
        as [[Hhq Ehq]|(pre & t & post & -> & _ & Ht & Ehq)]; rewrite Ehq in Hsel;
        simpl in Hsel.
      + destruct (pickTranscoding_cases trackObj ts "sq" H)
          as [[Hsq Esq]|(pre & t & post & -> & _ & Ht & Esq)].
        * rewrite Forall_forall in *. intros t Hin [Hd [Hq|Hq]].
          -- specialize (Hhq t Hin). apply picks_false in Hhq. tauto.
          -- specialize (Hsq t Hin). apply picks_false in Hsq. tauto.
        * rewrite Esq in Hsel. injection Hsel as ->.
          apply picks_true in Ht as [Hd _].
          destruct (direct_file_object _ Hd) as [props Hp]. discriminate.
      + apply picks_true in Ht as [Hd _].
        destruct (direct_file_object _ Hd) as [props ->]. discriminate.
    - intros Hnone.
      assert (forall q, q = "hq" \/ q = "sq" ->
                        pickTranscoding trackObj q = Ok VNull) as Hpick.
      { intros q Hq. rewrite (pickTranscoding_renditions _ _ _ H).
        destruct H as (_ & _ & _ & Hr).
        apply pickTranscoding_loop_none; [assumption|].
        apply Forall_picks_false. eapply Forall_impl; [|exact Hnone].
        intros t Ht [Hd Hqt]. apply Ht. split; [assumption|].
        destruct Hq as [->| ->]; auto. }
      rewrite (Hpick "hq") by auto. simpl. apply Hpick. auto. }
  split; [exact Hiff|].
  intros Hnone authToken w. apply Hiff in Hnone.
  unfold downloadTrackTranscoding. now rewrite (bind_lift_ok _ _ _ _ Hnone).
Qed.

(** X3. Entries are examined in order.  Once an entry is picked, what
    follows it is not looked at, whatever it is; an entry without a
    format that comes before any pick makes [pickTranscoding] throw, even
    when a later entry would have been picked. *)
Theorem pickTranscoding_in_order
        (trackObj media : value) (pre post : list value) (x : value)
        (quality : string) :
  get_prop trackObj "media" = Ok media ->
  get_prop media "transcodings" = Ok (VArr (pre ++ x :: post)) ->
  Forall is_rendition pre ->
  Forall (fun t => ~ (direct_file t /\ has_quality quality t)) pre ->
  (direct_file x /\ has_quality quality x ->
   pickTranscoding trackObj quality = Ok x) /\
  (forall e, protocol_of x = Throw e ->
             pickTranscoding trackObj quality = Throw e).
Proof.
  intros Hm Ht Hr Hn. apply Forall_picks_false in Hn.
  unfold pickTranscoding. rewrite Hm. simpl. rewrite Ht. simpl. split.
  - intros Hx. apply pickTranscoding_loop_first; auto. now apply picks_true.
  - intros e He. clear Hm Ht.
    induction Hr as [|y pre Hy _ IH]; simpl app.
    + simpl. unfold protocol_of in He.
      destruct (get_prop x "format") as [f|]; simpl in *; [|congruence].
      now rewrite He.
    + inversion Hn; subst.
      rewrite pickTranscoding_loop_cons by assumption.
      replace (picks quality y) with false by congruence. auto.
Qed.

(** ** Further properties of the download *)

Section Download.
Context {B : Browser}.

(** X4. When the resolved track object is not downloadable, or has no
    downloads left, [downloadTrack] continues as
    [downloadTrackTranscoding] on the track object, with the session
    token of the page it started on. *)
Theorem downloadTrack_transcoding_path
        (trackUrl : string) (w w1 : page) (trackObj d : value) :
  fetchAuthorizedJson resolve_endpoint (session_token w)
                      (resolve_args trackUrl) w = (Ok trackObj, w1) ->
  get_prop trackObj "downloadable" = Ok d ->
  (truthy d = false \/
   exists l, get_prop trackObj "has_downloads_left" = Ok l /\ truthy l = false) ->
  downloadTrack trackUrl w
  = downloadTrackTranscoding trackObj (session_token w) w1.
Proof.
  intros Hres Hd Hflags.
  rewrite downloadTrack_run. rewrite (bind_ok _ _ _ _ _ Hres).
  rewrite (bind_lift_ok _ _ _ _ Hd).
  destruct (truthy d) eqn:Hdt.
  - destruct Hflags as [Hf|(l & Hl & Hlt)]; [discriminate|].
    unfold bind at 1. rewrite (bind_lift_ok _ _ _ _ Hl). unfold ret.
    now rewrite Hlt.
  - reflexivity.
Qed.

(** X5. However the resolve call fails (the request is rejected, the
    status is outside 200..299, or the body is not JSON), [downloadTrack]
    throws that failure, and the resolve request is all it has done. *)
Theorem downloadTrack_resolve_failure
        (trackUrl : string) (w : page) (u : string) (h : headers) (e : exn) :
  api_request resolve_endpoint (session_token w) (resolve_args trackUrl) w
  = Ok (u, h) ->
  settle u (fetch_response (trace w) u (Some h)) = Throw e ->
  downloadTrack trackUrl w = (Throw e, after [EFetch u (Some h)] w).
Proof.
  intros Hreq Hfail. rewrite downloadTrack_run. apply bind_throw.
  now rewrite fetchAuthorizedJson_run, Hreq, Hfail.
Qed.

(** X6. The response to the fetch of the final URL is saved whatever its
    status: when its body can be read, the run returns and has saved the
    body under the file name, also for a status outside 200..299. *)
Theorem downloadTrackTranscoding_saves_any_status
        (trackObj authToken : value) (w w1 : page) (finalUrl filename : string)
        (resp : response) (b : string) :
  reaches_fetch trackObj authToken w w1 finalUrl filename ->
  fetch_response (trace w1) finalUrl None = Ok resp ->
  blob resp = Ok b ->
  downloadTrackTranscoding trackObj authToken w
  = (Ok tt,
     after [EFetch finalUrl None;
            EDownload (createObjectURL (trace w1 ++ [EFetch finalUrl None]) b)
                      filename] w1).
Proof.
  intros H Hresp Hb.
  rewrite (downloadTrackTranscoding_from_fetch _ _ _ _ _ _ H).
  now rewrite Hresp, Hb.
Qed.

(** X7. [downloadNative] does not check that the answer of the API has a
    redirectUri: when the answer is an object without one, the link that
    is clicked has the [href] "undefined". *)
Theorem downloadNative_missing_redirectUri
        (trackId : value) (w : page) (id u : string) (h : headers)
        (resp : response) (props : object) :
  to_string trackId = Ok id ->
  api_request (VStr ("https://api-v2.soundcloud.com/tracks/" ++ id ++ "/download"))
              VNull None w = Ok (u, h) ->
  fetch_response (trace w) u (Some h) = Ok resp ->
  ok resp = true ->
  json resp = Ok (VObj props) ->
  lookup "redirectUri" props = None ->
  downloadNative trackId w
  = (Ok tt, after [EFetch u (Some []); EDownload "undefined" "undefined"] w).
Proof.
  intros Hid Hreq Hresp Hok Hjson Hmiss.
  assert (h = []) as ->.
  { unfold api_request in Hreq. simpl in Hreq.
    destruct (withQuery _ _); simpl in Hreq; congruence. }
  unfold downloadNative. rewrite (bind_lift_ok _ _ _ _ Hid).
  assert (fetchAuthorizedJson
            (VStr ("https://api-v2.soundcloud.com/tracks/" ++ id ++ "/download"))
            VNull None w
          = (Ok (VObj props), after [EFetch u (Some [])] w)) as Hcall.
  { rewrite fetchAuthorizedJson_run, Hreq, Hresp. simpl. now rewrite Hok, Hjson. }
  rewrite (bind_ok _ _ _ _ _ Hcall).
  unfold downloadUrl, bind, lift. simpl. rewrite Hmiss. simpl.
  unfold log, after. simpl. now rewrite <- app_assoc.
Qed.

End Download.

(** ** Further properties of the file name *)

(** X8. For a track whose title is a string, the name [getTrackName]
    returns is a string that contains " - ". *)
Theorem getTrackName_has_separator (trackObj name : value) (title : string) :
  get_prop trackObj "title" = Ok (VStr title) ->
  getTrackName trackObj = Ok name ->
  exists s, name = VStr s /\ contains " - " s.
Proof.
  intros Ht. unfold getTrackName. rewrite Ht. simpl.
  destruct (includes " - " title) eqn:Hinc; simpl.
  - intros [= <-]. exists title. split; [reflexivity|].
    now apply includes_contains.
  - destruct (get_prop trackObj "user") as [user|]; simpl; [|discriminate].
    destruct (get_prop user "username") as [artist|]; simpl; [|discriminate].
    destruct (to_string artist) as [a|]; simpl; [|discriminate].
    intros [= <-]. eexists. split; [reflexivity|]. now exists a, title.
Qed.

Lemma lastIndexOf_from_cons (sub : string) (c : ascii) (s : string) (i : nat) :
  lastIndexOf_from sub (String c s) i =
  match lastIndexOf_from sub s (S i) with
  | Some j => Some j
  | None => if String.prefix sub (String c s) then Some i else None
  end.
Proof. reflexivity. Qed.

Lemma prefix_dot (c : ascii) (s : string) :
  String.prefix "." (String c s) = Ascii.eqb c ".".
Proof.
  destruct (Ascii.eqb_spec c ".") as [->|Hc].
  - apply prefix_app. now exists s.
  - destruct (String.prefix "." (String c s)) eqn:Hp; [|reflexivity].
    apply prefix_app in Hp as [r Hr]. simpl in Hr. congruence.
Qed.

Lemma lastIndexOf_from_no_dot (s : string) (i : nat) :
  string_forall not_dot s = true -> lastIndexOf_from "." s i = None.
Proof.
  revert i; induction s as [|c s IH]; intros i H; [reflexivity|].
  simpl in H. apply andb_true_iff in H as [Hc Hs].
  rewrite lastIndexOf_from_cons, (IH _ Hs), prefix_dot.
  unfold not_dot in Hc. apply negb_true_iff in Hc. now rewrite Hc.
Qed.

Lemma lastIndexOf_from_last_dot (pre e : string) (i : nat) :
  string_forall not_dot e = true ->
  lastIndexOf_from "." (pre ++ String "." e) i = Some (i + String.length pre).
Proof.
  intros He. revert i; induction pre as [|c pre IH]; intros i.
  - change ("" ++ String "." e) with (String "." e).
    rewrite lastIndexOf_from_cons, (lastIndexOf_from_no_dot _ _ He), prefix_dot.
    simpl. now rewrite Nat.add_0_r.
  - change (String c pre ++ String "." e) with (String c (pre ++ String "." e)).
    rewrite lastIndexOf_from_cons, IH. simpl. f_equal. lia.
Qed.

Lemma substring_all (s : string) (n : nat) :
  String.length s <= n -> String.substring 0 n s = s.
Proof.
  revert n; induction s as [|c s IH]; intros n H.
  - now destruct n.
  - destruct n as [|n]; simpl in *; [lia|]. rewrite IH; [reflexivity | lia].
Qed.

Lemma substring_skip (a b : string) (n : nat) :
  String.substring (String.length a) n (a ++ b) = String.substring 0 n b.
Proof. induction a as [|c a IH]; simpl; [reflexivity | exact IH]. Qed.

Lemma length_append (a b : string) :
  String.length (a ++ b) = String.length a + String.length b.
Proof. induction a as [|c a IH]; simpl; [reflexivity | now rewrite IH]. Qed.

(** X9. The extension is what follows the last dot of the path: it is
    [e] for a path that ends in a dot and a dot-free [e]; for a path
    without a dot it is the whole path. *)
Theorem extension_after_last_dot (pre e path : string) :
  (string_forall not_dot e = true -> extension (pre ++ "." ++ e) = e) /\
  (string_forall not_dot path = true -> extension path = path).
Proof.
  unfold extension, lastIndexOf, substring_from. split; intros H.
  - change (pre ++ "." ++ e) with (pre ++ String "." e).
    rewrite (lastIndexOf_from_last_dot _ _ _ H). simpl.
    replace (Z.to_nat (Z.of_nat (String.length pre) + 1))
      with (String.length (pre ++ ".")) by (rewrite length_append; simpl; lia).
    replace (pre ++ String "." e) with ((pre ++ ".") ++ e).
    + rewrite substring_skip. apply substring_all.
      rewrite !length_append. lia.
    + clear. induction pre as [|c pre IH]; simpl; [reflexivity | now rewrite IH].
  - rewrite (lastIndexOf_from_no_dot _ _ H). simpl. now apply substring_all.
Qed.

(** ** Further properties of the cookie *)

Lemma split_semicolon_cons (s : string) :
  exists e es, split_semicolon s = e :: es.
Proof.
  induction s as [|c s (e & es & IH)]; simpl; [eauto|].
  destruct (is_semicolon c); [eauto|]. rewrite IH. eauto.
Qed.

Lemma split_semicolon_hd (s : string) :
  hd "" (split_semicolon s) = take_while not_semicolon s.
Proof.
  induction s as [|c s IH]; simpl; [reflexivity|].
  unfold not_semicolon at 1.
  destruct (is_semicolon c); simpl; [reflexivity|].
  destruct (split_semicolon_cons s) as (e & es & Hs). rewrite Hs in *.
  simpl in *. now rewrite IH.
Qed.

Lemma strip_prefix_take_while (p s : string) :
  string_forall not_semicolon p = true ->
  strip_prefix p (take_while not_semicolon s)
  = option_map (take_while not_semicolon) (strip_prefix p s).
Proof.
  revert s; induction p as [|a p IH]; intros s Hp; [reflexivity|].
  simpl in Hp. apply andb_true_iff in Hp as [Ha Hp].
  destruct s as [|b s]; [reflexivity|]. simpl.
  destruct (Ascii.eqb_spec a b) as [->|Hab].
  - rewrite Ha. simpl. rewrite Ascii.eqb_refl. now apply IH.
  - destruct (not_semicolon b); simpl; [|reflexivity].
    destruct (Ascii.eqb_spec a b); [contradiction | reflexivity].
Qed.

Lemma string_forall_app (f : ascii -> bool) (a b : string) :
  string_forall f (a ++ b) = string_forall f a && string_forall f b.
Proof.
  induction a as [|c a IH]; simpl; [reflexivity|].
  now rewrite IH, andb_assoc.
Qed.

Lemma cookie_after_sep_entry (key s : string) :
  string_forall not_semicolon key = true ->
  (forall r, key <> String " " r) ->
  cookie_after_sep key s = entry_value key (take_while not_semicolon s).
Proof.
  intros Hkey Hblank.
  assert (string_forall not_semicolon (key ++ "=") = true) as Hp.
  { rewrite string_forall_app, Hkey. reflexivity. }
  assert (forall r, strip_prefix (key ++ "=") (String " " r) = None) as Hsp.
  { intros r. destruct key as [|a key]; simpl; [reflexivity|].
    destruct (Ascii.eqb_spec a " ") as [->|_]; [|reflexivity].
    exfalso. now apply (Hblank key). }
  assert (forall s0,
            match strip_prefix (key ++ "=") s0 with
            | Some rest =>
                match take_while (fun c => negb (is_semicolon c)) rest with
                | "" => None
                | g => Some g
                end
            | None => None
            end
            = match strip_prefix (key ++ "=") (take_while not_semicolon s0) with
              | Some v => if String.eqb v "" then None else Some v
              | None => None
              end) as Hhere.
  { intros s0. rewrite (strip_prefix_take_while _ _ Hp).
    destruct (strip_prefix (key ++ "=") s0) as [rest|]; simpl; [|reflexivity].
    fold not_semicolon. now destruct (take_while not_semicolon rest). }
  unfold entry_value.
  induction s as [|c s IH]; rewrite cookie_after_sep_unfold, Hhere.
  - simpl. now destruct (strip_prefix (key ++ "=") "") as [[|? ?]|].
  - destruct (is_space c) eqn:Hc.
    + apply Ascii.eqb_eq in Hc. subst c.
      change (take_while not_semicolon (String " " s))
        with (String " " (take_while not_semicolon s)).
      rewrite Hsp. rewrite IH. reflexivity.
    + assert (drop_blanks (take_while not_semicolon (String c s))
              = take_while not_semicolon (String c s)) as ->.
      { simpl. destruct (not_semicolon c); simpl; [now rewrite Hc | reflexivity]. }
      clear IH.
      destruct (strip_prefix (key ++ "=")
                  (take_while not_semicolon (String c s))) as [v|];
        [|reflexivity].
      now destruct (String.eqb v "").
Qed.

Lemma cookie_scan_entries (key s : string) :
  string_forall not_semicolon key = true ->
  (forall r, key <> String " " r) ->
  cookie_scan key s = first_some (entry_value key) (tl (split_semicolon s)).
Proof.
  intros Hkey Hblank. induction s as [|c s IH]; simpl; [reflexivity|].
  destruct (split_semicolon_cons s) as (e & es & Hs).
  destruct (is_semicolon c); simpl.
  - rewrite (cookie_after_sep_entry _ _ Hkey Hblank), <- split_semicolon_hd.
    rewrite IH, Hs. reflexivity.
  - rewrite IH, Hs. reflexivity.
Qed.

(** X10. For a key that has no syntax character of regular expressions
    and no semicolon and does not start with a blank, [getCookie] returns
    the value of the first cookie of that name whose value is not empty,
    reading the cookie string as entries separated by semicolons; it
    returns [null] when there is none.  The page is left as it is. *)
Theorem getCookie_first_named (key : string) (w : page) :
  literal_key key ->
  string_forall not_semicolon key = true ->
  (forall r, key <> String " " r) ->
  getCookie key w
  = (Ok match cookie_named key (document_cookie w) with
        | Some v => VStr v
        | None => VNull
        end, w).
Proof.
  intros _ Hkey Hblank.
  assert (cookie_match key (document_cookie w)
          = cookie_named key (document_cookie w)) as Heq.
  { unfold cookie_match, cookie_named.
    rewrite (cookie_after_sep_entry _ _ Hkey Hblank), <- split_semicolon_hd.
    rewrite (cookie_scan_entries _ _ Hkey Hblank).
    destruct (split_semicolon_cons (document_cookie w)) as (e & es & ->).
    reflexivity. }
  unfold getCookie, get_document_cookie, bind. rewrite Heq.
  now destruct (cookie_named key (document_cookie w)).
Qed.

(** X11. For a key that has no syntax character of regular expressions,
    what [getCookie] returns is [null] or a value of the cookie string: a
    non-empty run without a semicolon that follows the key and an equals
    sign, where the key stands at the front or after a semicolon, blanks
    aside.  In particular a cookie whose name only ends in the key is not
    taken for it. *)
Theorem getCookie_value (key : string) (w : page) :
  literal_key key ->
  getCookie key w = (Ok VNull, w) \/
  exists g,
    getCookie key w = (Ok (VStr g), w) /\
    cookie_value key (document_cookie w) g.
Proof.
  intros _. unfold getCookie, get_document_cookie, bind.
  destruct (cookie_match key (document_cookie w)) as [g|] eqn:Hm.
  - right. exists g. split; [reflexivity|]. now apply cookie_match_sound.
  - now left.
Qed.

(** ** Further properties of the client id *)

Section ScrapeMore.
Context {B : Browser}.

(** X12. Reading the text of a fetched script is not guarded: when it
    fails for the first script that does not simply yield nothing, the
    search throws that failure, whatever the scripts after it hold. *)
Theorem scrapeClientId_text_failure
        (w : page) (pre post : list string) (src : string) (resp : response)
        (e : exn) :
  script_srcs = (pre ++ src :: post)%list ->
  all_yield_nothing (trace w) pre ->
  src <> "" ->
  fetch_response (trace w ++ script_requests pre) src None = Ok resp ->
  text resp = Throw e ->
  scrapeClientId w = (Throw e, after (script_requests (pre ++ [src])) w).
Proof.
  intros Hs Hpre Hsrc Hresp Ht. unfold scrapeClientId. rewrite Hs.
  rewrite (scrapeClientId_loop_pass _ _ _ Hpre). simpl.
  destruct (String.eqb_spec src "") as [->|_]; [contradiction|].
  unfold bind at 1. unfold try_catch, fetch, bind, lift. simpl.
  rewrite Hresp. simpl. rewrite Ht.
  assert (script_requests [src] = [EFetch src None]) as Hreq.
  { unfold script_requests, external. simpl.
    destruct (String.eqb_spec src "") as [->|_]; [contradiction | reflexivity]. }
  unfold log. rewrite script_requests_app, Hreq.
  unfold after. simpl. now rewrite app_assoc.
Qed.

Lemma scrapeClientId_loop_token (scripts : list string) (w : page) :
  (exists evs, snd (scrapeClientId_loop scripts w) = after evs w) /\
  forall v, fst (scrapeClientId_loop scripts w) = Ok v ->
            exists id, v = VStr id /\ String.length id = 32 /\
                       string_forall is_alnum id = true.
Proof.
  revert w; induction scripts as [|src rest IH]; intros w.
  - simpl. split; [exists []; symmetry; apply after_nil | discriminate].
  - simpl. destruct (String.eqb src ""); [apply IH|].
    unfold bind at 1. unfold try_catch, fetch, bind, lift. simpl.
    assert (forall w1, w1 = after [EFetch src None] w ->
              (exists evs, snd (scrapeClientId_loop rest w1) = after evs w) /\
              forall v, fst (scrapeClientId_loop rest w1) = Ok v ->
                        exists id, v = VStr id /\ String.length id = 32 /\
                                   string_forall is_alnum id = true) as Hrest.
    { intros w1 ->. destruct (IH (after [EFetch src None] w)) as [(evs & He) Hv].
      split; [|exact Hv]. exists ([EFetch src None] ++ evs)%list.
      rewrite He. apply after_after. }
    destruct (fetch_response (trace w) src None) as [resp|e]; simpl.
    + destruct (text resp) as [t|e]; simpl.
      * destruct (client_id_match t) as [id|] eqn:Hm.
        -- split; [now exists [EFetch src None]|]. intros v [= <-].
           exists id. split; [reflexivity|].
           apply client_id_match_first in Hm.
           eapply first_client_id_token; eauto.
        -- now apply Hrest.
      * split; [now exists [EFetch src None] | discriminate].
    + now apply Hrest.
Qed.

(** X13. The first statement of [init] changes neither the cookie nor
    the preferences.  When it succeeds, [clientId] holds a token of 32
    alphanumeric characters; when it fails, [clientId] is what it was. *)
Theorem init_clientId_assigns_token (w : page) :
  document_cookie (snd (init_clientId w)) = document_cookie w /\
  storage_sync (snd (init_clientId w)) = storage_sync w /\
  match fst (init_clientId w) with
  | Ok _ =>
      exists id, clientId (snd (init_clientId w)) = VStr id /\
                 String.length id = 32 /\ string_forall is_alnum id = true
  | Throw _ => clientId (snd (init_clientId w)) = clientId w
  end.
Proof.
  unfold init_clientId, scrapeClientId, bind.
  destruct (scrapeClientId_loop_token script_srcs w) as [(evs & He) Hv].
  destruct (scrapeClientId_loop script_srcs w) as [[v|e] w1]; simpl in *.
  - subst w1. repeat split.
    destruct (Hv v eq_refl) as (id & -> & Hid). now exists id.
  - subst w1. repeat split.
Qed.

End ScrapeMore.

(** ** The options page *)

Lemma lookup_storage_set (key : string) (v : value) (w : page) :
  lookup key (storage_sync (snd (storage_sync_set key v w))) = Some v.
Proof. simpl. now rewrite String.eqb_refl. Qed.

(** X14. The preference written by the change handler is the one read
    back: after a change to the radio button with value [v], the options
    page shows "0" when [v] is "0" and "1" otherwise, and the content
    script works with the cookie's token exactly in the second case.  On
    a profile where the preference was never written, the options page
    shows "0". *)
Theorem options_round_trip (v : string) (w : page) :
  let w' := snd (onEnableHQChange v w) in
  options_init w' = (Ok (if String.eqb v "0" then "0" else "1"), w') /\
  session_token w' = (if String.eqb v "0" then VNull else cookie_token w) /\
  (lookup "enableHQ" (storage_sync w) = None -> options_init w = (Ok "0", w)).
Proof.
  unfold onEnableHQChange, options_init, storage_sync_get, bind, lift, ret.
  simpl. split; [|split].
  - now destruct (String.eqb v "0").
  - unfold session_token, enableHQ_setting, cookie_token. simpl.
    now destruct (String.eqb v "0").
  - intros ->. reflexivity.
Qed.

Section Preference.
Context {B : Browser}.

(** X15. After the preference was switched off on the options page, no
    request of [downloadTrack] has a header, whatever the cookie. *)
Theorem downloadTrack_after_switch_off (trackUrl : string) (w : page) :
  let w' := snd (onEnableHQChange "0" w) in
  exists evs,
    snd (downloadTrack trackUrl w') = after evs w' /\
    forall url h, In (EFetch url (Some h)) evs -> h = [].
Proof.
  intros w'.
  assert (session_token w' = VNull) as Htok by reflexivity.
  destruct (emits_at_downloadTrack
              (fun init => forall h, init = Some h -> h = []) trackUrl w')
    as (evs & Hw & HQ).
  - rewrite Htok. simpl. intros h [= <-] h' [= <-]. reflexivity.
  - intros h [= <-]. reflexivity.
  - intros h [=].
  - exists evs. split; [exact Hw|]. intros url h Hin. exact (HQ _ _ Hin h eq_refl).
Qed.

(** X16. After the preference was switched on, with an oauth_token
    cookie on the page, the resolve request carries the cookie's value as
    its Authorization header. *)
Theorem downloadTrack_after_switch_on
        (v trackUrl tok u : string) (h : headers) (w : page) :
  let w' := snd (onEnableHQChange v w) in
  v <> "0" ->
  cookie_match "oauth_token" (document_cookie w) = Some tok ->
  api_request resolve_endpoint (session_token w') (resolve_args trackUrl) w'
  = Ok (u, h) ->
  h = [("Authorization", "OAuth " ++ tok)] /\
  exists evs,
    trace (snd (downloadTrack trackUrl w'))
    = (trace w ++ EFetch u (Some h) :: evs)%list.
Proof.
  intros w' Hv Hc Hreq.
  assert (session_token w' = VStr tok) as Htok.
  { unfold w', session_token, enableHQ_setting, cookie_token, onEnableHQChange.
    simpl. apply String.eqb_neq in Hv. rewrite Hv. simpl. now rewrite Hc. }
  assert (h = [("Authorization", "OAuth " ++ tok)]) as Hh.
  { rewrite Htok in Hreq. unfold api_request in Hreq. simpl in Hreq.
    destruct (withQuery _ _); simpl in Hreq; [|discriminate].
    injection Hreq as _ <-. reflexivity. }
  split; [exact Hh|].
  rewrite downloadTrack_run.
  match goal with |- context [bind _ ?K w'] => set (k := K) end.
  assert (forall t, emits (fun _ => True) (k t)) as Hk.
  { intros t. unfold k.
    apply emits_bind; [apply emits_lift|]; intros d.
    apply emits_bind.
    - destruct (truthy d); [|apply emits_ret].
      apply emits_bind; [apply emits_lift|]; intros l. apply emits_ret.
    - intros [|].
      + apply emits_bind; [apply emits_lift|]; intros id.
        now apply emits_downloadNative.
      + now apply emits_downloadTrackTranscoding. }
  unfold bind. rewrite fetchAuthorizedJson_run, Hreq.
  destruct (settle u _) as [trackObj|e].
  - destruct (Hk trackObj (log (EFetch u (Some h)) w')) as (evs & He & _).
    exists evs. rewrite He. simpl. now rewrite <- app_assoc.
  - exists []. reflexivity.
Qed.

(** X17. A click on the download button runs [downloadTrack] and passes
    its outcome on.  At the end the button is not marked as selected and
    its other classes are as before; it reads "Download" and nothing is
    alerted when the download returned, and it reads "Failed :-(" and the
    error is alerted when the download threw. *)
Theorem button_onclick_outcome (trackUrl : string) (b : button) (w : page) :
  let '(r, w', b', alerts) := button_onclick trackUrl b w in
  (r, w') = downloadTrack trackUrl w /\
  classList b' = classList_remove "sc-button-selected" (classList b) /\
  match r with
  | Ok _ => innerText b' = "Download" /\ alerts = []
  | Throw ex => innerText b' = "Failed :-(" /\ alerts = [exn_toString ex]
  end.
Proof.
  assert (classList_remove "sc-button-selected"
            (classList_add "sc-button-selected" (classList b))
          = classList_remove "sc-button-selected" (classList b)) as Hcl.
  { unfold classList_add, classList_remove.
    destruct (existsb _ (classList b)); [reflexivity|].
    rewrite filter_app. simpl. apply app_nil_r. }
  unfold button_onclick.
  destruct (downloadTrack trackUrl w) as [[[]|ex] w']; simpl; auto.
Qed.

(** X18. When the resolve request is answered with a status outside
    200..299, a click leaves the button reading "Failed :-(" and alerts
    "Error: Request to <url> failed with result <status>". *)
Theorem button_onclick_resolution_failed
        (trackUrl : string) (b : button) (w : page) (u : string) (h : headers)
        (resp : response) :
  api_request resolve_endpoint (session_token w) (resolve_args trackUrl) w
  = Ok (u, h) ->
  fetch_response (trace w) u (Some h) = Ok resp ->
  (status resp < 200 \/ 299 < status resp)%Z ->
  button_onclick trackUrl b w
  = (Throw (ResolutionFailed u resp), after [EFetch u (Some h)] w,
     {| innerText := "Failed :-(";
        classList := classList_remove "sc-button-selected"
                       (classList_add "sc-button-selected" (classList b)) |},
     ["Error: Request to " ++ u ++ " failed with result " ++ status_string resp]).
Proof.
  intros Hreq Hresp Hstatus. apply ok_false in Hstatus.
  assert (downloadTrack trackUrl w
          = (Throw (ResolutionFailed u resp), after [EFetch u (Some h)] w)) as Hrun.
  { rewrite downloadTrack_run. apply bind_throw.
    rewrite fetchAuthorizedJson_run, Hreq, Hresp. simpl. now rewrite Hstatus. }
  unfold button_onclick. rewrite Hrun. simpl.
  destruct (String.eqb_spec ("Request to " ++ u ++ " failed with result "
                             ++ status_string resp) ""); [discriminate|].
  reflexivity.
Qed.

End Preference.

(** ** The elements of the page *)

Lemma matching_paths_unfold (cls : string) (a : element_props) (cs : list node) :
  matching_paths cls (Element a cs)
  = ((if has_class cls (Element a cs) then [[]] else [])
     ++ children_paths cls cs 0)%list.
Proof.
  simpl. f_equal. generalize 0.
  induction cs as [|c cs IH]; intros i; simpl; [reflexivity|]. now rewrite IH.
Qed.

Lemma node_at_app (n : node) (p q : list nat) :
  node_at n (p ++ q)
  = match node_at n p with
    | Some m => node_at m q
    | None => None
    end.
Proof.
  revert n; induction p as [|i p IH]; intros n; simpl; [reflexivity|].
  destruct n as [d|a cs]; [reflexivity|].
  destruct (nth_error cs i); [apply IH | reflexivity].
Qed.

Lemma children_paths_in (cls : string) (cs : list node) (i : nat) (p : list nat) :
  In p (children_paths cls cs i) ->
  exists k p' c,
    p = (i + k) :: p' /\ nth_error cs k = Some c /\
    In p' (matching_paths cls c).
Proof.
  revert i; induction cs as [|c cs IH]; intros i; simpl; [intros []|].
  intros H. apply in_app_or in H as [H|H].
  - apply in_map_iff in H as (p' & <- & Hp').
    exists 0, p', c. rewrite Nat.add_0_r. auto.
  - apply IH in H as (k & p' & c' & -> & Hk & Hp').
    exists (S k), p', c'. repeat split; auto. f_equal. lia.
Qed.

Lemma matching_paths_sound (cls : string) (n : node) (p : list nat) :
  In p (matching_paths cls n) ->
  exists t, node_at n p = Some t /\ has_class cls t = true.
Proof.
  revert p; induction n as [d|a cs IH] using node_ind'; intros p.
  - simpl. intros [].
  - rewrite matching_paths_unfold. intros H. apply in_app_or in H as [H|H].
    + destruct (has_class cls (Element a cs)) eqn:Hc; [|destruct H].
      destruct H as [<-|[]]. exists (Element a cs). auto.
    + apply children_paths_in in H as (k & p' & c & -> & Hk & Hp').
      rewrite Forall_forall in IH.
      destruct (IH c (nth_error_In _ _ Hk) p' Hp') as (t & Ht & Hcls).
      exists t. simpl. rewrite Hk. auto.
Qed.

Lemma querySelectorAll_sound (cls : string) (n : node) (p : list nat) :
  In p (querySelectorAll cls n) ->
  p <> [] /\ exists t, node_at n p = Some t /\ has_class cls t = true.
Proof.
  destruct n as [d|a cs]; simpl; [intros []|]. intros H.
  apply children_paths_in in H as (k & p' & c & -> & Hk & Hp').
  split; [discriminate|].
  destruct (matching_paths_sound _ _ _ Hp') as (t & Ht & Hcls).
  exists t. simpl. rewrite Hk. auto.
Qed.

Lemma querySelector_sound (cls : string) (n : node) (p : list nat) :
  querySelector cls n = Some p ->
  p <> [] /\ exists t, node_at n p = Some t /\ has_class cls t = true.
Proof.
  unfold querySelector. intros H. apply querySelectorAll_sound.
  destruct (querySelectorAll cls n); [discriminate|].
  injection H as ->. now left.
Qed.

Lemma has_class_element (cls : string) (t : node) :
  has_class cls t = true -> exists a cs, t = Element a cs.
Proof. destruct t; [discriminate | eauto]. Qed.

(** X19. [getTrackUrlForElement] returns the URL of the page, or the
    [href] of a link: an element whose tag is A, that has one of the two
    title classes, and that lies inside the element itself or one of its
    ancestors with one of the four list item classes. *)
Theorem getTrackUrlForElement_result (location_href : string) (elem : list node) :
  getTrackUrlForElement location_href elem = location_href \/
  exists c cc p a cs tc,
    In c elem /\ In cc container_classes /\ has_class cc c = true /\
    p <> [] /\ node_at c p = Some (Element a cs) /\
    In tc title_classes /\ has_class tc (Element a cs) = true /\
    tagName a = "A" /\
    getTrackUrlForElement location_href elem = href a.
Proof.
  unfold getTrackUrlForElement.
  set (container := or_else _ _).
  assert (forall c, container = Some c ->
            In c elem /\ exists cc, In cc container_classes /\
                                    has_class cc c = true) as Hcont.
  { assert (forall cc c, In cc container_classes ->
              find (has_class cc) elem = Some c ->
              In c elem /\ exists cc, In cc container_classes /\
                                      has_class cc c = true) as Hfind.
    { intros cc c Hcc Hf. apply find_some in Hf as [Hin Hc]. eauto. }
    intros c. unfold container, closest, or_else.
    destruct (find (has_class "soundList__item") elem) eqn:H1.
    { intros [= <-]. eapply Hfind; [|exact H1]. simpl. auto. }
    destruct (find (has_class "trackList__item") elem) eqn:H2.
    { intros [= <-]. eapply Hfind; [|exact H2]. simpl. auto. }
    destruct (find (has_class "soundBadgeList__item") elem) eqn:H3.
    { intros [= <-]. eapply Hfind; [|exact H3]. simpl. auto. }
    intros H4. eapply Hfind; [|exact H4]. simpl. auto 6. }
  destruct container as [c|]; [|now left].
  destruct (Hcont c eq_refl) as (Hin & cc & Hcc & Hc).
  set (title := or_else _ _).
  assert (forall t, title = Some t ->
            exists p tc, p <> [] /\ node_at c p = Some t /\
                         In tc title_classes /\ has_class tc t = true) as Htitle.
  { intros t. unfold title, or_else, querySelector_node, title_classes.
    destruct (querySelector "soundTitle__title" c) as [p1|] eqn:H1.
    - destruct (querySelector_sound _ _ _ H1) as (Hne & t1 & Ht1 & Hc1).
      rewrite Ht1. intros [= <-]. exists p1, "soundTitle__title".
      split; [assumption|]. split; [assumption|].
      split; [now left | assumption].
    - destruct (querySelector "trackItem__trackTitle" c) as [p2|] eqn:H2;
        [|discriminate].
      destruct (querySelector_sound _ _ _ H2) as (Hne & t2 & Ht2 & Hc2).
      rewrite Ht2. intros [= <-]. exists p2, "trackItem__trackTitle".
      split; [assumption|]. split; [assumption|].
      split; [right; now left | assumption]. }
  destruct title as [[d|a cs]|]; [now left| |now left].
  destruct (String.eqb_spec (tagName a) "A") as [Htag|_]; [|now left].
  right. destruct (Htitle _ eq_refl) as (p & tc & Hne & Hp & Htc & Hcls).
  exists c, cc, p, a, cs, tc. repeat split; assumption.
Qed.

Section InjectProps.
Context {B : Browser}.

Lemma injectDownloadButton_loop_passed_over
      (location_href : string) (bars : list (list nat)) (root : node) :
  (forall q, In q bars -> passed_over location_href root q) ->
  injectDownloadButton_loop location_href bars root = (Ok tt, root).
Proof.
  induction bars as [|q bars IH]; intros H; [reflexivity|].
  assert (injectDownloadButton_loop location_href bars root = (Ok tt, root))
    as Hrest by (apply IH; intros; apply H; now right).
  destruct (H q (or_introl eq_refl)) as (actionDiv & Hq & Hwhy).
  simpl. rewrite Hq.
  destruct (querySelector "sc-button-download" actionDiv) as [d|] eqn:Hd;
    [exact Hrest|].
  destruct (querySelector "sc-button-like" actionDiv) as [likePath|] eqn:Hl;
    [|exact Hrest].
  destruct Hwhy as [Hwhy|[Hwhy|(u & Hu & Hsets)]]; [congruence|discriminate|].
  destruct (node_at actionDiv likePath) as [[d|like lcs]|]; try exact Hrest.
  unfold new_URL. simpl. rewrite Hu, Hsets. exact Hrest.
Qed.

(** X20. When every action bar under the element has a download button
    already, or has no like button, or belongs to a track URL whose path
    has "/sets/", [injectDownloadButton] returns and the document is as
    it was. *)
Theorem injectDownloadButton_passed_over
        (location_href : string) (root : node) (elem : list nat)
        (a : element_props) (cs : list node) :
  node_at root elem = Some (Element a cs) ->
  (forall q, In q (querySelectorAll "soundActions" (Element a cs)) ->
             passed_over location_href root (elem ++ q)) ->
  injectDownloadButton location_href root elem = (Ok tt, root).
Proof.
  intros Helem H. unfold injectDownloadButton. rewrite Helem.
  apply injectDownloadButton_loop_passed_over.
  intros q Hq. apply in_map_iff in Hq as (q' & <- & Hq'). now apply H.
Qed.

End InjectProps.

Lemma nth_error_update_nth_eq {A} (f : A -> A) (l : list A) (i : nat) (x : A) :
  nth_error l i = Some x -> nth_error (update_nth i f l) i = Some (f x).
Proof.
  revert i; induction l as [|y l IH]; intros [|i]; simpl; try discriminate.
  - now intros [= ->].
  - apply IH.
Qed.

Lemma nth_error_update_nth_neq {A} (f : A -> A) (l : list A) (i j : nat) :
  i <> j -> nth_error (update_nth i f l) j = nth_error l j.
Proof.
  revert i j; induction l as [|y l IH]; intros [|i] [|j] H; simpl;
    try reflexivity; try contradiction.
  apply IH. congruence.
Qed.

Lemma same_node_refl (n : node) : same_node n n.
Proof. now destruct n. Qed.

Lemma same_node_trans (n1 n2 n3 : node) :
  same_node n1 n2 -> same_node n2 n3 -> same_node n1 n3.
Proof. destruct n1, n2, n3; simpl; try tauto; congruence. Qed.

Lemma keeps_nodes_refl (root : node) : keeps_nodes root root.
Proof. intros p n H. exists n. split; [assumption | apply same_node_refl]. Qed.

Lemma keeps_nodes_trans (r1 r2 r3 : node) :
  keeps_nodes r1 r2 -> keeps_nodes r2 r3 -> keeps_nodes r1 r3.
Proof.
  intros H12 H23 p n H. destruct (H12 p n H) as (n2 & H2 & Hs2).
  destruct (H23 p n2 H2) as (n3 & H3 & Hs3).
  exists n3. split; [assumption | eapply same_node_trans; eauto].
Qed.

Lemma appendChild_keeps (parent : list nat) (child root : node) :
  keeps_nodes root (appendChild parent child root).
Proof.
  revert root; induction parent as [|j parent IH]; intros root p n Hp.
  - destruct root as [d|a cs]; [now apply keeps_nodes_refl|].
    destruct p as [|i p]; simpl in *.
    + injection Hp as <-. eexists. split; [reflexivity|]. exact eq_refl.
    + destruct (nth_error cs i) as [c|] eqn:Hi; [|discriminate].
      rewrite nth_error_app1 by (apply nth_error_Some; congruence).
      rewrite Hi. exists n. split; [assumption | apply same_node_refl].
  - destruct root as [d|a cs]; [now apply keeps_nodes_refl|].
    destruct p as [|i p]; simpl in *.
    + injection Hp as <-. eexists. split; [reflexivity|]. exact eq_refl.
    + destruct (nth_error cs i) as [c|] eqn:Hi; [|discriminate].
      destruct (Nat.eq_dec j i) as [->|Hne].
      * rewrite (nth_error_update_nth_eq _ _ _ _ Hi). now apply IH.
      * rewrite (nth_error_update_nth_neq _ _ _ _ Hne), Hi.
        exists n. split; [assumption | apply same_node_refl].
Qed.

Lemma appendChild_last (parent : list nat) (child root : node)
      (pa : element_props) (pcs : list node) :
  node_at root parent = Some (Element pa pcs) ->
  node_at (appendChild parent child root) (parent ++ [List.length pcs])
  = Some child.
Proof.
  revert root; induction parent as [|j parent IH]; intros root H.
  - simpl in H. injection H as ->. simpl.
    rewrite nth_error_app2 by lia. now rewrite Nat.sub_diag.
  - destruct root as [d|a cs]; [discriminate|]. simpl in *.
    destruct (nth_error cs j) as [c|] eqn:Hj; [|discriminate].
    rewrite (nth_error_update_nth_eq _ _ _ _ Hj). now apply IH.
Qed.

Lemma node_at_parent (n t : node) (p : list nat) :
  node_at n p = Some t -> p <> [] ->
  exists pa pcs, node_at n (removelast p) = Some (Element pa pcs).
Proof.
  revert n; induction p as [|i p IH]; intros n H Hne; [contradiction|].
  destruct n as [d|a cs]; [discriminate|].
  destruct p as [|i' p].
  - simpl. eauto.
  - change (removelast (i :: i' :: p)) with (i :: removelast (i' :: p)).
    simpl in H. simpl node_at.
    destruct (nth_error cs i) as [c|]; [|discriminate].
    apply (IH c H). discriminate.
Qed.

(** ** The classes of the button *)

Lemma class_tokens_token (t s : string) :
  token_ok t -> token_end s -> class_tokens (t ++ s) = t :: class_tokens s.
Proof.
  intros [Hne Hok] Hs. induction t as [|c t IH]; [contradiction|].
  simpl in Hok. apply andb_true_iff in Hok as [Hc Hok].
  unfold not_whitespace in Hc. apply negb_true_iff in Hc.
  destruct t as [|c' t].
  - simpl. rewrite Hc.
    destruct Hs as [->|(w & r & -> & Hw)]; [reflexivity|]. now rewrite Hw.
  - assert (class_tokens (String c' t ++ s) = String c' t :: class_tokens s)
      as IH' by (apply IH; [discriminate | assumption]).
    simpl in Hok. apply andb_true_iff in Hok as [Hc' _].
    unfold not_whitespace in Hc'. apply negb_true_iff in Hc'.
    change ((String c (String c' t)) ++ s) with (String c (String c' t ++ s)).
    change (String c' t ++ s) with (String c' (t ++ s)) in *.
    remember (String c' (t ++ s)) as rest eqn:Hrest.
    simpl. rewrite Hc. rewrite Hrest at 1. rewrite Hc'. now rewrite IH'.
Qed.

Lemma class_tokens_ok (s : string) : Forall token_ok (class_tokens s).
Proof.
  induction s as [|c s IH]; [constructor|]. simpl.
  destruct (is_ascii_whitespace c) eqn:Hc; [exact IH|].
  assert (token_ok (String c "")) as Hone.
  { split; [discriminate|]. simpl. unfold not_whitespace. now rewrite Hc. }
  destruct s as [|c' s]; [now constructor|].
  destruct (is_ascii_whitespace c') eqn:Hc'; [now constructor|].
  destruct (class_tokens (String c' s)) as [|t ts]; [now constructor|].
  inversion IH as [|? ? [Hne Hok] Hts]; subst. constructor; [|assumption].
  split; [discriminate|]. simpl. unfold not_whitespace at 1. now rewrite Hc.
Qed.

Lemma append_empty (s : string) : s ++ "" = s.
Proof. induction s as [|c s IH]; simpl; [reflexivity | now rewrite IH]. Qed.

(** Writing a class list out and reading it back gives the list. *)
Lemma class_tokens_serialize (l : list string) :
  Forall token_ok l -> class_tokens (serialize_tokens l) = l.
Proof.
  unfold serialize_tokens. induction 1 as [|t l Ht Hl IH]; [reflexivity|].
  destruct l as [|t' l].
  - simpl. rewrite <- (append_empty t) at 1.
    rewrite class_tokens_token; [reflexivity | assumption | now left].
  - change (String.concat " " (t :: t' :: l))
      with (t ++ String " " (String.concat " " (t' :: l))).
    rewrite class_tokens_token; [|assumption|right; now eauto].
    f_equal. exact IH.
Qed.

Lemma classList_add_in (t x : string) (l : list string) :
  In x (classList_add t l) <-> x = t \/ In x l.
Proof.
  unfold classList_add. destruct (existsb (String.eqb t) l) eqn:He.
  - split; [auto|]. intros [->|H]; [|assumption].
    apply existsb_exists in He as (y & Hy & Heq).
    apply String.eqb_eq in Heq. now subst.
  - rewrite in_app_iff. simpl. intuition.
Qed.

Lemma token_set_in (x s : string) :
  In x (token_set s) <-> In x (class_tokens s).
Proof.
  unfold token_set.
  assert (forall l acc,
            In x (fold_left (fun acc t => classList_add t acc) l acc)
            <-> In x acc \/ In x l) as H.
  { induction l as [|t l IH]; intros acc; simpl; [tauto|].
    rewrite IH, classList_add_in. intuition. }
  rewrite H. simpl. tauto.
Qed.

Lemma make_button_tokens (like : element_props) (trackUrl : string) :
  exists a cs,
    make_button like trackUrl = Element a cs /\
    class_tokens (className a)
    = classList_remove "sc-button-selected"
        (token_set (replace_first "sc-button-like" "sc-button-download"
                                  (className like))).
Proof.
  eexists _, _. split; [reflexivity|]. simpl.
  apply class_tokens_serialize. unfold classList_remove.
  apply Forall_forall. intros x Hx. apply filter_In in Hx as [Hx _].
  apply token_set_in in Hx.
  pose proof (class_tokens_ok
                (replace_first "sc-button-like" "sc-button-download"
                               (className like))) as Hok.
  rewrite Forall_forall in Hok. now apply Hok.
Qed.

Lemma has_class_in (cls : string) (a : element_props) (cs : list node) :
  has_class cls (Element a cs) = true <-> In cls (class_tokens (className a)).
Proof.
  simpl. rewrite existsb_exists. split.
  - intros (x & Hx & Heq). apply String.eqb_eq in Heq. now subst.
  - intros H. exists cls. split; [assumption | apply String.eqb_refl].
Qed.

(** X23. The button that is made is not marked as selected, whatever the
    classes of the like button; and when the class name of the like
    button starts with the token sc-button-like, the button has the class
    sc-button-download. *)
Theorem make_button_classes (like : element_props) (trackUrl rest : string) :
  has_class "sc-button-selected" (make_button like trackUrl) = false /\
  (className like = "sc-button-like" ++ rest -> token_end rest ->
   has_class "sc-button-download" (make_button like trackUrl) = true).
Proof.
  destruct (make_button_tokens like trackUrl) as (a & cs & -> & Htok). split.
  - destruct (has_class "sc-button-selected" (Element a cs)) eqn:H; [|reflexivity].
    apply has_class_in in H. rewrite Htok in H.
    apply filter_In in H as [_ H]. discriminate.
  - intros Hcls Hrest. apply has_class_in. rewrite Htok.
    apply filter_In. split; [|reflexivity]. apply token_set_in.
    rewrite Hcls.
    assert (replace_first "sc-button-like" "sc-button-download"
                          ("sc-button-like" ++ rest)
            = "sc-button-download" ++ rest) as -> by reflexivity.
    rewrite class_tokens_token; [now left| |assumption].
    split; [discriminate | reflexivity].
Qed.

Section InjectMore.
Context {B : Browser}.

Lemma injectDownloadButton_loop_keeps
      (location_href : string) (bars : list (list nat)) (root : node) :
  keeps_nodes root (snd (injectDownloadButton_loop location_href bars root)).
Proof.
  revert root; induction bars as [|q bars IH]; intros root; simpl;
    [apply keeps_nodes_refl|].
  destruct (node_at root q) as [actionDiv|]; [|apply IH].
  destruct (querySelector "sc-button-download" actionDiv); [apply IH|].
  destruct (querySelector "sc-button-like" actionDiv) as [likePath|]; [|apply IH].
  destruct (node_at actionDiv likePath) as [[d|like lcs]|]; try apply IH.
  destruct (new_URL _) as [u|e]; [|apply keeps_nodes_refl].
  destruct (includes "/sets/" (URL_pathname u)); [apply IH|].
  eapply keeps_nodes_trans; [apply appendChild_keeps | apply IH].
Qed.

(** X21. [injectDownloadButton] removes, moves and changes nothing:
    every node of the document is at its place afterwards, with its text
    or its properties as before, whether the function returns or
    throws. *)
Theorem injectDownloadButton_keeps_nodes
        (location_href : string) (root : node) (elem : list nat) :
  keeps_nodes root (snd (injectDownloadButton location_href root elem)).
Proof.
  unfold injectDownloadButton.
  destruct (node_at root elem) as [[d|a cs]|]; try apply keeps_nodes_refl.
  apply injectDownloadButton_loop_keeps.
Qed.

Lemma injectDownloadButton_single_run
      (location_href : string) (root : node) (elem q likePath : list nat)
      (a like : element_props) (cs lcs : list node) (actionDiv : node) (u : URL) :
  let trackUrl := getTrackUrlForElement location_href (ancestry root (elem ++ q)) in
  let parent := (elem ++ q ++ removelast likePath)%list in
  node_at root elem = Some (Element a cs) ->
  querySelectorAll "soundActions" (Element a cs) = [q] ->
  node_at root (elem ++ q) = Some actionDiv ->
  querySelector "sc-button-download" actionDiv = None ->
  querySelector "sc-button-like" actionDiv = Some likePath ->
  node_at actionDiv likePath = Some (Element like lcs) ->
  URL_parse trackUrl = Some u ->
  includes "/sets/" (URL_pathname u) = false ->
  exists pa pcs,
    node_at root parent = Some (Element pa pcs) /\
    injectDownloadButton location_href root elem
    = (Ok tt, appendChild parent (make_button like trackUrl) root).
Proof.
  intros trackUrl parent Helem Hbars Hdiv Hnodl Hlike Hl Hu Hsets.
  destruct (querySelector_sound _ _ _ Hlike) as (Hne & _).
  destruct (node_at_parent _ _ _ Hl Hne) as (pa & pcs & Hparent).
  exists pa, pcs. split.
  - unfold parent. rewrite app_assoc, node_at_app, Hdiv. exact Hparent.
  - unfold injectDownloadButton. rewrite Helem, Hbars. simpl.
    rewrite Hdiv, Hnodl, Hlike, Hl. unfold new_URL. simpl.
    fold trackUrl. rewrite Hu, Hsets. unfold parent.
    now rewrite app_assoc.
Qed.

(** X22. For an element with one action bar that has a like button and
    no download button, and whose track URL parses to a path without
    "/sets/", [injectDownloadButton] returns, and the button made for the
    like button and the track URL is the new last child of the like
    button's parent. *)
Theorem injectDownloadButton_adds_button
        (location_href : string) (root : node) (elem q likePath : list nat)
        (a like : element_props) (cs lcs : list node) (actionDiv : node) (u : URL) :
  let trackUrl := getTrackUrlForElement location_href (ancestry root (elem ++ q)) in
  let parent := (elem ++ q ++ removelast likePath)%list in
  node_at root elem = Some (Element a cs) ->
  querySelectorAll "soundActions" (Element a cs) = [q] ->
  node_at root (elem ++ q) = Some actionDiv ->
  querySelector "sc-button-download" actionDiv = None ->
  querySelector "sc-button-like" actionDiv = Some likePath ->
  node_at actionDiv likePath = Some (Element like lcs) ->
  URL_parse trackUrl = Some u ->
  includes "/sets/" (URL_pathname u) = false ->
  exists pa pcs,
    node_at root parent = Some (Element pa pcs) /\
    fst (injectDownloadButton location_href root elem) = Ok tt /\
    node_at (snd (injectDownloadButton location_href root elem))
            (parent ++ [List.length pcs])
    = Some (make_button like trackUrl).
Proof.
  intros trackUrl parent Helem Hbars Hdiv Hnodl Hlike Hl Hu Hsets.
  destruct (injectDownloadButton_single_run location_href root elem q likePath
              a like cs lcs actionDiv u Helem Hbars Hdiv Hnodl Hlike Hl Hu Hsets)
    as (pa & pcs & Hp & Hrun).
  exists pa, pcs. split; [exact Hp|]. fold trackUrl parent in Hrun.
  rewrite Hrun. simpl. split; [reflexivity|].
  exact (appendChild_last _ _ _ pa pcs Hp).
Qed.

Lemma children_paths_complete (cls : string) (cs : list node) (i k : nat)
      (c : node) (p : list nat) :
  nth_error cs k = Some c ->
  In p (matching_paths cls c) ->
  In ((i + k) :: p) (children_paths cls cs i).
Proof.
  revert i k; induction cs as [|c0 cs IH]; intros i [|k]; simpl;
    try discriminate.
  - intros [= ->] Hp. apply in_or_app. left. rewrite Nat.add_0_r.
    now apply in_map.
  - intros Hk Hp. apply in_or_app. right.
    replace (i + S k) with (S i + k) by lia. now apply IH.
Qed.

Lemma matching_paths_complete (cls : string) (n t : node) (p : list nat) :
  node_at n p = Some t -> has_class cls t = true ->
  In p (matching_paths cls n).
Proof.
  revert n; induction p as [|i p IH]; intros n Hp Hc.
  - simpl in Hp. injection Hp as ->.
    destruct t as [d|a cs]; [discriminate|].
    rewrite matching_paths_unfold, Hc. now left.
  - destruct n as [d|a cs]; [discriminate|]. simpl in Hp.
    destruct (nth_error cs i) as [c|] eqn:Hi; [|discriminate].
    rewrite matching_paths_unfold. apply in_or_app. right.
    apply (children_paths_complete cls cs 0 i c p Hi). now apply IH.
Qed.

Lemma querySelectorAll_complete (cls : string) (n t : node) (p : list nat) :
  p <> [] -> node_at n p = Some t -> has_class cls t = true ->
  In p (querySelectorAll cls n).
Proof.
  intros Hne Hp Hc. destruct p as [|i p]; [contradiction|].
  destruct n as [d|a cs]; [discriminate|]. simpl in *.
  destruct (nth_error cs i) as [c|] eqn:Hi; [|discriminate].
  apply (children_paths_complete cls cs 0 i c p Hi).
  eapply matching_paths_complete; eauto.
Qed.

Lemma querySelector_complete (cls : string) (n t : node) (p : list nat) :
  p <> [] -> node_at n p = Some t -> has_class cls t = true ->
  querySelector cls n <> None.
Proof.
  intros Hne Hp Hc. unfold querySelector.
  pose proof (querySelectorAll_complete _ _ _ _ Hne Hp Hc) as Hin.
  destruct (querySelectorAll cls n); [destruct Hin | discriminate].
Qed.

Lemma same_node_has_class (cls : string) (n n' : node) :
  same_node n n' -> has_class cls n = has_class cls n'.
Proof. destruct n, n'; simpl; try tauto. now intros ->. Qed.

(** A node of the document after [appendChild] was there before, or lies
    in the child that was added. *)
Lemma appendChild_nodes (parent : list nat) (child root : node)
      (pa : element_props) (pcs : list node) (p : list nat) (t' : node) :
  node_at root parent = Some (Element pa pcs) ->
  node_at (appendChild parent child root) p = Some t' ->
  (exists t, node_at root p = Some t /\ same_node t t') \/
  (exists p', p = (parent ++ List.length pcs :: p')%list /\
              node_at child p' = Some t').
Proof.
  revert root p; induction parent as [|j parent IH]; intros root p Hparent Hp.
  - simpl in Hparent. injection Hparent as ->. simpl in Hp.
    destruct p as [|i p]; simpl in Hp.
    + injection Hp as <-. left. eexists. split; [reflexivity | exact eq_refl].
    + destruct (Nat.lt_ge_cases i (List.length pcs)) as [Hlt|Hge].
      * rewrite nth_error_app1 in Hp by assumption.
        left. exists t'. simpl. split; [exact Hp | apply same_node_refl].
      * rewrite nth_error_app2 in Hp by assumption.
        destruct (i - List.length pcs) as [|k] eqn:Hk; simpl in Hp.
        -- right. exists p. split; [|exact Hp]. simpl. f_equal. lia.
        -- now destruct k.
  - destruct root as [d|a cs]; [discriminate|]. simpl in Hparent.
    destruct (nth_error cs j) as [c0|] eqn:Hj; [|discriminate].
    destruct p as [|i p]; simpl in Hp.
    + injection Hp as <-. left. eexists. split; [reflexivity | exact eq_refl].
    + destruct (Nat.eq_dec j i) as [->|Hne].
      * rewrite (nth_error_update_nth_eq _ _ _ _ Hj) in Hp.
        destruct (IH c0 p Hparent Hp) as [(t & Ht & Hs)|(p' & -> & Hc)].
        -- left. exists t. simpl. rewrite Hj. auto.
        -- right. exists p'. auto.
      * rewrite (nth_error_update_nth_neq _ _ _ _ Hne) in Hp.
        left. exists t'. simpl. split; [exact Hp | apply same_node_refl].
Qed.

(** X24. Injecting a second time adds nothing: for an element with one
    action bar as in X22 whose like button's class name starts with the
    token sc-button-like, a second call of [injectDownloadButton] on the
    document the first call left returns that document as it is. *)
Theorem injectDownloadButton_twice
        (location_href : string) (root : node) (elem q likePath : list nat)
        (a like : element_props) (cs lcs : list node) (actionDiv : node) (u : URL)
        (rest : string) :
  let trackUrl := getTrackUrlForElement location_href (ancestry root (elem ++ q)) in
  node_at root elem = Some (Element a cs) ->
  querySelectorAll "soundActions" (Element a cs) = [q] ->
  node_at root (elem ++ q) = Some actionDiv ->
  querySelector "sc-button-download" actionDiv = None ->
  querySelector "sc-button-like" actionDiv = Some likePath ->
  node_at actionDiv likePath = Some (Element like lcs) ->
  URL_parse trackUrl = Some u ->
  includes "/sets/" (URL_pathname u) = false ->
  className like = "sc-button-like" ++ rest ->
  token_end rest ->
  let root' := snd (injectDownloadButton location_href root elem) in
  injectDownloadButton location_href root' elem = (Ok tt, root').
Proof.
  intros trackUrl Helem Hbars Hdiv Hnodl Hlike Hl Hu Hsets Hcls Hrest root'.
  destruct (injectDownloadButton_single_run location_href root elem q likePath
              a like cs lcs actionDiv u Helem Hbars Hdiv Hnodl Hlike Hl Hu Hsets)
    as (pa & pcs & Hp & Hrun).
  fold trackUrl in Hrun.
  set (parent := (elem ++ q ++ removelast likePath)%list) in *.
  set (button := make_button like trackUrl) in *.
  assert (root' = appendChild parent button root) as Hroot'
    by (unfold root'; now rewrite Hrun).
  clearbody root'. subst root'.
  assert (has_class "sc-button-download" button = true) as Hdl.
  { destruct (make_button_tokens like trackUrl) as (ba & bcs & Hb & Htok).
    unfold button. rewrite Hb. apply has_class_in. rewrite Htok.
    apply filter_In. split; [|reflexivity]. apply token_set_in. rewrite Hcls.
    assert (replace_first "sc-button-like" "sc-button-download"
                          ("sc-button-like" ++ rest)
            = "sc-button-download" ++ rest) as -> by reflexivity.
    rewrite class_tokens_token; [now left| |assumption].
    split; [discriminate | reflexivity]. }
  destruct (appendChild_keeps parent button root elem _ Helem)
    as (elem' & Helem' & Hsame).
  destruct elem' as [d|a' cs']; [contradiction|]. simpl in Hsame. subst a'.
  unfold injectDownloadButton. rewrite Helem'.
  apply injectDownloadButton_loop_passed_over.
  intros q0 Hq0. apply in_map_iff in Hq0 as (q' & <- & Hq').
  apply querySelectorAll_sound in Hq' as (Hne & t & Ht & Hc).
  assert (node_at (appendChild parent button root) (elem ++ q') = Some t) as Hat
    by now rewrite node_at_app, Helem'.
  exists t. split; [exact Hat|].
  destruct (appendChild_nodes _ _ _ _ _ _ _ Hp Hat)
    as [(t0 & Ht0 & Hs0)|(p' & Hpath & Hin)].
  - (* an action bar that was there: it is [q], and now holds the button *)
    left.
    assert (q' = q) as ->.
    { assert (In q' (querySelectorAll "soundActions" (Element a cs))) as Hin.
      { apply querySelectorAll_complete with (t := t0); [assumption| |].
        - rewrite node_at_app, Helem in Ht0. exact Ht0.
        - now rewrite (same_node_has_class _ _ _ Hs0). }
      rewrite Hbars in Hin. destruct Hin as [<-|[]]. reflexivity. }
    apply querySelector_complete
      with (t := button) (p := (removelast likePath ++ [List.length pcs])%list).
    + now destruct (removelast likePath).
    + pose proof (appendChild_last _ button _ _ _ Hp) as Hlast.
      unfold parent in Hlast.
      replace ((elem ++ q ++ removelast likePath) ++ [List.length pcs])%list
        with ((elem ++ q) ++ removelast likePath ++ [List.length pcs])%list
        in Hlast by now rewrite <- !app_assoc.
      rewrite node_at_app in Hlast. fold parent in Hlast.
      now rewrite Hat in Hlast.
    + exact Hdl.
  - (* the button itself, should it count as an action bar *)
    right. left.
    destruct p' as [|i p'].
    + simpl in Hin. injection Hin as <-. reflexivity.
    + exfalso. unfold button, make_button in Hin. simpl in Hin.
      destruct i as [|i]; simpl in Hin; [|now destruct i].
      destruct p'; simpl in Hin; [|discriminate].
      injection Hin as <-. discriminate.
Qed.

End InjectMore.

Section ContentInit.
Context {B : Browser}.

(** X25. When no script of the page yields a client id, [init] fails
    with the error "Could not get client_id value from current page"
    before any button is injected: the document is as it was and
    [clientId] is not assigned. *)
Theorem content_init_not_found
        (location_href : string) (body : list nat) (w : page) (root : node) :
  all_yield_nothing (trace w) script_srcs ->
  content_init location_href body w root
  = (Throw CredentialNotFound, after (script_requests script_srcs) w, root).
Proof.
  intros H. unfold content_init. now rewrite (init_clientId_not_found _ H).
Qed.

End ContentInit.

(** ** The theorems at concrete inputs *)

Ltac solve_renditions :=
  eexists; split; [reflexivity|]; split; [reflexivity|];
  repeat (apply Forall_cons; [eexists; reflexivity|]); apply Forall_nil.

Lemma pickTranscoding_direct_file_only_witness :
  track_renditions Demo.departure Demo.departure_renditions /\
  (exists r,
     pickTranscoding Demo.departure "sq" = Ok r /\
     (r = VNull \/
      (In r Demo.departure_renditions /\ direct_file r /\ has_quality "sq" r))) /\
  (exists s,
     selectTranscoding Demo.departure = Ok s /\
     (s = VNull \/ (In s Demo.departure_renditions /\ direct_file s))).
Proof.
  assert (track_renditions Demo.departure Demo.departure_renditions) as H
    by solve_renditions.
  split; [exact H|].
  exact (pickTranscoding_direct_file_only
           Demo.departure Demo.departure_renditions "sq" H).
Defined.

Lemma selectTranscoding_prefers_hq_witness :
  track_renditions Demo.both Demo.both_renditions /\
  (exists h, In h Demo.both_renditions /\ direct_file h /\ has_quality "hq" h) /\
  exists pre t post,
    Demo.both_renditions = (pre ++ t :: post)%list /\
    Forall (fun x => ~ (direct_file x /\ has_quality "hq" x)) pre /\
    direct_file t /\ has_quality "hq" t /\
    selectTranscoding Demo.both = Ok t.
Proof.
  assert (track_renditions Demo.both Demo.both_renditions) as H
    by solve_renditions.
  assert (exists h, In h Demo.both_renditions /\
                    direct_file h /\ has_quality "hq" h) as Hhq.
  { eexists. split; [right; right; left; reflexivity|].
    split; reflexivity. }
  split; [exact H|]. split; [exact Hhq|].
  exact (selectTranscoding_prefers_hq Demo.both Demo.both_renditions H Hhq).
Defined.

Lemma downloadTrackTranscoding_no_direct_file_witness :
  track_renditions Demo.streamed Demo.streamed_renditions /\
  Forall (fun t => ~ direct_file t) Demo.streamed_renditions /\
  downloadTrackTranscoding (B := Demo.browser [] [])
    Demo.streamed (VStr "t") (Demo.page0 true "oauth_token=t")
  = (Throw NoEligibleRendition, Demo.page0 true "oauth_token=t").
Proof.
  assert (track_renditions Demo.streamed Demo.streamed_renditions) as H
    by solve_renditions.
  assert (Forall (fun t => ~ direct_file t) Demo.streamed_renditions) as Hn.
  { repeat (apply Forall_cons; [intros Hd; cbv in Hd; discriminate Hd|]).
    apply Forall_nil. }
  split; [exact H|]. split; [exact Hn|].
  exact (downloadTrackTranscoding_no_direct_file (B := Demo.browser [] [])
           Demo.streamed (VStr "t") Demo.streamed_renditions
           (Demo.page0 true "oauth_token=t") H Hn).
Defined.

Lemma downloadTrack_resolution_failed_witness :
  api_request (B := Demo.browser Demo.missing_table [])
    resolve_endpoint (session_token (Demo.page0 false ""))
    (resolve_args Demo.departure_url) (Demo.page0 false "")
  = Ok (Demo.departure_resolve, []) /\
  fetch_response (Browser := Demo.browser Demo.missing_table [])
    (trace (Demo.page0 false "")) Demo.departure_resolve (Some [])
  = Ok Demo.missing_response /\
  (status Demo.missing_response < 200 \/ 299 < status Demo.missing_response)%Z /\
  downloadTrack (B := Demo.browser Demo.missing_table [])
    Demo.departure_url (Demo.page0 false "")
  = (Throw (ResolutionFailed Demo.departure_resolve Demo.missing_response),
     after [EFetch Demo.departure_resolve (Some [])] (Demo.page0 false "")).
Proof.
  assert ((status Demo.missing_response < 200
           \/ 299 < status Demo.missing_response)%Z) as Hs
    by (right; simpl; lia).
  split; [reflexivity|]. split; [reflexivity|]. split; [exact Hs|].
  exact (downloadTrack_resolution_failed (B := Demo.browser Demo.missing_table [])
           Demo.departure_url (Demo.page0 false "") Demo.departure_resolve []
           Demo.missing_response eq_refl eq_refl Hs).
Defined.

Lemma downloadTrack_native_witness :
  let B := Demo.browser Demo.night_drive_table [] in
  let w := Demo.page0 true "oauth_token=secret" in
  let w1 := after [EFetch Demo.night_drive_resolve
                          (Some [("Authorization", "OAuth secret")])] w in
  fetchAuthorizedJson resolve_endpoint (session_token w)
                      (resolve_args Demo.night_drive_url) w
  = (Ok Demo.night_drive, w1) /\
  flag_set Demo.night_drive "downloadable" /\
  flag_set Demo.night_drive "has_downloads_left" /\
  exists id,
    get_prop Demo.night_drive "id" = Ok id /\
    downloadTrack Demo.night_drive_url w = downloadNative id w1.
Proof.
  intros B w w1.
  assert (flag_set Demo.night_drive "downloadable") as Hd
    by (exists (VBool true); split; reflexivity).
  assert (flag_set Demo.night_drive "has_downloads_left") as Hl
    by (exists (VBool true); split; reflexivity).
  split; [reflexivity|]. split; [exact Hd|]. split; [exact Hl|].
  exact (downloadTrack_native (B := B) Demo.night_drive_url w w1
           Demo.night_drive eq_refl Hd Hl).
Defined.

Lemma downloadTrackTranscoding_fetches_once_witness :
  let B := Demo.browser Demo.departure_table [] in
  let w := Demo.page0 false "" in
  let w1 := after [EFetch Demo.departure_metadata (Some [])] w in
  reaches_fetch Demo.departure VNull w w1 Demo.departure_file
                "choicescarf - Departure Remix.mp3" /\
  (exists evs,
     snd (downloadTrackTranscoding Demo.departure VNull w) = after evs w1 /\
     fetch_count evs = 1 /\
     plain_fetch_count Demo.departure_file evs = 1) /\
  (exists evs,
     snd (downloadTrackTranscoding Demo.departure VNull w) = after evs w /\
     plain_fetch_count Demo.departure_file evs = 1 /\
     forall url, In (EFetch url None) evs -> url = Demo.departure_file).
Proof.
  intros B w w1.
  assert (reaches_fetch Demo.departure VNull w w1 Demo.departure_file
                        "choicescarf - Departure Remix.mp3") as H.
  { do 7 eexists. repeat (split; [cbv; reflexivity|]). cbv; reflexivity. }
  split; [exact H|].
  exact (downloadTrackTranscoding_fetches_once (B := B) Demo.departure VNull
           w w1 Demo.departure_file "choicescarf - Departure Remix.mp3" H).
Defined.

Lemma downloadTrack_session_token_witness :
  let B := Demo.browser Demo.departure_table [] in
  let w := Demo.page0 false "oauth_token=secret" in
  truthy (enableHQ_setting w) = false /\
  downloadTrack Demo.departure_url (with_cookie "oauth_token=other" w)
  = (fst (downloadTrack Demo.departure_url w),
     with_cookie "oauth_token=other" (snd (downloadTrack Demo.departure_url w))).
Proof.
  intros B w. split; [reflexivity|].
  exact (proj2 (downloadTrack_session_token (B := B) Demo.departure_url w)
               eq_refl "oauth_token=other").
Defined.

Lemma getTrackName_filename_witness :
  let B := Demo.browser Demo.departure_table [] in
  let w := Demo.page0 false "" in
  (get_prop Demo.both "title" = Ok (VStr "DJ Snake - Night Drive") /\
   contains " - " "DJ Snake - Night Drive" /\
   getTrackName Demo.both = Ok (VStr "DJ Snake - Night Drive")) /\
  (get_prop Demo.departure "title" = Ok (VStr "Departure Remix") /\
   ~ contains " - " "Departure Remix" /\
   getTrackName Demo.departure = Ok (VStr "choicescarf - Departure Remix")) /\
  (downloadTrackTranscoding Demo.departure VNull w
   = (Ok tt,
      after [EFetch Demo.departure_metadata (Some []);
             EFetch Demo.departure_file None;
             EDownload "blob:ID3" "choicescarf - Departure Remix.mp3"] w) /\
   exists name finalUrl u href evs,
     getTrackName Demo.departure = Ok (VStr name) /\
     URL_parse finalUrl = Some u /\
     trace (after [EFetch Demo.departure_metadata (Some []);
                   EFetch Demo.departure_file None;
                   EDownload "blob:ID3" "choicescarf - Departure Remix.mp3"] w) =
     (trace w ++ evs ++
      [EFetch finalUrl None;
       EDownload href (name ++ "." ++ extension (URL_pathname u))])%list).
Proof.
  intros B w.
  assert (contains " - " "DJ Snake - Night Drive") as Hc
    by (apply includes_contains; reflexivity).
  assert (~ contains " - " "Departure Remix") as Hn
    by (apply includes_false; reflexivity).
  split; [|split].
  - split; [reflexivity|]. split; [exact Hc|].
    exact (proj1 (getTrackName_filename (B := B) Demo.both
                    "DJ Snake - Night Drive" eq_refl) Hc).
  - split; [reflexivity|]. split; [exact Hn|].
    exact (proj1 (proj2 (getTrackName_filename (B := B) Demo.departure
                           "Departure Remix" eq_refl))
                 Hn (VObj [("username", VStr "choicescarf")]) "choicescarf"
                 eq_refl eq_refl).
  - split; [reflexivity|].
    exact (proj2 (proj2 (getTrackName_filename (B := B) Demo.departure
                           "Departure Remix" eq_refl))
                 VNull w _ eq_refl).
Defined.

Lemma scrapeClientId_first_match_witness :
  let w := Demo.page0 false "" in
  (let B := Demo.browser Demo.script_table Demo.scripts_found in
   all_yield_nothing (trace w) [""; Demo.script_plain; Demo.script_dead] /\
   yields (trace w ++ script_requests [""; Demo.script_plain; Demo.script_dead])
          Demo.script_app "L6pWQKWWm6oT4Nv0mTWEkxKypNpleA5m" /\
   scrapeClientId w
   = (Ok (VStr "L6pWQKWWm6oT4Nv0mTWEkxKypNpleA5m"),
      after [EFetch Demo.script_plain None; EFetch Demo.script_dead None;
             EFetch Demo.script_app None] w)) /\
  (let B := Demo.browser Demo.script_table Demo.scripts_none in
   all_yield_nothing (trace w) script_srcs /\
   scrapeClientId w
   = (Throw CredentialNotFound,
      after [EFetch Demo.script_plain None; EFetch Demo.script_dead None] w)).
Proof.
  intros w.
  assert (forall scripts tr,
            all_yield_nothing (B := Demo.browser Demo.script_table scripts) tr
              [""; Demo.script_plain; Demo.script_dead]) as Hnone.
  { intros scripts tr. split; [left; reflexivity|]. split.
    - right; right. do 2 eexists. split; [reflexivity|]. split; [reflexivity|].
      apply client_id_match_none. reflexivity.
    - split; [|exact I]. right; left. eexists. reflexivity. }
  split.
  - intros B.
    assert (yields (trace w ++ script_requests
                                 [""; Demo.script_plain; Demo.script_dead])
                   Demo.script_app "L6pWQKWWm6oT4Nv0mTWEkxKypNpleA5m") as Hy.
    { split; [discriminate|]. do 2 eexists.
      split; [reflexivity|]. split; [reflexivity|].
      apply client_id_match_first. reflexivity. }
    split; [apply Hnone|]. split; [exact Hy|].
    exact (proj1 (proj1 (scrapeClientId_first_match (B := B) w)
                        [""; Demo.script_plain; Demo.script_dead]
                        Demo.script_app [Demo.script_late]
                        "L6pWQKWWm6oT4Nv0mTWEkxKypNpleA5m"
                        eq_refl (Hnone _ _) Hy)).
  - intros B. split; [apply Hnone|].
    exact (proj2 (scrapeClientId_first_match (B := B) w) (Hnone _ _)).
Defined.

(** The native path with the preference set and a session cookie: the
    token goes out with the resolve request and not with the download
    request. *)
Example night_drive_run :
  downloadTrack (B := Demo.browser Demo.night_drive_table [])
    Demo.night_drive_url (Demo.page0 true "sc_anon=1; oauth_token=secret")
  = (Ok tt,
     after [EFetch Demo.night_drive_resolve
                   (Some [("Authorization", "OAuth secret")]);
            EFetch Demo.night_drive_download (Some []);
            EDownload "https://cf-media.sndcdn.com/orig.wav" "undefined"]
           (Demo.page0 true "sc_anon=1; oauth_token=secret")).
Proof. vm_compute. reflexivity. Qed.

(** The high-quality rendition is chosen, and asked for with the token. *)
Example both_select :
  rbind (selectTranscoding Demo.both) (fun t => get_prop t "url")
  = Ok (VStr "https://api-v2.soundcloud.com/media/7/hq").
Proof. reflexivity. Qed.

Example scrape_run :
  fst (scrapeClientId (B := Demo.browser Demo.script_table Demo.scripts_found)
         (Demo.page0 false ""))
  = Ok (VStr "L6pWQKWWm6oT4Nv0mTWEkxKypNpleA5m").
Proof. vm_compute. reflexivity. Qed.

Example setting_written :
  storage_sync (snd (onEnableHQChange "1" (Demo.page0 false "")))
  = [("enableHQ", VBool true)].
Proof. reflexivity. Qed.

Example inject_run :
  injectDownloadButton (B := Demo.browser [] []) Demo.stream_href
    (Demo.stream_page [Element Demo.like_props [TextNode "Like"]]) [1]
  = (Ok tt,
     Demo.stream_page
       [Element Demo.like_props [TextNode "Like"];
        Element {| tagName := "BUTTON";
                   className := "sc-button-download sc-button sc-button-small";
                   href := ""; title := "Download";
                   onclick := Some Demo.departure_url |}
                [TextNode "Download"]]).
Proof. vm_compute. reflexivity. Qed.

Example inject_twice :
  let B := Demo.browser [] [] in
  let page1 := snd (injectDownloadButton Demo.stream_href
                      (Demo.stream_page [Element Demo.like_props []]) [1]) in
  injectDownloadButton Demo.stream_href page1 [1] = (Ok tt, page1).
Proof. vm_compute. reflexivity. Qed.

(** ** The further properties at concrete inputs *)

Lemma selectTranscoding_falls_back_to_sq_witness :
  exists pre t post,
    Demo.departure_renditions = (pre ++ t :: post)%list /\
    Forall (fun x => ~ (direct_file x /\ has_quality "sq" x)) pre /\
    direct_file t /\ has_quality "sq" t /\
    selectTranscoding Demo.departure = Ok t.
Proof.
  apply (selectTranscoding_falls_back_to_sq
           Demo.departure Demo.departure_renditions).
  - solve_renditions.
  - repeat (apply Forall_cons;
            [intros [Hd Hq]; cbv in Hd, Hq; discriminate|]).
    apply Forall_nil.
  - eexists. split; [right; left; reflexivity|]. split; reflexivity.
Defined.

Lemma selectTranscoding_null_iff_witness :
  selectTranscoding Demo.odd = Ok VNull /\
  downloadTrackTranscoding (B := Demo.browser [] []) Demo.odd VNull
    (Demo.page0 false "")
  = (Throw NoEligibleRendition, Demo.page0 false "").
Proof.
  assert (track_renditions Demo.odd Demo.odd_renditions) as H
    by solve_renditions.
  assert (Forall (fun t => ~ (direct_file t /\
                              (has_quality "hq" t \/ has_quality "sq" t)))
                 Demo.odd_renditions) as Hn.
  { repeat (apply Forall_cons;
            [intros [Hd [Hq|Hq]]; cbv in Hd, Hq; discriminate|]).
    apply Forall_nil. }
  destruct (selectTranscoding_null_iff (B := Demo.browser [] [])
              Demo.odd Demo.odd_renditions H) as [Hiff Hrun].
  split; [now apply Hiff | now apply Hrun].
Defined.

Lemma pickTranscoding_in_order_witness :
  pickTranscoding (Demo.broken Demo.sq_rendition) "sq" = Ok Demo.sq_rendition /\
  exists e, pickTranscoding (Demo.broken (VNum 3)) "sq" = Throw e.
Proof.
  assert (Forall is_rendition [Demo.hls_rendition]) as Hr
    by (apply Forall_cons; [eexists; reflexivity | apply Forall_nil]).
  assert (Forall (fun t => ~ (direct_file t /\ has_quality "sq" t))
                 [Demo.hls_rendition]) as Hn.
  { apply Forall_cons; [|apply Forall_nil].
    intros [Hd _]. cbv in Hd. discriminate. }
  split.
  - apply (proj1 (pickTranscoding_in_order
                    (Demo.broken Demo.sq_rendition) _ [Demo.hls_rendition]
                    [Demo.sq_rendition] Demo.sq_rendition "sq"
                    eq_refl eq_refl Hr Hn)).
    split; reflexivity.
  - eexists.
    apply (proj2 (pickTranscoding_in_order
                    (Demo.broken (VNum 3)) _ [Demo.hls_rendition]
                    [Demo.sq_rendition] (VNum 3) "sq"
                    eq_refl eq_refl Hr Hn)).
    reflexivity.
Defined.

Lemma downloadTrack_transcoding_path_witness :
  let B := Demo.browser Demo.departure_table [] in
  let w := Demo.page0 false "" in
  downloadTrack Demo.departure_url w
  = downloadTrackTranscoding Demo.departure (session_token w)
      (after [EFetch Demo.departure_resolve (Some [])] w).
Proof.
  intros B w.
  apply (downloadTrack_transcoding_path (B := B) Demo.departure_url w _
           Demo.departure (VBool false)).
  - reflexivity.
  - reflexivity.
  - left. reflexivity.
Defined.

Lemma downloadTrack_resolve_failure_witness :
  let B := Demo.browser [] [] in
  let w := Demo.page0 false "" in
  downloadTrack Demo.departure_url w
  = (Throw (TypeError "NetworkError when attempting to fetch resource."),
     after [EFetch Demo.departure_resolve (Some [])] w).
Proof.
  intros B w.
  apply (downloadTrack_resolve_failure (B := B) Demo.departure_url w
           Demo.departure_resolve []); reflexivity.
Defined.

Lemma downloadTrackTranscoding_saves_any_status_witness :
  let B := Demo.browser Demo.forbidden_table [] in
  let w := Demo.page0 false "" in
  let w1 := after [EFetch Demo.departure_metadata (Some [])] w in
  status (Demo.text_response 403 "Forbidden") = 403%Z /\
  downloadTrackTranscoding Demo.departure VNull w
  = (Ok tt,
     after [EFetch Demo.departure_file None;
            EDownload "blob:Forbidden" "choicescarf - Departure Remix.mp3"] w1).
Proof.
  intros B w w1. split; [reflexivity|].
  apply (downloadTrackTranscoding_saves_any_status (B := B) Demo.departure VNull
           w w1 Demo.departure_file "choicescarf - Departure Remix.mp3"
           (Demo.text_response 403 "Forbidden") "Forbidden").
  - do 7 eexists. repeat (split; [cbv; reflexivity|]). cbv; reflexivity.
  - reflexivity.
  - reflexivity.
Defined.

Lemma downloadNative_missing_redirectUri_witness :
  let B := Demo.browser Demo.empty_download_table [] in
  let w := Demo.page0 true "oauth_token=secret" in
  downloadNative (VNum 5) w
  = (Ok tt, after [EFetch Demo.night_drive_download (Some []);
                   EDownload "undefined" "undefined"] w).
Proof.
  intros B w.
  apply (downloadNative_missing_redirectUri (B := B) (VNum 5) w "5"
           Demo.night_drive_download []
           (Demo.json_response 200 (VObj [])) []); reflexivity.
Defined.

Lemma getTrackName_has_separator_witness :
  exists s, VStr "choicescarf - Departure Remix" = VStr s /\ contains " - " s.
Proof.
  apply (getTrackName_has_separator Demo.departure
           (VStr "choicescarf - Departure Remix") "Departure Remix");
    reflexivity.
Defined.

Lemma extension_after_last_dot_witness :
  extension ("/abc.128" ++ "." ++ "mp3") = "mp3" /\
  extension "/media/file" = "/media/file".
Proof.
  split.
  - apply (proj1 (extension_after_last_dot "/abc.128" "mp3" "")). reflexivity.
  - apply (proj2 (extension_after_last_dot "" "" "/media/file")). reflexivity.
Defined.

Lemma getCookie_first_named_witness :
  getCookie "oauth_token"
    (Demo.page0 true "sc_anon=1; oauth_token=; xoauth_token=no;  oauth_token=secret; a=b")
  = (Ok (VStr "secret"),
     Demo.page0 true "sc_anon=1; oauth_token=; xoauth_token=no;  oauth_token=secret; a=b").
Proof.
  apply (getCookie_first_named "oauth_token"
           (Demo.page0 true
              "sc_anon=1; oauth_token=; xoauth_token=no;  oauth_token=secret; a=b")).
  - reflexivity.
  - reflexivity.
  - intros r H. discriminate H.
Defined.

Lemma getCookie_value_witness :
  literal_key "oauth_token" /\
  (getCookie "oauth_token" (Demo.page0 true "my_oauth_token=no; a=b")
   = (Ok VNull, Demo.page0 true "my_oauth_token=no; a=b") \/
   exists g,
     getCookie "oauth_token" (Demo.page0 true "my_oauth_token=no; a=b")
     = (Ok (VStr g), Demo.page0 true "my_oauth_token=no; a=b") /\
     cookie_value "oauth_token" "my_oauth_token=no; a=b" g).
Proof.
  assert (literal_key "oauth_token") as H by reflexivity.
  split; [exact H|].
  exact (getCookie_value "oauth_token"
           (Demo.page0 true "my_oauth_token=no; a=b") H).
Defined.

Lemma scrapeClientId_text_failure_witness :
  let B := Demo.browser Demo.broken_script_table Demo.scripts_broken in
  let w := Demo.page0 false "" in
  scrapeClientId w
  = (Throw (Exn "TypeError" "body stream error"),
     after [EFetch Demo.script_plain None; EFetch Demo.script_broken None] w).
Proof.
  intros B w.
  apply (scrapeClientId_text_failure (B := B) w [""; Demo.script_plain]
           [Demo.script_app] Demo.script_broken Demo.unreadable).
  - reflexivity.
  - split; [left; reflexivity|]. split; [|exact I].
    right; right. do 2 eexists. split; [reflexivity|]. split; [reflexivity|].
    apply client_id_match_none. reflexivity.
  - discriminate.
  - reflexivity.
  - reflexivity.
Defined.

Lemma options_round_trip_witness :
  options_init (snd (onEnableHQChange "1" (Demo.page0 false "")))
  = (Ok "1", snd (onEnableHQChange "1" (Demo.page0 false ""))) /\
  options_init {| clientId := VUndefined; document_cookie := "";
                  storage_sync := []; trace := [] |}
  = (Ok "0", {| clientId := VUndefined; document_cookie := "";
                storage_sync := []; trace := [] |}).
Proof.
  split.
  - exact (proj1 (options_round_trip "1" (Demo.page0 false ""))).
  - exact (proj2 (proj2 (options_round_trip "1"
             {| clientId := VUndefined; document_cookie := "";
                storage_sync := []; trace := [] |})) eq_refl).
Defined.

Lemma downloadTrack_after_switch_on_witness :
  let B := Demo.browser Demo.departure_table [] in
  let w := Demo.page0 false "oauth_token=secret" in
  let w' := snd (onEnableHQChange "1" w) in
  [("Authorization", "OAuth secret")] = [("Authorization", "OAuth " ++ "secret")] /\
  exists evs,
    trace (snd (downloadTrack Demo.departure_url w'))
    = (trace w ++ EFetch Demo.departure_resolve
                         (Some [("Authorization", "OAuth secret")]) :: evs)%list.
Proof.
  intros B w w'.
  apply (downloadTrack_after_switch_on (B := B) "1" Demo.departure_url "secret"
           Demo.departure_resolve [("Authorization", "OAuth secret")] w).
  - discriminate.
  - reflexivity.
  - reflexivity.
Defined.

Lemma button_onclick_resolution_failed_witness :
  let B := Demo.browser Demo.missing_table [] in
  button_onclick Demo.departure_url
    {| innerText := "Download"; classList := ["sc-button-download"; "sc-button"] |}
    (Demo.page0 false "")
  = (Throw (ResolutionFailed Demo.departure_resolve Demo.missing_response),
     after [EFetch Demo.departure_resolve (Some [])] (Demo.page0 false ""),
     {| innerText := "Failed :-(";
        classList := ["sc-button-download"; "sc-button"] |},
     ["Error: Request to " ++ Demo.departure_resolve
      ++ " failed with result 404"]).
Proof.
  intros B.
  apply (button_onclick_resolution_failed (B := B) Demo.departure_url
           {| innerText := "Download";
              classList := ["sc-button-download"; "sc-button"] |}
           (Demo.page0 false "") Demo.departure_resolve []
           Demo.missing_response).
  - reflexivity.
  - reflexivity.
  - right. simpl. lia.
Defined.

Lemma injectDownloadButton_passed_over_witness :
  let root := Demo.stream_page [Demo.like_button; Demo.download_button] in
  injectDownloadButton (B := Demo.browser [] []) Demo.stream_href root [1]
  = (Ok tt, root).
Proof.
  intros root.
  eapply (injectDownloadButton_passed_over (B := Demo.browser [] [])
            Demo.stream_href root [1]).
  - reflexivity.
  - intros q [<-|[]]. eexists. split; [reflexivity|].
    left. cbv. discriminate.
Defined.

Lemma injectDownloadButton_adds_button_witness :
  let B := Demo.browser [] [] in
  let root := Demo.stream_page [Demo.like_button] in
  exists pa pcs,
    node_at root [1; 0; 1; 0] = Some (Element pa pcs) /\
    fst (injectDownloadButton Demo.stream_href root [1]) = Ok tt /\
    node_at (snd (injectDownloadButton Demo.stream_href root [1]))
            ([1; 0; 1; 0] ++ [List.length pcs])
    = Some (make_button Demo.like_props Demo.departure_url).
Proof.
  intros B root.
  eapply (injectDownloadButton_adds_button (B := B) Demo.stream_href root
            [1] [0; 1] [0; 0]).
  - reflexivity.
  - reflexivity.
  - reflexivity.
  - reflexivity.
  - reflexivity.
  - reflexivity.
  - reflexivity.
  - reflexivity.
Defined.

Lemma make_button_classes_witness :
  has_class "sc-button-selected"
    (make_button Demo.like_props Demo.departure_url) = false /\
  has_class "sc-button-download"
    (make_button Demo.like_props Demo.departure_url) = true.
Proof.
  destruct (make_button_classes Demo.like_props Demo.departure_url
              " sc-button  sc-button-small sc-button-selected") as [Hsel Hdl].
  split; [exact Hsel|]. apply Hdl; [reflexivity|].
  right. do 2 eexists. split; reflexivity.
Defined.

Lemma injectDownloadButton_twice_witness :
  let B := Demo.browser [] [] in
  let root := Demo.stream_page [Demo.like_button] in
  let root' := snd (injectDownloadButton Demo.stream_href root [1]) in
  injectDownloadButton Demo.stream_href root' [1] = (Ok tt, root').
Proof.
  intros B root.
  eapply (injectDownloadButton_twice (B := B) Demo.stream_href root
            [1] [0; 1] [0; 0] _ _ _ _ _ _
            " sc-button  sc-button-small sc-button-selected").
  - reflexivity.
  - reflexivity.
  - reflexivity.
  - reflexivity.
  - reflexivity.
  - reflexivity.
  - reflexivity.
  - reflexivity.
  - reflexivity.
  - right. do 2 eexists. split; reflexivity.
Defined.

Lemma content_init_not_found_witness :
  let B := Demo.browser Demo.script_table Demo.scripts_none in
  let root := Demo.stream_page [Demo.like_button] in
  content_init Demo.stream_href [1] (Demo.page0 false "") root
  = (Throw CredentialNotFound,
     after [EFetch Demo.script_plain None; EFetch Demo.script_dead None]
           (Demo.page0 false ""),
     root).
Proof.
  intros B root.
  apply (content_init_not_found (B := B) Demo.stream_href [1]
           (Demo.page0 false "") root).
  split; [left; reflexivity|]. split.
  - right; right. do 2 eexists. split; [reflexivity|]. split; [reflexivity|].
    apply client_id_match_none. reflexivity.
  - split; [|exact I]. right; left. eexists. reflexivity.
Defined.
